(** * Postfix: properties of the trigger bus, queue-file finalisation,
      address mapping, MX resolution, queue entries, alias expansion and
      the bounce logfile, over a shallow embedding of the C sources. *)

From Stdlib Require Import ZArith List Bool Ascii String.
From stdpp Require Import base tactics option list sorting gmap strings.

Local Open Scope Z_scope.

(** ** util/fifo_trigger.c *)

Module FifoTrigger.

(** What the process does to the outside world, in program order. *)
Inductive event : Type :=
| EvOpen (service : string)
| EvNonBlocking (fd : Z) (on : bool)
| EvWriteBuf (fd : Z) (buf : list Z) (len timeout : Z)
| EvClose (fd : Z)
| EvMsgInfo (what : string) (service : string)
| EvMsgWarn (what : string) (service : string).

(** The answers of the kernel and of write_buf(), which the function
    only inspects for their sign. *)
Record kernel : Type := {
  sys_open : string -> Z;
  sys_write_buf : Z -> list Z -> Z -> Z -> Z;
  sys_close : Z -> Z
}.

Definition NON_BLOCKING := true.
Definition BLOCKING := false.

(** fifo_trigger - wakeup fifo server.  The result pairs the C return
    value with the trace of effects. *)
Definition fifo_trigger (k : kernel) (msg_verbose : bool)
    (service : string) (buf : list Z) (len timeout : Z) : Z * list event :=
  let fd := sys_open k service in
  if fd <? 0 then
    (-1, EvOpen service ::
         (if msg_verbose then [EvMsgInfo "open" service] else []))
  else
    let t_write :=
      if sys_write_buf k fd buf len timeout <? 0
      then (if msg_verbose then [EvMsgWarn "write" service] else [])
      else [] in
    let t_close :=
      if negb (sys_close k fd =? 0)
      then (if msg_verbose then [EvMsgWarn "close" service] else [])
      else [] in
    (0, [EvOpen service;
         EvNonBlocking fd (if 0 <? timeout then NON_BLOCKING else BLOCKING);
         EvWriteBuf fd buf len timeout] ++ t_write ++
        [EvClose fd] ++ t_close).

(** The wakeup bytes reached the FIFO: write_buf() did not fail. *)
Definition delivered (k : kernel) (service : string) (buf : list Z)
    (len timeout : Z) : Prop :=
  0 <= sys_open k service /\
  0 <= sys_write_buf k (sys_open k service) buf len timeout.

Definition is_warning (e : event) : bool :=
  match e with EvMsgWarn _ _ | EvMsgInfo _ _ => true | _ => false end.

(** A kernel where the FIFO opens but every write and close fails. *)
Definition deaf_kernel : kernel :=
  {| sys_open := fun _ => 3;
     sys_write_buf := fun _ _ _ _ => -1;
     sys_close := fun _ => -1 |}.

Lemma fifo_trigger_open_failed k v service buf len timeout :
  sys_open k service < 0 ->
  fifo_trigger k v service buf len timeout =
    (-1, EvOpen service :: (if v then [EvMsgInfo "open" service] else [])).
Proof.
  intros Hneg. unfold fifo_trigger.
  destruct (Z.ltb_spec (sys_open k service) 0); [reflexivity | lia].
Qed.

Lemma fifo_trigger_opened k v service buf len timeout :
  0 <= sys_open k service ->
  (fifo_trigger k v service buf len timeout).1 = 0.
Proof.
  intros Hpos. unfold fifo_trigger.
  destruct (Z.ltb_spec (sys_open k service) 0); [lia | reflexivity].
Qed.

(** C10: fifo_trigger returns -1 exactly when the open of the FIFO
    fails; once the open succeeded the result is 0 whatever write_buf()
    and close() answer, their failures produce nothing but (verbose)
    log lines, and so a 0 result can come with undelivered wakeup bytes. *)
Theorem fifo_trigger_result :
  (forall k v service buf len timeout,
      (fifo_trigger k v service buf len timeout).1 = -1 <->
      sys_open k service < 0) /\
  (forall k v service buf len timeout,
      0 <= sys_open k service ->
      (fifo_trigger k v service buf len timeout).1 = 0 /\
      List.filter (fun e => negb (is_warning e))
             (fifo_trigger k v service buf len timeout).2 =
        [EvOpen service;
         EvNonBlocking (sys_open k service)
                       (if 0 <? timeout then NON_BLOCKING else BLOCKING);
         EvWriteBuf (sys_open k service) buf len timeout;
         EvClose (sys_open k service)] /\
      (v = false ->
       List.filter is_warning (fifo_trigger k v service buf len timeout).2 = [])) /\
  (exists k v service buf len timeout,
      (fifo_trigger k v service buf len timeout).1 = 0 /\
      ~ delivered k service buf len timeout).
Proof.
  split; [|split].
  - intros k v service buf len timeout. split.
    + intros Hret. destruct (Z.lt_ge_cases (sys_open k service) 0) as [|Hge]; [done|].
      rewrite fifo_trigger_opened in Hret by lia. discriminate.
    + intros Hneg. by rewrite fifo_trigger_open_failed.
  - intros k v service buf len timeout Hpos.
    split; [by apply fifo_trigger_opened|].
    unfold fifo_trigger.
    destruct (Z.ltb_spec (sys_open k service) 0) as [|_]; [lia|].
    cbn [snd].
    split.
    + destruct (_ <? 0), (negb _), v; reflexivity.
    + intros ->. destruct (_ <? 0), (negb _); reflexivity.
  - exists deaf_kernel, true, "public/pickup"%string, [87], 1, 0.
    split; [reflexivity|].
    unfold delivered; cbn. lia.
Qed.

End FifoTrigger.

(** ** global/mail_stream.c *)

Module MailStream.

(** Permission bits, in octal in the source. *)
Definition mode_0600 : Z := 384.
Definition mode_0700 : Z := 448.
Definition mode_0111 : Z := 73.

Definition has_execute_bits (mode : Z) : bool :=
  negb (Z.land mode mode_0111 =? 0).

(** The part of MAIL_STREAM and of the file behind its stream that
    finishing touches. *)
Record MAIL_STREAM : Type := {
  file_mode : Z;
  class : string;
  service : string
}.

(** Return values of the calls made on the stream; zero means success. *)
Record kernel : Type := {
  vstream_fflush : Z;
  fchmod : Z;
  fsync : Z;
  close : Z
}.

Record finished : Type := {
  status : Z;
  final_mode : Z;
  triggers : list (string * string)
}.

Section FinishFile.

(** Status codes of cleanup_user.h and the build-time switch. *)
Variables CLEANUP_STAT_OK CLEANUP_STAT_WRITE : Z.
Variable HAS_FSYNC : bool.

(** The condition [vstream_fflush() || fchmod(fd, 0700) || fsync(fd)]:
    evaluation stops at the first call that fails, and fchmod() changes
    the mode only when it succeeds. *)
Definition flush_chmod_sync (k : kernel) (mode : Z) : bool * Z :=
  if negb (vstream_fflush k =? 0) then (true, mode)
  else if negb (fchmod k =? 0) then (true, mode)
  else if HAS_FSYNC && negb (fsync k =? 0) then (true, mode_0700)
  else (false, mode_0700).

(** mail_stream_finish_file - finish file mail stream *)
Definition mail_stream_finish_file (k : kernel) (info : MAIL_STREAM) : finished :=
  let status := 0 in
  let '(failed, mode) := flush_chmod_sync k (file_mode info) in
  let status := if failed then CLEANUP_STAT_WRITE else status in
  let status := if negb (close k =? 0) then CLEANUP_STAT_WRITE else status in
  let sent :=
    if status =? CLEANUP_STAT_OK then [(class info, service info)] else [] in
  {| status := status; final_mode := mode; triggers := sent |}.

(** Every call on the stream reported success. *)
Definition all_succeed (k : kernel) : Prop :=
  vstream_fflush k = 0 /\ fchmod k = 0 /\
  (HAS_FSYNC = true -> fsync k = 0) /\ close k = 0.

Hypothesis stat_ok_zero : CLEANUP_STAT_OK = 0.
Hypothesis stat_write_nonzero : CLEANUP_STAT_WRITE <> 0.

Lemma finish_file_status k info :
  (all_succeed k /\ status (mail_stream_finish_file k info) = CLEANUP_STAT_OK) \/
  (~ all_succeed k /\ status (mail_stream_finish_file k info) = CLEANUP_STAT_WRITE).
Proof.
  unfold mail_stream_finish_file, flush_chmod_sync, all_succeed.
  destruct (Z.eqb_spec (vstream_fflush k) 0) as [Hf|Hf];
    destruct (Z.eqb_spec (fchmod k) 0) as [Hc|Hc];
    destruct (Z.eqb_spec (fsync k) 0) as [Hs|Hs];
    destruct (Z.eqb_spec (close k) 0) as [Hx|Hx];
    destruct HAS_FSYNC; cbn;
    first [ left; split; [intuition congruence | congruence]
          | right; split; [intuition congruence | reflexivity] ].
Qed.

Lemma finish_file_mode k info :
  final_mode (mail_stream_finish_file k info) =
    if (vstream_fflush k =? 0) && (fchmod k =? 0) then mode_0700
    else file_mode info.
Proof.
  unfold mail_stream_finish_file, flush_chmod_sync.
  destruct (vstream_fflush k =? 0), (fchmod k =? 0), HAS_FSYNC,
    (fsync k =? 0); reflexivity.
Qed.

(** C2 (as the code has it): a queue file created without execute bits
    carries them after finishing exactly when the flush and the chmod
    succeeded, whatever fsync and close answer afterwards; the status is
    success when all calls succeed and the write-error status as soon as
    the flush, the chmod, the (build-time optional) fsync or the close
    fails; and the wakeup trigger is sent exactly when the status is
    success. *)
Theorem finish_file_commit_marker (k : kernel) (info : MAIL_STREAM)
    (Hnew : has_execute_bits (file_mode info) = false) :
  let r := mail_stream_finish_file k info in
  (has_execute_bits (final_mode r) = true <->
     vstream_fflush k = 0 /\ fchmod k = 0) /\
  (all_succeed k -> status r = CLEANUP_STAT_OK) /\
  (~ all_succeed k -> status r = CLEANUP_STAT_WRITE) /\
  (status r = CLEANUP_STAT_OK -> has_execute_bits (final_mode r) = true) /\
  (triggers r = [(class info, service info)] <-> status r = CLEANUP_STAT_OK) /\
  (triggers r = [] <-> status r <> CLEANUP_STAT_OK).
Proof.
  intros r. subst r.
  assert (Hmode := finish_file_mode k info).
  assert (Hstat := finish_file_status k info).
  assert (Hexec : has_execute_bits (final_mode (mail_stream_finish_file k info)) = true <->
                  vstream_fflush k = 0 /\ fchmod k = 0).
  { rewrite Hmode.
    destruct (Z.eqb_spec (vstream_fflush k) 0), (Z.eqb_spec (fchmod k) 0); cbn [andb];
      rewrite ?Hnew; split; try done; intros [? ?]; done. }
  assert (Hwrite_ne : CLEANUP_STAT_WRITE <> CLEANUP_STAT_OK) by congruence.
  split; [exact Hexec|].
  split; [intros Hall; destruct Hstat as [[_ ?]|[? _]]; done|].
  split; [intros Hnot; destruct Hstat as [[? _]|[_ ?]]; done|].
  split.
  { intros Hok. apply Hexec. destruct Hstat as [[(?&?&_) _]|[_ Hw]]; [done|congruence]. }
  unfold mail_stream_finish_file in *.
  destruct (flush_chmod_sync k (file_mode info)) as [failed mode]; cbn in *.
  set (st := if negb (close k =? 0) then CLEANUP_STAT_WRITE
             else if failed then CLEANUP_STAT_WRITE else 0) in *.
  destruct (Z.eqb_spec st CLEANUP_STAT_OK); split; split; done.
Qed.

End FinishFile.

(** The kernel of the counterexample: the data reaches the file and the
    mode is changed, but fsync then reports an error. *)
Definition fsync_fails : kernel :=
  {| vstream_fflush := 0; fchmod := 0; fsync := -1; close := 0 |}.

Definition new_queue_file : MAIL_STREAM :=
  {| file_mode := mode_0600; class := "public"; service := "qmgr" |}.

(** C2 (as stated) fails: with CLEANUP_STAT_WRITE = 2 and fsync built in,
    a failing fsync leaves the file with its execute bits although the
    finalisation reports a write error. *)
Lemma finish_file_marker_without_success :
  let r := mail_stream_finish_file 0 2 true fsync_fails new_queue_file in
  has_execute_bits (file_mode new_queue_file) = false /\
  has_execute_bits (final_mode r) = true /\
  status r = 2 /\ status r <> 0 /\ triggers r = [].
Proof. cbv. repeat split; discriminate. Qed.

Lemma finish_file_commit_marker_witness :
  let r := mail_stream_finish_file 0 2 true fsync_fails new_queue_file in
  (has_execute_bits (final_mode r) = true <->
     vstream_fflush fsync_fails = 0 /\ fchmod fsync_fails = 0) /\
  (all_succeed true fsync_fails -> status r = 0) /\
  (~ all_succeed true fsync_fails -> status r = 2) /\
  (status r = 0 -> has_execute_bits (final_mode r) = true) /\
  (triggers r = [("public"%string, "qmgr"%string)] <-> status r = 0) /\
  (triggers r = [] <-> status r <> 0).
Proof.
  apply (finish_file_commit_marker 0 2 true); [reflexivity | lia | reflexivity].
Defined.

End MailStream.

(** ** global/mail_stream.c: opening, finishing and cleaning up *)

Module MailStreamHandle.

(** The two functions that info->close can point to, and the two that
    info->finish can point to. *)
Inductive closer : Type := vstream_fclose | vstream_pclose.
Inductive finisher : Type := mail_stream_finish_file | mail_stream_finish_ipc.

(** MAIL_STREAM; a stream is known by its descriptor, and a null
    pointer is [None]. *)
Record MAIL_STREAM : Type := {
  stream : option Z;
  id : option string;
  finish : finisher;
  close : closer;
  class : option string;
  service : option string
}.

Inductive event : Type :=
| EvQueueEnter (queue : string) (mode : Z)
| EvConnectWait (class name : string)
| EvPopen (command : string)
| EvMsgWarn (what : string)
| EvSleep (seconds : Z)
| EvMailScan (stream : Z)
| EvFflush (stream : Z)
| EvFchmod (stream : Z) (mode : Z)
| EvFsync (stream : Z)
| EvClose (how : closer) (stream : Z)
| EvMailTrigger (class service : option string).

(** The library around the module: mail_queue_enter() answers with a
    stream and the base name of its path, mail_connect_wait() with a
    stream, vstream_popen() with a stream or a null pointer at each
    attempt, mail_scan() with the number of items converted and the
    item. *)
Record world : Type := {
  mail_queue_enter : string -> Z -> Z * string;
  mail_connect_wait : string -> string -> Z;
  vstream_popen : nat -> string -> option Z;
  mail_scan_id : Z -> Z * string;
  mail_scan_status : Z -> Z * Z
}.

Definition is_sleep (e : event) : bool :=
  match e with EvSleep _ => true | _ => false end.

(** The streams closed in a run, with the function that closed each. *)
Definition closes (t : list event) : list (closer * Z) :=
  omap (fun e => match e with EvClose how fp => Some (how, fp) | _ => None end) t.

Definition wipe_stream (info : MAIL_STREAM) : MAIL_STREAM :=
  {| stream := None; id := id info; finish := finish info; close := close info;
     class := class info; service := service info |}.

(** mail_stream_cleanup - clean up after success or failure;
    FREE_AND_WIPE calls info->close only on a stream that is not null. *)
Definition mail_stream_cleanup (info : MAIL_STREAM) : list event :=
  match stream info with
  | Some fp => [EvClose (close info) fp]
  | None => []
  end.

Section Finish.

Variable w : world.
Variables CLEANUP_STAT_OK CLEANUP_STAT_WRITE : Z.
Variable HAS_FSYNC : bool.

(** mail_stream_finish_file - finish file mail stream, with the calls
    it makes; a null stream is a crash. *)
Definition finish_file (k : MailStream.kernel) (info : MAIL_STREAM)
    : option (Z * list event) :=
  match stream info with
  | None => None
  | Some fp =>
      let status := 0 in
      let '(failed, t_sync) :=
        if negb (MailStream.vstream_fflush k =? 0) then (true, [])
        else if negb (MailStream.fchmod k =? 0)
        then (true, [EvFchmod fp MailStream.mode_0700])
        else if HAS_FSYNC
        then (negb (MailStream.fsync k =? 0),
              [EvFchmod fp MailStream.mode_0700; EvFsync fp])
        else (false, [EvFchmod fp MailStream.mode_0700]) in
      let status := if failed then CLEANUP_STAT_WRITE else status in
      let status := if negb (MailStream.close k =? 0)
                    then CLEANUP_STAT_WRITE else status in
      let t_close := [EvClose (close info) fp] in
      let info := wipe_stream info in
      let t_trigger := if status =? CLEANUP_STAT_OK
                       then [EvMailTrigger (class info) (service info)]
                       else [] in
      Some (status,
            EvFflush fp :: t_sync ++ t_close ++ t_trigger ++
            mail_stream_cleanup info)
  end.

(** mail_stream_finish_ipc - finish IPC mail stream *)
Definition finish_ipc (info : MAIL_STREAM) : option (Z * list event) :=
  match stream info with
  | None => None
  | Some fp =>
      let status := CLEANUP_STAT_WRITE in
      let '(items, value) := mail_scan_status w fp in
      let status := if negb (items =? 1) then CLEANUP_STAT_WRITE else value in
      Some (status, EvMailScan fp :: mail_stream_cleanup info)
  end.

(** mail_stream_finish - finish action *)
Definition mail_stream_finish (k : MailStream.kernel) (info : MAIL_STREAM)
    : option (Z * list event) :=
  match finish info with
  | mail_stream_finish_file => finish_file k info
  | mail_stream_finish_ipc => finish_ipc info
  end.

(** mail_stream_file - destination is file; the "open" line that is
    logged only when msg_verbose is set is left out. *)
Definition mail_stream_file (queue class service : string)
    : MAIL_STREAM * list event :=
  let '(fp, path) := mail_queue_enter w queue MailStream.mode_0600 in
  ({| stream := Some fp; id := Some path; finish := mail_stream_finish_file;
      close := vstream_fclose; class := Some class; service := Some service |},
   [EvQueueEnter queue MailStream.mode_0600]).

(** mail_stream_service - destination is service *)
Definition mail_stream_service (class name : string)
    : option MAIL_STREAM * list event :=
  let fp := mail_connect_wait w class name in
  let '(items, id_buf) := mail_scan_id w fp in
  if negb (items =? 1) then
    (None, [EvConnectWait class name; EvMailScan fp; EvClose vstream_fclose fp])
  else
    (Some {| stream := Some fp; id := Some id_buf;
             finish := mail_stream_finish_ipc; close := vstream_fclose;
             class := None; service := None |},
     [EvConnectWait class name; EvMailScan fp]).

(** The [while ((stream = vstream_popen(...)) == 0)] loop, which ends
    only when a fork succeeds; [fuel] bounds the failures waited for. *)
Fixpoint popen_loop (fuel attempt : nat) (command : string)
    : option (Z * list event) :=
  match vstream_popen w attempt command with
  | Some fp => Some (fp, [EvPopen command])
  | None =>
      match fuel with
      | O => None
      | S fuel' =>
          match popen_loop fuel' (S attempt) command with
          | Some (fp, t) =>
              Some (fp, EvPopen command :: EvMsgWarn "fork" :: EvSleep 10 :: t)
          | None => None
          end
      end
  end.

(** mail_stream_command - destination is command *)
Definition mail_stream_command (fuel : nat) (command : string)
    : option (option MAIL_STREAM * list event) :=
  match popen_loop fuel 0 command with
  | None => None
  | Some (fp, t) =>
      let '(items, id_buf) := mail_scan_id w fp in
      if negb (items =? 1) then
        Some (None, t ++ [EvMailScan fp; EvClose vstream_pclose fp])
      else
        Some (Some {| stream := Some fp; id := Some id_buf;
                      finish := mail_stream_finish_ipc; close := vstream_pclose;
                      class := None; service := None |},
              t ++ [EvMailScan fp])
  end.

(** The handle came from one of the three routines that open a mail
    stream, which opened the stream [fp] and closes it with [how]. *)
Definition opened (info : MAIL_STREAM) (how : closer) (fp : Z) : Prop :=
  (exists queue class service, (mail_stream_file queue class service).1 = info /\
     how = vstream_fclose /\ fp = (mail_queue_enter w queue MailStream.mode_0600).1) \/
  (exists class name, (mail_stream_service class name).1 = Some info /\
     how = vstream_fclose /\ fp = mail_connect_wait w class name) \/
  (exists fuel command t, mail_stream_command fuel command = Some (Some info, t) /\
     how = vstream_pclose /\
     exists t0, popen_loop fuel 0 command = Some (fp, t0)).

Lemma opened_handle info how fp :
  opened info how fp -> stream info = Some fp /\ close info = how.
Proof.
  intros [(queue & class & service & <- & -> & ->)|
          [(class & name & Hopen & -> & ->)|
           (fuel & command & t & Hopen & -> & t0 & Hloop)]].
  - unfold mail_stream_file. by destruct (mail_queue_enter w queue _).
  - unfold mail_stream_service in Hopen.
    destruct (mail_scan_id w _) as [items id_buf].
    destruct (negb (items =? 1)); [done|]. by injection Hopen as <-.
  - unfold mail_stream_command in Hopen. rewrite Hloop in Hopen.
    destruct (mail_scan_id w fp) as [items id_buf].
    destruct (negb (items =? 1)); [done|]. by injection Hopen as <- _.
Qed.

Lemma finish_closes_once k info fp :
  stream info = Some fp ->
  exists status t,
    mail_stream_finish k info = Some (status, t) /\
    closes t = [(close info, fp)].
Proof.
  intros Hfp. unfold mail_stream_finish, finish_file, finish_ipc.
  rewrite Hfp. destruct (finish info).
  - destruct (negb (MailStream.vstream_fflush k =? 0));
      [|destruct (negb (MailStream.fchmod k =? 0)); [|destruct HAS_FSYNC]];
      cbv zeta beta iota; eexists _, _; (split; [reflexivity|]);
      destruct (_ =? CLEANUP_STAT_OK); reflexivity.
  - destruct (mail_scan_status w fp) as [items value].
    eexists _, _. split; [reflexivity|]. unfold mail_stream_cleanup.
    by rewrite Hfp.
Qed.

(** X21: a stream opened by mail_stream_file, mail_stream_service or
    mail_stream_command is closed exactly once, by the function that
    goes with the way it was opened (vstream_pclose for a command,
    vstream_fclose otherwise): once by mail_stream_cleanup, and once by
    mail_stream_finish, which always returns, whatever the calls it
    makes answer; the routines that open close nothing when they give a
    handle. *)
Theorem mail_stream_closes_once info how fp (Hopened : opened info how fp) :
  closes (mail_stream_cleanup info) = [(how, fp)] /\
  (forall k, exists status t,
      mail_stream_finish k info = Some (status, t) /\
      closes t = [(how, fp)]) /\
  (forall queue class service,
      closes (mail_stream_file queue class service).2 = []) /\
  (forall class name info',
      (mail_stream_service class name).1 = Some info' ->
      closes (mail_stream_service class name).2 = []) /\
  (forall fuel command info' t,
      mail_stream_command fuel command = Some (Some info', t) ->
      closes t = []).
Proof.
  destruct (opened_handle _ _ _ Hopened) as [Hfp Hclose].
  split; [|split; [|split; [|split]]].
  - unfold mail_stream_cleanup. by rewrite Hfp, Hclose.
  - intros k. rewrite <- Hclose. by apply finish_closes_once.
  - intros queue class service. unfold mail_stream_file.
    by destruct (mail_queue_enter w queue _).
  - intros class name info'. unfold mail_stream_service.
    destruct (mail_scan_id w _) as [items id_buf].
    by destruct (negb (items =? 1)).
  - intros fuel command info' t. unfold mail_stream_command.
    destruct (popen_loop fuel 0 command) as [[fp0 t0]|] eqn:Hloop; [|done].
    destruct (mail_scan_id w fp0) as [items id_buf].
    destruct (negb (items =? 1)); [done|]. intros [= _ <-].
    unfold closes. rewrite omap_app. cbn. rewrite app_nil_r.
    clear -Hloop. revert t0 Hloop. generalize 0%nat.
    induction fuel as [|fuel IH]; intros attempt t0; cbn [popen_loop];
      destruct (vstream_popen w attempt command) as [fp1|];
      try (by intros [= _ <-]).
    destruct (popen_loop fuel (S attempt) command) as [[fp2 t2]|] eqn:Hrest; [|done].
    intros [= -> <-]. cbn. by apply (IH (S attempt)).
Qed.

(** The loop ends at the first attempt at which the fork succeeds. *)
Lemma popen_loop_succeeds fuel attempt n command fp :
  (forall m, (m < n)%nat -> vstream_popen w (attempt + m) command = None) ->
  vstream_popen w (attempt + n) command = Some fp ->
  (n <= fuel)%nat ->
  popen_loop fuel attempt command =
    Some (fp, concat (replicate n [EvPopen command; EvMsgWarn "fork"; EvSleep 10])
              ++ [EvPopen command]).
Proof.
  revert fuel attempt. induction n as [|n IH]; intros fuel attempt Hfail Hok Hfuel.
  - rewrite Nat.add_0_r in Hok. destruct fuel; cbn [popen_loop]; by rewrite Hok.
  - destruct fuel as [|fuel]; [lia|]. cbn [popen_loop].
    pose proof (Hfail 0%nat ltac:(lia)) as H0. rewrite Nat.add_0_r in H0.
    rewrite H0, (IH fuel (S attempt)); [done| | |lia].
    + intros m Hm. replace (S attempt + m)%nat with (attempt + S m)%nat by lia.
      apply Hfail. lia.
    + by replace (S attempt + n)%nat with (attempt + S n)%nat by lia.
Qed.

(** The calls of the loop in mail_stream_command when the first [n]
    forks fail: each failed vstream_popen() is followed by the warning
    and by a sleep of 10 seconds, and the fork that succeeds ends the
    loop. *)
Definition attempts (n : nat) (command : string) : list event :=
  concat (replicate n [EvPopen command; EvMsgWarn "fork"; EvSleep 10])
  ++ [EvPopen command].

Definition is_warning (e : event) : bool :=
  match e with EvMsgWarn _ => true | _ => false end.

Lemma attempts_counts n command tail :
  List.filter is_sleep tail = [] -> List.filter is_warning tail = [] ->
  List.filter is_sleep (attempts n command ++ tail) = replicate n (EvSleep 10) /\
  List.filter is_warning (attempts n command ++ tail)
    = replicate n (EvMsgWarn "fork") /\
  closes (attempts n command ++ tail) = closes tail.
Proof.
  intros Hsleep Hwarn. unfold attempts, closes.
  rewrite !List.filter_app, !omap_app, Hsleep, Hwarn.
  cbn [List.filter is_sleep is_warning omap]. rewrite !app_nil_r.
  induction n as [|n (IH1 & IH2 & IH3)]; [done|]. cbn.
  rewrite IH1, IH2. split; [done|]. split; [done|].
  cbn in IH3. exact IH3.
Qed.

(** X22: the handshake decides what the routines that open a stream to
    a service or to a command return.  When mail_scan() does not
    convert exactly one item the result is a null pointer and the
    stream just opened is closed, with vstream_fclose for a service and
    vstream_pclose for a command; otherwise the handle holds the open
    stream, the queue id read, the IPC finish routine and no class or
    service.  mail_stream_command returns once a fork succeeds: every
    fork that failed is followed by one warning and one sleep of 10
    seconds, the fork that succeeds by the handshake, and nothing else
    is done. *)
Theorem mail_stream_handshake :
  (forall class name,
      let fp := mail_connect_wait w class name in
      if (mail_scan_id w fp).1 =? 1 then
        mail_stream_service class name =
          (Some {| stream := Some fp; id := Some (mail_scan_id w fp).2;
                   finish := mail_stream_finish_ipc; close := vstream_fclose;
                   class := None; service := None |},
           [EvConnectWait class name; EvMailScan fp])
      else
        (mail_stream_service class name).1 = None /\
        closes (mail_stream_service class name).2 = [(vstream_fclose, fp)]) /\
  (forall fuel n command fp,
      (forall m, (m < n)%nat -> vstream_popen w m command = None) ->
      vstream_popen w n command = Some fp ->
      (n <= fuel)%nat ->
      exists t,
        List.filter is_sleep t = replicate n (EvSleep 10) /\
        List.filter is_warning t = replicate n (EvMsgWarn "fork") /\
        if (mail_scan_id w fp).1 =? 1 then
          t = attempts n command ++ [EvMailScan fp] /\
          mail_stream_command fuel command =
            Some (Some {| stream := Some fp; id := Some (mail_scan_id w fp).2;
                          finish := mail_stream_finish_ipc;
                          close := vstream_pclose;
                          class := None; service := None |}, t) /\
          closes t = []
        else
          t = attempts n command ++ [EvMailScan fp; EvClose vstream_pclose fp] /\
          mail_stream_command fuel command = Some (None, t) /\
          closes t = [(vstream_pclose, fp)]).
Proof.
  split.
  - intros class name fp. unfold mail_stream_service. fold fp.
    destruct (mail_scan_id w fp) as [items id_buf]. cbn [fst snd].
    by destruct (items =? 1).
  - intros fuel n command fp Hfail Hok Hfuel.
    pose proof (popen_loop_succeeds fuel 0 n command fp Hfail Hok Hfuel) as Hloop.
    fold (attempts n command) in Hloop.
    unfold mail_stream_command. rewrite Hloop.
    destruct (mail_scan_id w fp) as [items id_buf]. cbn [fst snd].
    destruct (items =? 1); cbn [negb].
    + destruct (attempts_counts n command [EvMailScan fp] eq_refl eq_refl)
        as (Hs & Hw & Hc).
      eexists. split; [exact Hs|]. split; [exact Hw|]. by rewrite Hc.
    + destruct (attempts_counts n command
                  [EvMailScan fp; EvClose vstream_pclose fp] eq_refl eq_refl)
        as (Hs & Hw & Hc).
      eexists. split; [exact Hs|]. split; [exact Hw|]. by rewrite Hc.
Qed.

(** X23: finishing a handle obtained from mail_stream_file gives the
    status that mail_stream_finish_file computes for a queue file of
    mode 0600, which has no execute bits, and it triggers the class and
    service given when the stream was opened exactly when that status
    is success; the file is flushed first, and the mode is changed only
    after a successful flush.  Finishing an IPC handle gives the status
    that the peer sent when exactly one item was received and the
    write-error status otherwise, and triggers nothing. *)
Theorem mail_stream_finish_status k :
  (forall queue class service,
      let info := (mail_stream_file queue class service).1 in
      let fp := (mail_queue_enter w queue MailStream.mode_0600).1 in
      let r := MailStream.mail_stream_finish_file CLEANUP_STAT_OK
                 CLEANUP_STAT_WRITE HAS_FSYNC k
                 {| MailStream.file_mode := MailStream.mode_0600;
                    MailStream.class := class; MailStream.service := service |} in
      MailStream.has_execute_bits MailStream.mode_0600 = false /\
      exists t,
        mail_stream_finish k info = Some (MailStream.status r, EvFflush fp :: t) /\
        List.filter (fun e => match e with EvMailTrigger _ _ => true | _ => false end) t
          = map (fun cs => EvMailTrigger (Some cs.1) (Some cs.2))
                (MailStream.triggers r) /\
        (MailStream.vstream_fflush k <> 0 ->
         forall mode, EvFchmod fp mode ∉ t)) /\
  (forall info fp,
      finish info = mail_stream_finish_ipc -> stream info = Some fp ->
      mail_stream_finish k info =
        Some (if (mail_scan_status w fp).1 =? 1 then (mail_scan_status w fp).2
              else CLEANUP_STAT_WRITE,
              [EvMailScan fp; EvClose (close info) fp])).
Proof.
  split.
  - intros queue class service. cbv zeta. split; [reflexivity|].
    unfold mail_stream_file.
    destruct (mail_queue_enter w queue MailStream.mode_0600) as [fp path].
    cbn [fst snd]. unfold mail_stream_finish, finish_file. cbn [finish stream].
    unfold MailStream.mail_stream_finish_file, MailStream.flush_chmod_sync.
    destruct (Z.eqb_spec (MailStream.vstream_fflush k) 0) as [Hf|Hf]; cbn [negb];
      [destruct (negb (MailStream.fchmod k =? 0)); [|destruct HAS_FSYNC; cbn [andb];
         [destruct (negb (MailStream.fsync k =? 0))|]]|];
      cbv zeta beta iota; cbn [MailStream.status MailStream.triggers];
      eexists; (split; [reflexivity|]);
      (split; [destruct (_ =? CLEANUP_STAT_OK); reflexivity|]); try done.
    intros _ mode Hin. destruct (_ =? CLEANUP_STAT_OK); cbn in Hin;
      repeat (apply elem_of_cons in Hin as [Hin|Hin]; [discriminate|]);
      by apply elem_of_nil in Hin.
  - intros info fp Hfinish Hfp. unfold mail_stream_finish, finish_ipc.
    rewrite Hfinish, Hfp. unfold mail_stream_cleanup. rewrite Hfp.
    destruct (mail_scan_status w fp) as [items value]. cbn [fst snd].
    by destruct (items =? 1).
Qed.

End Finish.

(** A system where every queue file opens on descriptor 5, the first
    two forks fail, and every handshake gives the queue id "4F2A1". *)
Definition busy_host : world :=
  {| mail_queue_enter := fun _ _ => (5, "4F2A1"%string);
     mail_connect_wait := fun _ _ => 6;
     vstream_popen := fun attempt _ => if (attempt <? 2)%nat then None else Some 7;
     mail_scan_id := fun _ => (1, "4F2A1"%string);
     mail_scan_status := fun _ => (1, 0) |}.

Definition postdrop_handle : MAIL_STREAM :=
  {| stream := Some 7; id := Some "4F2A1"%string;
     finish := mail_stream_finish_ipc; close := vstream_pclose;
     class := None; service := None |}.

Lemma mail_stream_closes_once_witness :
  closes (mail_stream_cleanup postdrop_handle) = [(vstream_pclose, 7)] /\
  (forall k, exists status t,
      mail_stream_finish busy_host 0 2 true k postdrop_handle = Some (status, t) /\
      closes t = [(vstream_pclose, 7)]) /\
  (forall queue class service,
      closes (mail_stream_file busy_host queue class service).2 = []) /\
  (forall class name info',
      (mail_stream_service busy_host class name).1 = Some info' ->
      closes (mail_stream_service busy_host class name).2 = []) /\
  (forall fuel command info' t,
      mail_stream_command busy_host fuel command = Some (Some info', t) ->
      closes t = []).
Proof.
  apply (mail_stream_closes_once busy_host 0 2 true postdrop_handle vstream_pclose 7).
  right. right. exists 2%nat, "postdrop"%string. eexists.
  split; [vm_compute; reflexivity|]. split; [reflexivity|].
  eexists. vm_compute. reflexivity.
Defined.

End MailStreamHandle.

(** ** C library and table lookups shared by the address mappers *)

(** tolower() in the C locale. *)
Definition tolower (c : ascii) : ascii :=
  let n := nat_of_ascii c in
  if (65 <=? n)%nat && (n <=? 90)%nat then ascii_of_nat (n + 32) else c.

Definition uchar (c : ascii) : Z := Z.of_nat (nat_of_ascii c).

(** strcasecmp(): difference of the first pair of bytes that differ
    after case folding, the terminating null byte included. *)
Fixpoint strcasecmp (s1 s2 : string) : Z :=
  match s1, s2 with
  | EmptyString, EmptyString => 0
  | EmptyString, String c2 _ => 0 - uchar (tolower c2)
  | String c1 _, EmptyString => uchar (tolower c1)
  | String c1 r1, String c2 r2 =>
      if uchar (tolower c1) =? uchar (tolower c2) then strcasecmp r1 r2
      else uchar (tolower c1) - uchar (tolower c2)
  end.

(** The three outcomes of mail_addr_map(): a non-null ARGV with at least
    one address, a null result with dict_errno clear, a null result with
    dict_errno set. *)
Inductive lookup : Type :=
| Found (first : string) (rest : list string)
| NotFound
| LookupError.

Lemma strcasecmp_refl s : strcasecmp s s = 0.
Proof. induction s as [|c s IH]; cbn; [done|]. by rewrite Z.eqb_refl. Qed.

(** ** cleanup/cleanup_map11.c *)

Module CleanupMap11.

Inductive event : Type :=
| EvLookup (lhs : string) (res : lookup)
| EvWarnMultiValued (lhs : string)
| EvWarnLookupProblem (lhs : string)
| EvWarnNesting (lhs : string).

Definition is_lookup (e : event) : bool :=
  match e with EvLookup _ _ => true | _ => false end.

Definition lookups (t : list event) : list event := List.filter is_lookup t.

Definition MAX_RECURSION : nat := 10.

Section Maps.

(** mail_addr_map() for the given maps and propagate flag, and the
    write-error bit of cleanup_user.h. *)
Variable mail_addr_map : string -> lookup.
Variable CLEANUP_STAT_WRITE : Z.

(** The [for (count = 0; count < MAX_RECURSION; count++)] loop, by the
    number [n] of iterations that remain; the result is the final
    address buffer, the final cleanup_errs and the trace from here on. *)
Fixpoint map11_loop (n : nat) (addr : string) (cleanup_errs : Z)
    : string * Z * list event :=
  match n with
  | O => (addr, cleanup_errs, [EvWarnNesting addr])
  | S n' =>
      match mail_addr_map addr with
      | Found first rest =>
          let warn := match rest with
                      | [] => []
                      | _ :: _ => [EvWarnMultiValued addr]
                      end in
          let saved_addr := addr in
          let expand_to_self := strcasecmp saved_addr first =? 0 in
          if expand_to_self then
            (first, cleanup_errs,
             EvLookup addr (Found first rest) :: warn)
          else
            let '(a, e, t) := map11_loop n' first cleanup_errs in
            (a, e, EvLookup addr (Found first rest) :: warn ++ t)
      | LookupError =>
          (addr, Z.lor cleanup_errs CLEANUP_STAT_WRITE,
           [EvLookup addr LookupError; EvWarnLookupProblem addr])
      | NotFound =>
          (addr, cleanup_errs, [EvLookup addr NotFound])
      end
  end.

(** cleanup_map11_external - one-to-one table lookups *)
Definition cleanup_map11_external (addr : string) (cleanup_errs : Z)
    : string * Z * list event :=
  map11_loop MAX_RECURSION addr cleanup_errs.

(** How a run can end, read off the last lookup of its trace. *)
Definition ends_self_match (addr : string) (t : list event) : Prop :=
  exists lhs first rest,
    last (lookups t) = Some (EvLookup lhs (Found first rest)) /\
    strcasecmp lhs first = 0 /\ addr = first.

Definition ends_no_match (addr : string) (t : list event) : Prop :=
  last (lookups t) = Some (EvLookup addr NotFound).

Definition ends_flagged (errs0 : Z) (addr : string) (errs : Z)
    (t : list event) : Prop :=
  last (lookups t) = Some (EvLookup addr LookupError) /\
  errs = Z.lor errs0 CLEANUP_STAT_WRITE.

Definition rewrites_away (e : event) : Prop :=
  exists lhs first rest,
    e = EvLookup lhs (Found first rest) /\ strcasecmp lhs first <> 0.

(** The first address of the answer recorded last; [addr] when nothing
    was looked up. *)
Definition last_result (addr : string) (l : list event) : string :=
  match last l with
  | Some (EvLookup _ (Found first _)) => first
  | _ => addr
  end.

(** The [n] iterations that remained from [addr0] were used up: each
    lookup rewrote the address to a different one, the address is what
    the last of them gave, and the warning about it ends the run. *)
Definition limit_reached (n : nat) (addr0 : string) (errs0 : Z) (addr : string)
    (errs : Z) (t : list event) : Prop :=
  length (lookups t) = n /\ Forall rewrites_away (lookups t) /\
  addr = last_result addr0 (lookups t) /\
  last t = Some (EvWarnNesting addr) /\ errs = errs0.

Definition ends_at_limit (n : nat) (errs0 : Z) (addr : string) (errs : Z)
    (t : list event) : Prop :=
  length (lookups t) = n /\ Forall rewrites_away (lookups t) /\
  (exists lhs first rest,
      last (lookups t) = Some (EvLookup lhs (Found first rest)) /\
      addr = first) /\
  last t = Some (EvWarnNesting addr) /\ errs = errs0.

Lemma lookups_cons_lookup lhs res t :
  lookups (EvLookup lhs res :: t) = EvLookup lhs res :: lookups t.
Proof. reflexivity. Qed.

Lemma lookups_multi_warning (rest : list string) addr t :
  lookups (match rest with [] => [] | _ :: _ => [EvWarnMultiValued addr] end ++ t)
  = lookups t.
Proof. by destruct rest. Qed.

Lemma last_cons_nonempty {A} (x : A) (l : list A) (y : A) :
  last l = Some y -> last (x :: l) = Some y.
Proof. destruct l; [done|]. by cbn. Qed.

Lemma map11_loop_ends n addr0 errs0 :
  let '(a, e, t) := map11_loop n addr0 errs0 in
  (length (lookups t) <= n)%nat /\
  ((ends_self_match a t /\ e = errs0) \/
   (ends_no_match a t /\ e = errs0) \/
   ends_flagged errs0 a e t \/
   limit_reached n addr0 errs0 a e t).
Proof.
  revert addr0. induction n as [|n IH]; intros addr0; cbn [map11_loop].
  - split; [cbn; lia|]. do 3 right. repeat split. constructor.
  - destruct (mail_addr_map addr0) as [first rest| |] eqn:Hmap.
    + destruct (Z.eqb_spec (strcasecmp addr0 first) 0) as [Hself|Hother].
      * rewrite lookups_cons_lookup.
        replace (lookups _) with (@nil event) by (by destruct rest).
        split; [cbn; lia|]. left. split; [|done].
        exists addr0, first, rest. by rewrite lookups_cons_lookup;
          replace (lookups _) with (@nil event) by (by destruct rest).
      * specialize (IH first).
        destruct (map11_loop n first errs0) as [[a e] t].
        destruct IH as [Hlen Hend].
        rewrite lookups_cons_lookup, lookups_multi_warning.
        split; [cbn; lia|].
        destruct Hend as [[Hs ->]|[[Hn ->]|[Hf|Hl]]].
        -- left. split; [|done]. destruct Hs as (lhs & f & r & Hlast & Hcmp & ->).
           exists lhs, f, r. rewrite lookups_cons_lookup, lookups_multi_warning.
           split; [by apply last_cons_nonempty|done].
        -- right; left. split; [|done]. unfold ends_no_match.
           rewrite lookups_cons_lookup, lookups_multi_warning.
           by apply last_cons_nonempty.
        -- right; right; left. destruct Hf as [Hlast ->]. split; [|done].
           rewrite lookups_cons_lookup, lookups_multi_warning.
           by apply last_cons_nonempty.
        -- do 3 right. destruct Hl as (Hn & Hall & Ha & Hlast & ->).
           unfold limit_reached.
           rewrite lookups_cons_lookup, lookups_multi_warning.
           split; [cbn; by rewrite Hn|].
           split; [constructor; [|done]; by exists addr0, first, rest|].
           split; [|split; [|done]].
           ++ rewrite Ha. unfold last_result.
              destruct (lookups t) as [|e0 l] eqn:Hl; [done|].
              change (last (EvLookup addr0 (Found first rest) :: e0 :: l))
                with (last (e0 :: l)).
              destruct (last (e0 :: l)) as [ev|] eqn:Hev; [|by apply last_None in Hev].
              assert (Hin : ev ∈ e0 :: l).
              { apply last_Some in Hev as [l' ->]. apply elem_of_app. right. by left. }
              rewrite Forall_forall in Hall.
              by destruct (Hall _ Hin) as (? & ? & ? & -> & _).
           ++ apply last_cons_nonempty.
              destruct rest; [done|]. by apply last_cons_nonempty.
    + split; [cbn; lia|]. right; left. by split.
    + split; [cbn; lia|]. right; right; left. by split.
Qed.

(** After a positive number of lookups that each rewrote the address,
    the address is the first one of the last answer. *)
Lemma limit_reached_last n addr0 errs0 a e t :
  limit_reached (S n) addr0 errs0 a e t -> ends_at_limit (S n) errs0 a e t.
Proof.
  intros (Hn & Hall & Ha & Hlast & He). repeat split; try done.
  unfold last_result in Ha.
  destruct (last (lookups t)) as [ev|] eqn:Hl.
  - assert (Hin : ev ∈ lookups t).
    { apply last_Some in Hl as [l' ->]. apply elem_of_app. right. by left. }
    rewrite Forall_forall in Hall.
    destruct (Hall _ Hin) as (lhs & first & rest & -> & _).
    by exists lhs, first, rest.
  - apply last_None in Hl. by rewrite Hl in Hn.
Qed.

(** C4 (as the code has it): the loop of cleanup_map11_external makes at
    most 10 lookups and always returns; it returns either after a lookup
    whose first result matches the looked-up address case-insensitively
    (the address then is that result), or after a lookup that found
    nothing (the address is unchanged), or after a lookup error (the
    write-error bit is or-ed into cleanup_errs and the address is the one
    whose lookup failed), or, after 10 lookups that each rewrote the
    address to a different one, with the first address of the last
    result, only a warning logged, as the last thing it does, and
    cleanup_errs unchanged. *)
Theorem cleanup_map11_external_ends (addr0 : string) (errs0 : Z) :
  let '(a, e, t) := cleanup_map11_external addr0 errs0 in
  (length (lookups t) <= 10)%nat /\
  ((ends_self_match a t /\ e = errs0) \/
   (ends_no_match a t /\ e = errs0) \/
   ends_flagged errs0 a e t \/
   ends_at_limit 10 errs0 a e t).
Proof.
  unfold cleanup_map11_external.
  pose proof (map11_loop_ends MAX_RECURSION addr0 errs0) as Hends.
  destruct (map11_loop MAX_RECURSION addr0 errs0) as [[a e] t].
  destruct Hends as [Hlen [?|[?|[?|Hlimit]]]]; (split; [done|]); auto.
  do 3 right. by apply (limit_reached_last 9 addr0).
Qed.

(** The lookups follow the table from [addr]: each one is on the
    address that the one before it gave first, is recorded with the
    answer of the table, and only an answer with an address is followed
    by another lookup. *)
Fixpoint chained (addr : string) (l : list event) : Prop :=
  match l with
  | [] => True
  | EvLookup lhs res :: l' =>
      lhs = addr /\ res = mail_addr_map addr /\
      match res with
      | Found first _ => chained first l'
      | NotFound | LookupError => l' = []
      end
  | _ :: _ => False
  end.

(** The first address of the last answer that had one. *)
Definition rewritten (addr : string) (l : list event) : string :=
  foldl (fun a e => match e with
                    | EvLookup _ (Found first _) => first
                    | _ => a
                    end) addr l.

Lemma elem_of_multi_warning (rest : list string) addr e :
  e ∈ match rest with [] => [] | _ :: _ => [EvWarnMultiValued addr] end <->
  e = EvWarnMultiValued addr /\ rest <> [].
Proof.
  destruct rest.
  - rewrite elem_of_nil. split; [done|]. by intros [_ ?].
  - rewrite list_elem_of_singleton. split; [by intros ->|by intros [? _]].
Qed.

Lemma map11_loop_chain n addr0 errs0 :
  let '(a, e, t) := map11_loop n addr0 errs0 in
  chained addr0 (lookups t) /\ a = rewritten addr0 (lookups t) /\
  (forall lhs, EvWarnMultiValued lhs ∈ t <->
               exists first r rest, EvLookup lhs (Found first (r :: rest)) ∈ t).
Proof.
  revert addr0. induction n as [|n IH]; intros addr0; cbn [map11_loop].
  { split; [done|]. split; [done|]. intros lhs. split.
    - intros Hin. apply list_elem_of_singleton in Hin. discriminate.
    - intros (? & ? & ? & Hin). apply list_elem_of_singleton in Hin. discriminate. }
  destruct (mail_addr_map addr0) as [first rest| |] eqn:Hmap.
  - destruct (strcasecmp addr0 first =? 0).
    + rewrite lookups_cons_lookup.
      replace (lookups _) with (@nil event) by (by destruct rest).
      cbn [chained rewritten foldl]. rewrite Hmap. split; [done|]. split; [done|].
      intros lhs. rewrite elem_of_cons, elem_of_multi_warning. split.
      * intros [?|[[= ->] Hne]]; [done|]. destruct rest as [|r rest]; [done|].
        exists first, r, rest. by left.
      * intros (f & r & rs & Hin). right.
        apply elem_of_cons in Hin as [[= -> -> <-]|Hin]; [done|].
        apply elem_of_multi_warning in Hin as [? _]. discriminate.
    + specialize (IH first). destruct (map11_loop n first errs0) as [[a e] t].
      destruct IH as (Hchain & Ha & Hwarn).
      rewrite lookups_cons_lookup, lookups_multi_warning.
      cbn [chained rewritten foldl]. rewrite Hmap.
      split; [done|]. split; [done|].
      intros lhs. rewrite elem_of_cons, elem_of_app, elem_of_multi_warning, Hwarn.
      split.
      * intros [?|[[[= ->] Hne]|(f & r & rs & Hin)]]; [done| |].
        -- destruct rest as [|r rest]; [done|]. exists first, r, rest. by left.
        -- exists f, r, rs. right. apply elem_of_app. by right.
      * intros (f & r & rs & Hin). right.
        apply elem_of_cons in Hin as [[= -> -> <-]|Hin]; [by left|].
        apply elem_of_app in Hin as [Hin|Hin].
        -- apply elem_of_multi_warning in Hin as [? _]. discriminate.
        -- right. by exists f, r, rs.
  - cbn. rewrite Hmap. split; [done|]. split; [done|]. intros lhs. split.
    + intros Hin. apply list_elem_of_singleton in Hin. discriminate.
    + intros (? & ? & ? & Hin). apply list_elem_of_singleton in Hin. discriminate.
  - cbn. rewrite Hmap. split; [done|]. split; [done|]. intros lhs. split.
    + intros Hin. apply elem_of_cons in Hin as [?|Hin]; [done|].
      apply list_elem_of_singleton in Hin. discriminate.
    + intros (? & ? & ? & Hin). apply elem_of_cons in Hin as [?|Hin]; [done|].
      apply list_elem_of_singleton in Hin. discriminate.
Qed.

(** X19: the lookups of cleanup_map11_external follow the table from
    the address it is given: each lookup is on the first address that
    the lookup before it returned, the other addresses of a
    multi-valued entry are never used, and no lookup follows one that
    found nothing or failed; the address returned is the first address
    of the last entry found, or the input when none was; and the
    multi-valued warning is logged for exactly the addresses whose
    entry has more than one value. *)
Theorem cleanup_map11_external_chain (addr0 : string) (errs0 : Z) :
  let '(a, e, t) := cleanup_map11_external addr0 errs0 in
  chained addr0 (lookups t) /\ a = rewritten addr0 (lookups t) /\
  (forall lhs, EvWarnMultiValued lhs ∈ t <->
               exists first r rest, EvLookup lhs (Found first (r :: rest)) ∈ t).
Proof. exact (map11_loop_chain MAX_RECURSION addr0 errs0). Qed.

(** The conversions between the internal and the external (quoted) form
    of an address, from quote_822_local.h. *)
Variables quote_822_local unquote_822_local : string -> string.

(** cleanup_map11_internal - rewrite address internal form *)
Definition cleanup_map11_internal (addr : string) (cleanup_errs : Z)
    : string * Z * list event :=
  let temp := quote_822_local addr in
  let '(temp, cleanup_errs, t) := cleanup_map11_external temp cleanup_errs in
  (unquote_822_local temp, cleanup_errs, t).

(** The token list of an address node and its conversions to and from
    the external form of the address, from tok822.h. *)
Variable TOK822 : Type.
Variable tok822_externalize : TOK822 -> string.
Variable tok822_scan : string -> TOK822.

(** cleanup_map11_tree - rewrite address node; the argument and the
    result are the token list at tree->head. *)
Definition cleanup_map11_tree (head : TOK822) (cleanup_errs : Z)
    : TOK822 * Z * list event :=
  let temp := tok822_externalize head in
  let '(temp, cleanup_errs, t) := cleanup_map11_external temp cleanup_errs in
  (tok822_scan temp, cleanup_errs, t).

(** What both wrappers do with the external form [ext] of their
    argument, [back] being the conversion of the result. *)
Definition wraps {A} (ext : string) (back : string -> A) (original : A)
    (errs0 : Z) (r : A * Z * list event) : Prop :=
  let '(a, e, t) := r in
  chained ext (lookups t) /\
  a = back (rewritten ext (lookups t)) /\
  (back ext = original ->
   (forall first rest, mail_addr_map ext <> Found first rest) ->
   a = original /\
   lookups t = [EvLookup ext (mail_addr_map ext)] /\
   e = match mail_addr_map ext with
       | LookupError => Z.lor errs0 CLEANUP_STAT_WRITE
       | _ => errs0
       end).

Lemma cleanup_map11_external_wraps {A} (ext : string) (back : string -> A)
    (original : A) (errs0 : Z) :
  wraps ext back original errs0
    (let '(temp, e, t) := cleanup_map11_external ext errs0 in (back temp, e, t)).
Proof.
  unfold wraps, cleanup_map11_external.
  pose proof (map11_loop_chain MAX_RECURSION ext errs0) as Hchain.
  destruct (map11_loop MAX_RECURSION ext errs0) as [[a e] t] eqn:Hrun.
  destruct Hchain as (Hchain & Ha & _).
  split; [done|]. split; [by rewrite Ha|].
  intros Hround Hnone. revert Hrun. unfold MAX_RECURSION. cbn [map11_loop].
  destruct (mail_addr_map ext) as [first rest| |] eqn:Hmap.
  - by destruct (Hnone first rest).
  - by intros [= <- <- <-].
  - by intros [= <- <- <-].
Qed.

(** X20: cleanup_map11_internal looks up the quoted form of the
    address, and cleanup_map11_tree the external form of the token
    list; both follow the table from there as cleanup_map11_external
    does and return the conversion (unquoting, scanning) of the address
    that this gives.  So an argument for whose external form the table
    has no entry comes back unchanged after a single lookup when the
    conversion back undoes the conversion to the external form, with
    the write-error bit or-ed in exactly when that lookup failed. *)
Theorem cleanup_map11_wrappers (errs0 : Z) :
  (forall addr,
      wraps (quote_822_local addr) unquote_822_local addr errs0
            (cleanup_map11_internal addr errs0)) /\
  (forall head,
      wraps (tok822_externalize head) tok822_scan head errs0
            (cleanup_map11_tree head errs0)).
Proof.
  split.
  - intros addr. apply cleanup_map11_external_wraps.
  - intros head. apply cleanup_map11_external_wraps.
Qed.

End Maps.

(** Two table entries that rewrite each address into the other. *)
Definition ping_pong (addr : string) : lookup :=
  if String.eqb addr "a" then Found "b" []
  else if String.eqb addr "b" then Found "a" []
  else NotFound.

(** C4 (as stated) fails: on the two-entry cycle a -> b -> a the loop
    stops at the iteration limit; the address it returns is rewritten by
    the table to a different one, the last lookup was neither a
    self-match nor a miss, and the error mask is untouched. *)
Lemma map11_limit_not_fixed_point_not_flagged :
  let '(a, e, t) := cleanup_map11_external ping_pong 2 "a" 0 in
  a = "a"%string /\ e = 0 /\ Z.land e 2 = 0 /\
  ping_pong a = Found "b" [] /\ strcasecmp a "b" <> 0 /\
  last (lookups t) = Some (EvLookup "b" (Found "a" [])) /\
  ~ (ends_self_match a t \/ ends_no_match a t \/ ends_flagged 2 0 a e t).
Proof.
  cbv beta iota delta [cleanup_map11_external].
  assert (Hrun : map11_loop ping_pong 2 MAX_RECURSION "a" 0 =
    ("a"%string, 0,
     concat (replicate 5 [EvLookup "a" (Found "b" []); EvLookup "b" (Found "a" [])])
     ++ [EvWarnNesting "a"])) by (vm_compute; reflexivity).
  rewrite Hrun.
  assert (Hlast : last (lookups (concat (replicate 5
      [EvLookup "a" (Found "b" []); EvLookup "b" (Found "a" [])])
      ++ [EvWarnNesting "a"])) = Some (EvLookup "b" (Found "a" [])))
    by (vm_compute; reflexivity).
  repeat split; try done.
  intros [(lhs & f & r & Hl & Hcmp & Ha)|[Hn|[Hf _]]].
  - rewrite Hlast in Hl. injection Hl as <- <- <-. by vm_compute in Hcmp.
  - unfold ends_no_match in Hn. rewrite Hlast in Hn. discriminate.
  - rewrite Hlast in Hf. discriminate.
Qed.

End CleanupMap11.

(** ** cleanup/cleanup_map1n.c *)

Module CleanupMap1n.

Inductive event : Type :=
| EvLookup (arg : nat) (lhs : string) (res : lookup)
| EvWarnSize
| EvWarnNesting (arg : nat)
| EvWarnLookupProblem.

Definition MAX_RECURSION : nat := 1000.
Definition MAX_EXPANSION : nat := 1000.

(** How the body of the outer loop is left: by [return (argv)] or by
    falling out of the inner loop into [arg++]. *)
Inductive flow : Type := Return | Break.

(** The variables that live across iterations, and the trace so far. *)
Record vars : Type := {
  argv : list string;
  cleanup_errs : Z;
  expand_to_self : bool
}.

Section Maps.

(** mail_addr_map() for the given maps and propagate flag,
    unquote_822_local(), and the write-error bit of cleanup_user.h. *)
Variable mail_addr_map : string -> lookup.
Variable unquote_822_local : string -> string.
Variable CLEANUP_STAT_WRITE : Z.

(** The [for (i = 0; i < lookup->argc; i++)] loop over one lookup
    result: the first address replaces slot [arg], the others are
    appended. *)
Fixpoint store_result (saved_lhs : string) (arg i : nat) (res : list string)
    (v : vars) : vars :=
  match res with
  | [] => v
  | r :: res' =>
      let cleanup_temp1 := unquote_822_local r in
      let ets := if strcasecmp saved_lhs cleanup_temp1 =? 0 then true
                 else expand_to_self v in
      let argv' := match i with
                   | O => <[arg := cleanup_temp1]> (argv v)
                   | S _ => argv v ++ [cleanup_temp1]
                   end in
      store_result saved_lhs arg (S i) res'
        {| argv := argv'; cleanup_errs := cleanup_errs v; expand_to_self := ets |}
  end.

(** The [for (count = 0; ; count++)] loop on slot [arg], by the number
    [n] of iterations left before [count >= MAX_RECURSION]. *)
Fixpoint nest (n : nat) (arg : nat) (v : vars) : flow * vars * list event :=
  match n with
  | O => (Break, v, [EvWarnNesting arg])
  | S n' =>
      let lhs := default EmptyString (argv v !! arg) in
      match mail_addr_map lhs with
      | Found first rest =>
          let v' := store_result lhs arg 0 (first :: rest) v in
          if expand_to_self v' then
            (Return, v', [EvLookup arg lhs (Found first rest)])
          else
            let '(f, v'', t) := nest n' arg v' in
            (f, v'', EvLookup arg lhs (Found first rest) :: t)
      | LookupError =>
          (Return,
           {| argv := argv v;
              cleanup_errs := Z.lor (cleanup_errs v) CLEANUP_STAT_WRITE;
              expand_to_self := expand_to_self v |},
           [EvLookup arg lhs LookupError; EvWarnLookupProblem])
      | NotFound => (Break, v, [EvLookup arg lhs NotFound])
      end
  end.

(** The [for (...; arg < argv->argc; arg++)] loop.  The list can grow
    while the loop runs, so the recursion is on [fuel]; the definition
    of cleanup_map1n_internal supplies enough of it. *)
Fixpoint expand (fuel : nat) (arg : nat) (v : vars) : option (vars * list event) :=
  if (arg <? length (argv v))%nat then
    if (MAX_EXPANSION <? length (argv v))%nat then Some (v, [EvWarnSize])
    else
      match nest MAX_RECURSION arg v with
      | (Return, v', t) => Some (v', t)
      | (Break, v', t) =>
          match fuel with
          | O => None
          | S fuel' =>
              match expand fuel' (S arg) v' with
              | Some (v'', t') => Some (v'', t ++ t')
              | None => None
              end
          end
      end
  else Some (v, []).

(** cleanup_map1n_internal - one-to-many table lookups *)
Definition cleanup_map1n_internal (addr : string) (cleanup_errs : Z)
    : option (vars * list event) :=
  expand MAX_EXPANSION 0
    {| argv := [addr]; cleanup_errs := cleanup_errs; expand_to_self := false |}.

(** The looked-up left-hand side occurs in the lookup result. *)
Definition contains_lhs (lhs : string) (res : list string) : bool :=
  existsb (fun r => strcasecmp lhs (unquote_822_local r) =? 0) res.

Definition expands_to_self (e : event) : bool :=
  match e with
  | EvLookup _ lhs (Found first rest) => contains_lhs lhs (first :: rest)
  | _ => false
  end.

Definition on_slot (a : nat) (e : event) : bool :=
  match e with EvLookup arg _ _ => (arg =? a)%nat | _ => false end.

(** Number of table lookups made for slot [a]. *)
Definition slot_lookups (a : nat) (t : list event) : nat :=
  length (List.filter (on_slot a) t).

Definition is_size_warning (e : event) : bool :=
  match e with EvWarnSize => true | _ => false end.

(** The slot that a lookup or a nesting warning is about satisfies [P]. *)
Definition slot_ok (P : nat -> Prop) (e : event) : Prop :=
  match e with
  | EvLookup a _ _ | EvWarnNesting a => P a
  | _ => True
  end.

(** An event that satisfies [P] can only be the last one of the trace. *)
Fixpoint stops_at (P : event -> bool) (t : list event) : Prop :=
  match t with
  | [] => True
  | e :: t' => (P e = true -> t' = []) /\ stops_at P t'
  end.

Lemma stops_at_app P t t' :
  Forall (fun e => P e = false) t -> stops_at P t' -> stops_at P (t ++ t').
Proof.
  induction 1 as [|e t He _ IH]; intros Ht'; cbn; [done|].
  split; [congruence | by apply IH].
Qed.

Lemma stops_at_never P t :
  Forall (fun e => P e = false) t -> stops_at P t.
Proof.
  intros H. rewrite <- (app_nil_r t). by apply stops_at_app.
Qed.

Lemma slot_lookups_app a t t' :
  slot_lookups a (t ++ t') = (slot_lookups a t + slot_lookups a t')%nat.
Proof. unfold slot_lookups. by rewrite List.filter_app, length_app. Qed.

Lemma slot_lookups_other (P : nat -> Prop) a t :
  Forall (slot_ok P) t -> ~ P a -> slot_lookups a t = 0%nat.
Proof.
  intros Hall Hna. unfold slot_lookups.
  induction Hall as [|e t He _ IH]; [done|].
  cbn. destruct e as [arg lhs res| | |]; cbn; try done.
  destruct (Nat.eqb_spec arg a) as [->|_]; [by cbn in He|done].
Qed.

Lemma slot_ok_weaken (P Q : nat -> Prop) t :
  (forall a, P a -> Q a) -> Forall (slot_ok P) t -> Forall (slot_ok Q) t.
Proof.
  intros HPQ Hall. eapply Forall_impl; [exact Hall|].
  intros [a ? ?| |a|]; cbn; auto.
Qed.

Lemma store_result_rest lhs arg i res v :
  store_result lhs arg (S i) res v =
    {| argv := argv v ++ map unquote_822_local res;
       cleanup_errs := cleanup_errs v;
       expand_to_self := contains_lhs lhs res || expand_to_self v |}.
Proof.
  revert i v. induction res as [|r res IH]; intros i v.
  - cbn. rewrite app_nil_r. by destruct v.
  - cbn [store_result]. rewrite IH. cbn.
    rewrite <- app_assoc. f_equal.
    destruct (strcasecmp lhs (unquote_822_local r) =? 0); cbn; [|done].
    by rewrite orb_true_r.
Qed.

Lemma store_result_first lhs arg first rest v :
  store_result lhs arg 0 (first :: rest) v =
    {| argv := <[arg := unquote_822_local first]> (argv v)
               ++ map unquote_822_local rest;
       cleanup_errs := cleanup_errs v;
       expand_to_self := contains_lhs lhs (first :: rest) || expand_to_self v |}.
Proof.
  cbn [store_result]. rewrite store_result_rest. cbn. f_equal.
  destruct (strcasecmp lhs (unquote_822_local first) =? 0); cbn; [|done].
  by rewrite orb_true_r.
Qed.

(** [K] bounds the number of addresses that one lookup result appends. *)
Variable K : nat.
Hypothesis result_size :
  forall lhs first rest,
    mail_addr_map lhs = Found first rest -> (length rest <= K)%nat.

(** What one run of the inner loop on slot [arg] guarantees. *)
Definition nest_ok (n arg : nat) (v : vars) (r : flow * vars * list event) : Prop :=
  let '(f, v', t) := r in
  (length (argv v) <= length (argv v') <= length (argv v) + n * K)%nat /\
  Forall (slot_ok (eq arg)) t /\
  (slot_lookups arg t <= n)%nat /\
  (EvWarnNesting arg ∈ t -> slot_lookups arg t = n) /\
  (f = Break ->
   expand_to_self v' = false /\ Forall (fun e => expands_to_self e = false) t) /\
  stops_at expands_to_self t /\
  Forall (fun e => is_size_warning e = false) t.

Lemma slot_lookups_cons_same arg lhs res t :
  slot_lookups arg (EvLookup arg lhs res :: t) = S (slot_lookups arg t).
Proof. unfold slot_lookups. cbn. by rewrite Nat.eqb_refl. Qed.

Lemma nest_spec n arg v :
  expand_to_self v = false -> nest_ok n arg v (nest n arg v).
Proof.
  revert v. induction n as [|n IH]; intros v Hets; cbn [nest].
  - repeat split; try (cbn; lia); try by repeat constructor.
  - set (lhs := default EmptyString (argv v !! arg)).
    destruct (mail_addr_map lhs) as [first rest| |] eqn:Hmap.
    + pose proof (result_size _ _ _ Hmap) as HK.
      pose proof (store_result_first lhs arg first rest v) as Hst.
      set (v' := store_result lhs arg 0 (first :: rest) v) in *.
      assert (Hlen : (length (argv v') = length (argv v) + length rest)%nat).
      { rewrite Hst. cbn. by rewrite length_app, length_insert, length_map. }
      assert (Hself : expand_to_self v' = contains_lhs lhs (first :: rest)).
      { rewrite Hst. cbn [expand_to_self]. by rewrite Hets, orb_false_r. }
      destruct (expand_to_self v') eqn:Hets'.
      * repeat split; try lia; try done.
        -- by repeat constructor.
        -- rewrite slot_lookups_cons_same. cbn. lia.
        -- intros Hin. apply list_elem_of_singleton in Hin. discriminate.
        -- by repeat constructor.
      * specialize (IH v' Hets').
        destruct (nest n arg v') as [[f v''] t].
        destruct IH as (Hl & Hslot & Hcnt & Hwarn & Hbrk & Hstop & Hsize).
        repeat split; try lia.
        -- by constructor.
        -- rewrite slot_lookups_cons_same. lia.
        -- intros Hin. rewrite slot_lookups_cons_same.
           apply elem_of_cons in Hin as [?|Hin]; [discriminate|].
           by rewrite Hwarn.
        -- by apply Hbrk.
        -- constructor; [|by apply Hbrk].
           unfold expands_to_self. by rewrite <- Hself.
        -- unfold expands_to_self. rewrite <- Hself. discriminate.
        -- done.
        -- by constructor.
    + repeat split; try (cbn; lia); try done; try by repeat constructor.
      * rewrite slot_lookups_cons_same. cbn. lia.
      * intros Hin. apply list_elem_of_singleton in Hin. discriminate.
    + repeat split; try (cbn; lia); try done; try by repeat constructor.
      * rewrite slot_lookups_cons_same. cbn. lia.
      * intros Hin. apply elem_of_cons in Hin as [?|Hin]; [discriminate|].
        apply list_elem_of_singleton in Hin. discriminate.
Qed.

(** What a run of the outer loop from slot [arg] guarantees. *)
Definition expand_ok (arg : nat) (v : vars) (r : vars * list event) : Prop :=
  let '(v', t) := r in
  Forall (slot_ok (le arg)) t /\
  (forall a, (slot_lookups a t <= MAX_RECURSION)%nat) /\
  ((length (argv v) <= MAX_EXPANSION + MAX_RECURSION * K)%nat ->
   (length (argv v') <= MAX_EXPANSION + MAX_RECURSION * K)%nat) /\
  stops_at is_size_warning t /\
  (EvWarnSize ∈ t -> (MAX_EXPANSION < length (argv v'))%nat) /\
  (forall a, EvWarnNesting a ∈ t -> slot_lookups a t = MAX_RECURSION) /\
  stops_at expands_to_self t.

Lemma expand_eq fuel arg v :
  expand fuel arg v =
  if (arg <? length (argv v))%nat then
    if (MAX_EXPANSION <? length (argv v))%nat then Some (v, [EvWarnSize])
    else
      match nest MAX_RECURSION arg v with
      | (Return, v', t) => Some (v', t)
      | (Break, v', t) =>
          match fuel with
          | O => None
          | S fuel' =>
              match expand fuel' (S arg) v' with
              | Some (v'', t') => Some (v'', t ++ t')
              | None => None
              end
          end
      end
  else Some (v, []).
Proof. by destruct fuel. Qed.

Lemma expand_spec fuel arg v :
  expand_to_self v = false ->
  (MAX_EXPANSION <= fuel + arg)%nat ->
  exists r, expand fuel arg v = Some r /\ expand_ok arg v r.
Proof.
  revert arg v. induction fuel as [|fuel IH]; intros arg v Hets Hfuel;
    rewrite expand_eq;
    (destruct (Nat.ltb_spec arg (length (argv v))) as [Harg|Harg];
     [destruct (Nat.ltb_spec MAX_EXPANSION (length (argv v))) as [Hbig|Hsmall]|]);
    try (eexists; split; [reflexivity|];
         repeat split; try done; try (by repeat constructor);
         try (intros a; unfold slot_lookups; cbn; lia);
         try (intros a Hin; apply list_elem_of_singleton in Hin; discriminate);
         try (intros a Hin; by apply elem_of_nil in Hin);
         try (intros Hin; by apply elem_of_nil in Hin); fail).
  all: pose proof (nest_spec MAX_RECURSION arg v Hets) as Hnest;
    destruct (nest MAX_RECURSION arg v) as [[f v'] t];
    destruct Hnest as (Hl & Hslot & Hcnt & Hwarn & Hbrk & Hstop & Hsize).
  all: assert (Hle : Forall (slot_ok (le arg)) t)
    by (eapply slot_ok_weaken; [|exact Hslot]; intros a <-; done).
  all: assert (Hother : forall a, a <> arg -> slot_lookups a t = 0%nat)
    by (intros a Ha; eapply slot_lookups_other; [exact Hslot|congruence]).
  all: assert (Hnosize : EvWarnSize ∉ t)
    by (intros Hin; rewrite Forall_forall in Hsize; by apply Hsize in Hin).
  all: assert (Hcount : forall a, (slot_lookups a t <= MAX_RECURSION)%nat)
    by (intros a; destruct (decide (a = arg)) as [->|Ha];
        [done | rewrite Hother by done; lia]).
  all: assert (Hnesting : forall a, EvWarnNesting a ∈ t ->
                                    a = arg /\ slot_lookups a t = MAX_RECURSION).
  1,3: intros a Hin; rewrite Forall_forall in Hslot;
       pose proof (Hslot _ Hin) as Heq; cbn in Heq; subst a; by auto.
  all: destruct f.
  1,3: eexists; split; [reflexivity|];
       repeat split; try done; try lia; try (by apply stops_at_never);
       intros a Hin; by apply Hnesting.
  - lia.
  - destruct (Hbrk eq_refl) as [Hets' Hnoself].
    destruct (IH (S arg) v' Hets' ltac:(lia)) as ([v'' t'] & Hrun & Hok).
    rewrite Hrun. eexists; split; [reflexivity|].
    destruct Hok as (Hslot' & Hcnt' & Hlen' & Hstop1 & Hsz & Hnest' & Hstop2).
    assert (Hnot : slot_lookups arg t' = 0%nat)
      by (eapply slot_lookups_other; [exact Hslot'|lia]).
    repeat split.
    + apply Forall_app. split; [done|].
      eapply slot_ok_weaken; [|exact Hslot']. intros a Ha. cbn in Ha. lia.
    + intros a. rewrite slot_lookups_app.
      destruct (decide (a = arg)) as [->|Ha].
      * rewrite Hnot. lia.
      * rewrite Hother by done. apply Hcnt'.
    + intros _. apply Hlen'. lia.
    + by apply stops_at_app.
    + intros Hin. apply elem_of_app in Hin as [Hin|Hin]; [done|by apply Hsz].
    + intros a Hin. rewrite slot_lookups_app.
      apply elem_of_app in Hin as [Hin|Hin].
      * destruct (Hnesting _ Hin) as [-> ->]. by rewrite Hnot, Nat.add_0_r.
      * assert (Ha : a <> arg).
        { rewrite Forall_forall in Hslot'. pose proof (Hslot' _ Hin) as Hge.
          cbn in Hge. lia. }
        rewrite Hother by done. by apply Hnest'.
    + by apply stops_at_app.
Qed.

(** The list after a lookup: a result replaces the slot it was looked
    up for by its first address and appends the others, in unquoted
    form; nothing else changes the list. *)
Definition apply_event (l : list string) (e : event) : list string :=
  match e with
  | EvLookup arg _ (Found first rest) =>
      <[arg := unquote_822_local first]> l ++ map unquote_822_local rest
  | _ => l
  end.

(** The list as the lookups of the trace [t] leave it, from [l]. *)
Definition current (l : list string) (t : list event) : list string :=
  foldl apply_event l t.

(** Every lookup of the trace is on the address that its slot holds at
    that moment, and is recorded with the answer of the table. *)
Fixpoint looked_up (l : list string) (t : list event) : Prop :=
  match t with
  | [] => True
  | e :: t' =>
      match e with
      | EvLookup arg lhs res => l !! arg = Some lhs /\ res = mail_addr_map lhs
      | _ => True
      end /\ looked_up (apply_event l e) t'
  end.

(** A lookup for slot [a] that found a result without the looked-up
    address in it. *)
Definition rewrites (a : nat) (e : event) : Prop :=
  exists lhs first rest,
    e = EvLookup a lhs (Found first rest) /\
    contains_lhs lhs (first :: rest) = false.

(** The work on slot [a] when the inner loop, with [n] iterations to
    go, is left for the next slot: fewer than [n] lookups that rewrite
    the slot and one that finds nothing, or [n] lookups that rewrite
    the slot and the nesting warning. *)
Definition slot_left (n a : nat) (s : list event) : Prop :=
  exists s', Forall (rewrites a) s' /\
    ((exists lhs, s = s' ++ [EvLookup a lhs NotFound] /\ (length s' < n)%nat) \/
     (s = s' ++ [EvWarnNesting a] /\ length s' = n)).

(** The work on slot [a] when the function returns from the inner
    loop: fewer than [n] lookups that rewrite the slot, and then a
    lookup whose result contains the looked-up address, or a lookup
    that fails and the lookup-problem warning. *)
Definition slot_returns (n a : nat) (s : list event) : Prop :=
  exists s', Forall (rewrites a) s' /\ (length s' < n)%nat /\
    ((exists lhs first rest,
         s = s' ++ [EvLookup a lhs (Found first rest)] /\
         contains_lhs lhs (first :: rest) = true) \/
     (exists lhs, s = s' ++ [EvLookup a lhs LookupError; EvWarnLookupProblem])).

(** The run of the outer loop from slot [arg] on the list [l0], slot by
    slot.  [segs] holds the work on the slots that were left for the
    next one: slot [arg + i] was started on a list that had that slot
    and at most 1000 entries.  [fin] is what follows: nothing when the
    list has no further slot; the size warning alone when it has one
    and is longer than 1000; and otherwise the work on that slot, from
    within which the function returns. *)
Definition slot_by_slot (l0 : list string) (arg : nat)
    (segs : list (list event)) (fin : list event) : Prop :=
  (forall i s, segs !! i = Some s ->
     let l := current l0 (concat (take i segs)) in
     (arg + i < length l <= MAX_EXPANSION)%nat /\
     slot_left MAX_RECURSION (arg + i) s) /\
  let l := current l0 (concat segs) in
  let a := (arg + length segs)%nat in
  if (a <? length l)%nat then
    if (MAX_EXPANSION <? length l)%nat then fin = [EvWarnSize]
    else slot_returns MAX_RECURSION a fin
  else fin = [].

Lemma current_app l t t' : current l (t ++ t') = current (current l t) t'.
Proof. apply foldl_app. Qed.

Lemma looked_up_app l t t' :
  looked_up l t -> looked_up (current l t) t' -> looked_up l (t ++ t').
Proof.
  revert l. induction t as [|e t IH]; intros l; cbn; [done|].
  intros [He Ht] Ht'. split; [done|]. by apply IH.
Qed.

Lemma nest_shape n arg v :
  expand_to_self v = false -> (arg < length (argv v))%nat ->
  let '(f, v', t) := nest n arg v in
  argv v' = current (argv v) t /\ looked_up (argv v) t /\
  match f with
  | Break => slot_left n arg t /\ expand_to_self v' = false
  | Return => slot_returns n arg t
  end.
Proof.
  revert v. induction n as [|n IH]; intros v Hets Harg; cbn [nest].
  { split; [done|]. split; [done|]. split; [|done].
    exists []. split; [constructor|]. by right. }
  destruct (lookup_lt_is_Some_2 (argv v) arg Harg) as [lhs Hlhs].
  replace (default EmptyString (argv v !! arg)) with lhs by (by rewrite Hlhs).
  destruct (mail_addr_map lhs) as [first rest| |] eqn:Hmap.
  - pose proof (store_result_first lhs arg first rest v) as Hst.
    set (v' := store_result lhs arg 0 (first :: rest) v) in *.
    assert (Hv' : argv v' = apply_event (argv v) (EvLookup arg lhs (Found first rest)))
      by (by rewrite Hst).
    assert (Hself : expand_to_self v' = contains_lhs lhs (first :: rest)).
    { rewrite Hst. cbn [expand_to_self]. by rewrite Hets, orb_false_r. }
    destruct (expand_to_self v') eqn:Hets'.
    + cbv beta iota. split; [done|]. split; [by cbn|].
      exists []. split; [constructor|]. split; [cbn; lia|]. left.
      by exists lhs, first, rest.
    + assert (Harg' : (arg < length (argv v'))%nat).
      { rewrite Hst. cbn. rewrite length_app, length_insert. lia. }
      specialize (IH v' Hets' Harg').
      destruct (nest n arg v') as [[f v''] t].
      destruct IH as (Hcur & Hlook & Hshape).
      assert (Hrw : rewrites arg (EvLookup arg lhs (Found first rest)))
        by (by exists lhs, first, rest).
      split; [by rewrite Hcur, Hv'|]. split; [cbn [looked_up]; by rewrite <- Hv'|].
      destruct f.
      * destruct Hshape as (s' & Hall & Hlen & Hend).
        exists (EvLookup arg lhs (Found first rest) :: s').
        split; [by constructor|]. split; [cbn; lia|].
        destruct Hend as [(l & f & r & -> & Hc)|(l & ->)]; [left|right].
        -- by exists l, f, r.
        -- by exists l.
      * destruct Hshape as [(s' & Hall & Hend) Hets''']. split; [|done].
        exists (EvLookup arg lhs (Found first rest) :: s').
        split; [by constructor|].
        destruct Hend as [(l & -> & Hlen)|[-> Hlen]]; [left|right].
        -- exists l. split; [done|cbn; lia].
        -- split; [done|cbn; lia].
  - split; [done|]. split; [by cbn|]. split; [|done].
    exists []. split; [constructor|]. left. exists lhs. split; [done|cbn; lia].
  - split; [done|]. split; [by cbn|].
    exists []. split; [constructor|]. split; [cbn; lia|]. right. by exists lhs.
Qed.

Lemma expand_shape fuel arg v :
  expand_to_self v = false ->
  (MAX_EXPANSION <= fuel + arg)%nat ->
  exists v' t segs fin,
    expand fuel arg v = Some (v', t) /\ t = concat segs ++ fin /\
    argv v' = current (argv v) t /\ looked_up (argv v) t /\
    slot_by_slot (argv v) arg segs fin.
Proof.
  revert arg v. induction fuel as [|fuel IH]; intros arg v Hets Hfuel;
    rewrite expand_eq;
    (destruct (Nat.ltb_spec arg (length (argv v))) as [Harg|Harg];
     [destruct (Nat.ltb_spec MAX_EXPANSION (length (argv v))) as [Hbig|Hsmall]|]).
  all: try (exists v, [EvWarnSize], [], [EvWarnSize];
            do 4 (split; [done|]); split; [by intros i s ?|];
            cbn [concat current foldl length]; rewrite Nat.add_0_r;
            destruct (Nat.ltb_spec arg (length (argv v))); [|lia];
            by destruct (Nat.ltb_spec MAX_EXPANSION (length (argv v))); [|lia]).
  all: try (exists v, [], [], [];
            do 4 (split; [done|]); split; [by intros i s ?|];
            cbn [concat current foldl length]; rewrite Nat.add_0_r;
            by destruct (Nat.ltb_spec arg (length (argv v))); [lia|]).
  all: pose proof (nest_shape MAX_RECURSION arg v Hets Harg) as Hnest;
    destruct (nest MAX_RECURSION arg v) as [[f v'] t];
    destruct Hnest as (Hcur & Hlook & Hshape); destruct f.
  1,3: exists v', t, [], t;
       do 4 (split; [done|]); split; [by intros i s ?|];
       cbn [concat current foldl length]; rewrite Nat.add_0_r;
       destruct (Nat.ltb_spec arg (length (argv v))); [|lia];
       by destruct (Nat.ltb_spec MAX_EXPANSION (length (argv v))); [lia|].
  - unfold MAX_EXPANSION in *. lia.
  - destruct Hshape as [Hleft Hets'].
    destruct (IH (S arg) v' Hets' ltac:(lia))
      as (v'' & t' & segs & fin & Hrun & -> & Hcur' & Hlook' & Hslots & Hfin).
    rewrite Hrun. exists v'', (t ++ concat segs ++ fin), (t :: segs), fin.
    split; [done|]. split; [cbn [concat]; by rewrite <- app_assoc|].
    split; [by rewrite current_app, <- Hcur|].
    split; [apply looked_up_app; [done|by rewrite <- Hcur]|].
    split.
    + intros [|i] s Hs.
      * injection Hs as <-. cbn [take concat current foldl].
        rewrite Nat.add_0_r. split; [lia|done].
      * cbn [take concat]. rewrite current_app, <- Hcur.
        replace (arg + S i)%nat with (S arg + i)%nat by lia.
        by apply Hslots.
    + cbn [concat length]. rewrite current_app, <- Hcur.
      replace (arg + S (length segs))%nat with (S arg + length segs)%nat by lia.
      exact Hfin.
Qed.

(** C3 (as the code has it): cleanup_map1n_internal always returns; it
    makes at most 1000 lookups for any one slot; it starts work on a slot
    only while the list has at most 1000 entries, so that the list it
    returns has at most 1000 + 1000 * K entries when no lookup result
    appends more than K addresses; a size warning is the last thing it
    does, and the list returned with it is longer than 1000; a nesting
    warning for a slot comes after exactly 1000 lookups for that slot;
    and a lookup whose result contains its own left-hand side
    (case-insensitively, in unquoted form) is the last thing it does.
    The list returned is the current list, as the lookups made left it,
    and every lookup is on the address that its slot held.  The run goes
    slot by slot, from slot 0 and through the slots appended on the way:
    when the list has a next slot and is longer than 1000 at the start
    of that slot, the size warning is logged and the function returns;
    when 1000 lookups have rewritten a slot, the nesting warning is
    logged and the run goes on to the next slot, as it does after a
    lookup that finds nothing; and the function returns from within a
    slot only at a lookup whose result contains the looked-up address or
    at a lookup that fails. *)
Theorem cleanup_map1n_internal_caps (addr : string) (errs0 : Z) :
  exists v t,
    cleanup_map1n_internal addr errs0 = Some (v, t) /\
    (forall a, (slot_lookups a t <= 1000)%nat) /\
    (length (argv v) <= 1000 + 1000 * K)%nat /\
    stops_at is_size_warning t /\
    (EvWarnSize ∈ t -> (1000 < length (argv v))%nat) /\
    (forall a, EvWarnNesting a ∈ t -> slot_lookups a t = 1000%nat) /\
    stops_at expands_to_self t /\
    argv v = current [addr] t /\
    looked_up [addr] t /\
    exists segs fin, t = concat segs ++ fin /\ slot_by_slot [addr] 0 segs fin.
Proof.
  unfold cleanup_map1n_internal.
  set (v0 := {| argv := [addr]; cleanup_errs := errs0; expand_to_self := false |}).
  destruct (expand_spec MAX_EXPANSION 0 v0) as ([v t] & Hrun & Hok);
    [reflexivity|lia|].
  destruct (expand_shape MAX_EXPANSION 0 v0)
    as (v' & t' & segs & fin & Hrun' & Ht & Hcur & Hlook & Hslots);
    [reflexivity|lia|].
  rewrite Hrun in Hrun'. injection Hrun' as <- <-.
  exists v, t. split; [exact Hrun|].
  destruct Hok as (_ & Hcnt & Hlen & Hstop1 & Hsz & Hnest & Hstop2).
  split; [done|].
  split; [apply Hlen; unfold v0; cbn [argv length]; unfold MAX_EXPANSION; lia|].
  do 6 (split; [done|]). by exists segs, fin.
Qed.

(** Number of addresses that the lookups of a trace appended: a result
    of k addresses replaces one slot and appends k - 1. *)
Definition grown (t : list event) : nat :=
  sum_list (map (fun e => match e with
                          | EvLookup _ _ (Found _ rest) => length rest
                          | _ => 0%nat
                          end) t).

(** The answer recorded with a lookup is that of the table. *)
Definition answered (e : event) : Prop :=
  match e with
  | EvLookup _ lhs res => res = mail_addr_map lhs
  | _ => True
  end.

(** The address is the unquoted form of an address in the result of a
    lookup of the trace. *)
Definition from_lookup (t : list event) (a : string) : Prop :=
  exists arg lhs first rest r,
    EvLookup arg lhs (Found first rest) ∈ t /\ r ∈ first :: rest /\
    a = unquote_822_local r.

Definition is_problem (e : event) : bool :=
  match e with EvWarnLookupProblem => true | _ => false end.

(** What a stretch of the run from [v] to [v'] with trace [t] keeps. *)
Definition accounts (errs_bit : Z) (v v' : vars) (t : list event) : Prop :=
  length (argv v') = (length (argv v) + grown t)%nat /\
  Forall answered t /\
  (forall a, a ∈ argv v' -> a ∈ argv v \/ from_lookup t a) /\
  stops_at is_problem t /\
  (forall arg lhs, EvLookup arg lhs LookupError ∈ t -> EvWarnLookupProblem ∈ t) /\
  cleanup_errs v' = if existsb is_problem t
                    then Z.lor (cleanup_errs v) errs_bit else cleanup_errs v.

Lemma grown_app t t' : grown (t ++ t') = (grown t + grown t')%nat.
Proof.
  unfold grown. induction t as [|e t IH]; cbn; [done|]. rewrite IH. lia.
Qed.

Lemma from_lookup_app_l t t' a : from_lookup t a -> from_lookup (t ++ t') a.
Proof.
  intros (arg & lhs & first & rest & r & Hin & Hr & Ha).
  exists arg, lhs, first, rest, r. rewrite elem_of_app. tauto.
Qed.

Lemma from_lookup_app_r t t' a : from_lookup t' a -> from_lookup (t ++ t') a.
Proof.
  intros (arg & lhs & first & rest & r & Hin & Hr & Ha).
  exists arg, lhs, first, rest, r. rewrite elem_of_app. tauto.
Qed.

Lemma accounts_refl errs_bit v : accounts errs_bit v v [].
Proof.
  unfold accounts. cbn. split; [lia|]. split; [constructor|].
  split; [by left|]. split; [done|]. split; [|done].
  by intros ? ? ?%elem_of_nil.
Qed.

(** One event that is neither a lookup with an answer or an error nor
    the lookup-problem warning changes nothing. *)
Lemma accounts_one errs_bit v e :
  match e with
  | EvLookup _ lhs res => res = NotFound /\ mail_addr_map lhs = NotFound
  | EvWarnLookupProblem => False
  | _ => True
  end ->
  accounts errs_bit v v [e].
Proof.
  intros He. unfold accounts.
  split; [destruct e as [? ? [| |]| | |]; cbn; try lia; by destruct He|].
  split; [constructor; [|done]; destruct e; try done; cbn; by destruct He as [-> ->]|].
  split; [by left|].
  split; [by cbn|].
  split.
  - intros arg lhs Hin. apply list_elem_of_singleton in Hin. subst e.
    by destruct He.
  - by destruct e.
Qed.

Lemma accounts_trans errs_bit v v' v'' t t' :
  Forall (fun e => is_problem e = false) t ->
  accounts errs_bit v v' t -> accounts errs_bit v' v'' t' ->
  accounts errs_bit v v'' (t ++ t').
Proof.
  intros Hquiet (Hl & Ha & Hp & Hs & He & Hc) (Hl' & Ha' & Hp' & Hs' & He' & Hc').
  assert (Hnone : existsb is_problem t = false).
  { clear -Hquiet. induction Hquiet as [|e t He _ IH]; [done|]. cbn. by rewrite He. }
  split; [rewrite grown_app; lia|]. split; [by apply Forall_app|].
  split; [|split; [by apply stops_at_app|split]].
  - intros a Hin. destruct (Hp' a Hin) as [Hin'|Hfrom].
    + destruct (Hp a Hin') as [?|Hfrom]; [by left|].
      right. by apply from_lookup_app_l.
    + right. by apply from_lookup_app_r.
  - intros arg lhs Hin. rewrite elem_of_app.
    apply elem_of_app in Hin as [Hin|Hin]; [left; by eapply He|right; by eapply He'].
  - rewrite existsb_app, Hnone, Hc'. cbn [orb]. rewrite Hnone in Hc. by rewrite Hc.
Qed.

Lemma elem_of_insert_inv {A} (l : list A) i x a :
  a ∈ <[i := x]> l -> a = x \/ a ∈ l.
Proof.
  intros Hin. apply list_elem_of_lookup in Hin as [j Hj].
  destruct (decide (i = j)) as [->|Hne].
  - destruct (decide (j < length l)%nat) as [Hlt|Hge].
    + rewrite list_lookup_insert_eq in Hj by done. left. congruence.
    + rewrite list_insert_ge in Hj by lia. right. by eapply list_elem_of_lookup_2.
  - rewrite list_lookup_insert_ne in Hj by done.
    right. by eapply list_elem_of_lookup_2.
Qed.

Lemma nest_accounts n arg v :
  let '(f, v', t) := nest n arg v in
  accounts CLEANUP_STAT_WRITE v v' t /\
  (f = Break -> Forall (fun e => is_problem e = false) t).
Proof.
  revert v. induction n as [|n IH]; intros v; cbn [nest].
  { split; [by apply accounts_one|by repeat constructor]. }
  set (lhs := default EmptyString (argv v !! arg)).
  destruct (mail_addr_map lhs) as [first rest| |] eqn:Hmap.
  - pose proof (store_result_first lhs arg first rest v) as Hst.
    set (v' := store_result lhs arg 0 (first :: rest) v) in *.
    assert (Hstep : accounts CLEANUP_STAT_WRITE v v' [EvLookup arg lhs (Found first rest)]).
    { unfold accounts. rewrite Hst. cbn.
      rewrite length_app, length_insert, length_map.
      split; [lia|]. split; [by repeat constructor|]. split; [|split; [done|split; [|done]]].
      - intros a [Hin|Hin]%elem_of_app.
        + apply elem_of_insert_inv in Hin as [->|Hin]; [|by left].
          right. exists arg, lhs, first, rest, first.
          split; [by left|]. split; [by left|done].
        + apply list_elem_of_fmap in Hin as (r & -> & Hr). right.
          exists arg, lhs, first, rest, r.
          split; [by left|]. split; [by right|done].
      - intros ? ? Hin. apply list_elem_of_singleton in Hin. discriminate. }
    destruct (expand_to_self v').
    + split; [done|discriminate].
    + specialize (IH v'). destruct (nest n arg v') as [[f v''] t].
      destruct IH as [Hrest Hbreak]. split.
      * apply (accounts_trans _ v v' v'' [EvLookup arg lhs (Found first rest)] t);
          [by repeat constructor|done|done].
      * intros Hf. constructor; [done|by apply Hbreak].
  - split; [by apply accounts_one|by repeat constructor].
  - split; [|discriminate]. unfold accounts. cbn.
    split; [lia|]. split; [by repeat constructor|]. split; [by left|].
    split; [done|]. split; [|done]. intros ? ? _. right. by left.
Qed.

Lemma expand_accounts fuel arg v :
  (MAX_EXPANSION <= fuel + arg)%nat ->
  exists v' t, expand fuel arg v = Some (v', t) /\
               accounts CLEANUP_STAT_WRITE v v' t.
Proof.
  revert arg v. induction fuel as [|fuel IH]; intros arg v Hfuel;
    rewrite expand_eq;
    (destruct (Nat.ltb_spec arg (length (argv v))) as [Harg|Harg];
     [destruct (Nat.ltb_spec MAX_EXPANSION (length (argv v))) as [Hbig|Hsmall]|]);
    try (by eexists _, _; split; [reflexivity|apply accounts_refl]);
    try (by eexists _, _; split; [reflexivity|apply accounts_one]).
  all: pose proof (nest_accounts MAX_RECURSION arg v) as Hnest;
    destruct (nest MAX_RECURSION arg v) as [[f v'] t];
    destruct Hnest as [Hacc Hbreak]; destruct f;
    try (by eexists _, _).
  - lia.
  - destruct (IH (S arg) v' ltac:(lia)) as (v'' & t' & Hrun & Hacc').
    rewrite Hrun. eexists _, _. split; [reflexivity|].
    apply (accounts_trans _ v v' v'' t t'); [by apply Hbreak|done|done].
Qed.

(** X17: cleanup_map1n_internal always returns a list that is not
    empty: its length is one more than the number of addresses that the
    lookups appended, a result of k addresses appending k - 1; every
    address on it is the input address or the unquoted form of an
    address that a table lookup returned; and when no table entry has
    more than one address the list has exactly one entry. *)
Theorem cleanup_map1n_internal_accounts (addr : string) (errs0 : Z) :
  exists v t,
    cleanup_map1n_internal addr errs0 = Some (v, t) /\
    length (argv v) = S (grown t) /\
    argv v <> [] /\
    (forall a, a ∈ argv v -> a = addr \/ from_lookup t a) /\
    ((forall lhs first rest, mail_addr_map lhs = Found first rest -> rest = []) ->
     length (argv v) = 1%nat).
Proof.
  unfold cleanup_map1n_internal.
  destruct (expand_accounts MAX_EXPANSION 0
              {| argv := [addr]; cleanup_errs := errs0; expand_to_self := false |})
    as (v & t & Hrun & Hl & Ha & Hp & _); [lia|].
  exists v, t. cbn in Hl, Hp. split; [done|]. split; [done|].
  split; [by destruct (argv v)|]. split.
  - intros a Hin. destruct (Hp a Hin) as [Hin'|?]; [|by right].
    apply list_elem_of_singleton in Hin'. by left.
  - intros Hsingle. rewrite Hl. f_equal. clear -Ha Hsingle.
    induction Ha as [|e t He _ IH]; [done|]. unfold grown in *. cbn. rewrite IH.
    destruct e as [arg lhs [first rest| |]| | |]; try done.
    cbn in He. symmetry in He. by rewrite (Hsingle _ _ _ He).
Qed.

(** The lookup-problem warning is logged only right after a lookup
    that failed, and nothing follows it. *)
Definition problem_after_failure (t : list event) : Prop :=
  EvWarnLookupProblem ∈ t ->
  exists t0 arg lhs,
    t = t0 ++ [EvLookup arg lhs LookupError; EvWarnLookupProblem] /\
    mail_addr_map lhs = LookupError.

Lemma nest_problem n arg v :
  let '(f, v', t) := nest n arg v in problem_after_failure t.
Proof.
  revert v. induction n as [|n IH]; intros v; cbn [nest].
  { intros Hin. apply list_elem_of_singleton in Hin. discriminate. }
  set (lhs := default EmptyString (argv v !! arg)).
  destruct (mail_addr_map lhs) as [first rest| |] eqn:Hmap.
  - set (v' := store_result lhs arg 0 (first :: rest) v).
    destruct (expand_to_self v').
    + intros Hin. apply list_elem_of_singleton in Hin. discriminate.
    + specialize (IH v'). destruct (nest n arg v') as [[f v''] t].
      intros Hin. apply elem_of_cons in Hin as [?|Hin]; [discriminate|].
      destruct (IH Hin) as (t0 & a & l & -> & Hfail).
      by exists (EvLookup arg lhs (Found first rest) :: t0), a, l.
  - intros Hin. apply list_elem_of_singleton in Hin. discriminate.
  - intros _. by exists [], arg, lhs.
Qed.

Lemma expand_problem fuel arg v v' t :
  expand fuel arg v = Some (v', t) -> problem_after_failure t.
Proof.
  revert arg v v' t. induction fuel as [|fuel IH]; intros arg v v' t;
    rewrite expand_eq;
    (destruct (Nat.ltb_spec arg (length (argv v))) as [Harg|Harg];
     [destruct (Nat.ltb_spec MAX_EXPANSION (length (argv v))) as [Hbig|Hsmall]|]).
  1,4: intros [= _ <-] Hin; apply list_elem_of_singleton in Hin; discriminate.
  2,4: intros [= _ <-] Hin; by apply elem_of_nil in Hin.
  all: pose proof (nest_problem MAX_RECURSION arg v) as Hnest;
    pose proof (nest_accounts MAX_RECURSION arg v) as Hacc;
    destruct (nest MAX_RECURSION arg v) as [[f v1] t1];
    destruct f; try (intros [= _ <-]; exact Hnest).
  destruct (expand fuel (S arg) v1) as [[v2 t2]|] eqn:Hrun; [|discriminate].
  intros [= _ <-] Hin. destruct Hacc as [_ Hquiet].
  apply elem_of_app in Hin as [Hin|Hin].
  - specialize (Hquiet eq_refl). rewrite Forall_forall in Hquiet.
    by apply Hquiet in Hin.
  - destruct (IH _ _ _ _ Hrun Hin) as (t0 & a & l & -> & Hfail).
    exists (t1 ++ t0), a, l. by rewrite <- app_assoc.
Qed.

(** X18: in cleanup_map1n_internal a table lookup that fails is always
    followed by the lookup-problem warning, the warning is the last
    thing the run does, and the write-error bit is or-ed into
    cleanup_errs; the warning is logged only right after a lookup that
    failed, so that a run without a failing lookup leaves cleanup_errs
    as it was. *)
Theorem cleanup_map1n_internal_error_flag (addr : string) (errs0 : Z) :
  exists v t,
    cleanup_map1n_internal addr errs0 = Some (v, t) /\
    (forall arg lhs, EvLookup arg lhs LookupError ∈ t -> EvWarnLookupProblem ∈ t) /\
    (EvWarnLookupProblem ∈ t ->
     last t = Some EvWarnLookupProblem /\
     cleanup_errs v = Z.lor errs0 CLEANUP_STAT_WRITE) /\
    (EvWarnLookupProblem ∉ t -> cleanup_errs v = errs0) /\
    (EvWarnLookupProblem ∈ t ->
     exists t0 arg lhs,
       t = t0 ++ [EvLookup arg lhs LookupError; EvWarnLookupProblem] /\
       mail_addr_map lhs = LookupError) /\
    ((forall arg lhs, EvLookup arg lhs LookupError ∉ t) -> cleanup_errs v = errs0).
Proof.
  unfold cleanup_map1n_internal.
  destruct (expand_accounts MAX_EXPANSION 0
              {| argv := [addr]; cleanup_errs := errs0; expand_to_self := false |})
    as (v & t & Hrun & _ & _ & _ & Hstop & Herr & Hc); [lia|].
  pose proof (expand_problem _ _ _ _ _ Hrun) as Hcause.
  exists v, t. cbn in Hc. split; [done|]. split; [done|].
  assert (Hex : existsb is_problem t = true <-> EvWarnLookupProblem ∈ t).
  { rewrite existsb_exists. split.
    - intros (e & Hin & He). destruct e; try done. by apply list_elem_of_In.
    - intros Hin. exists EvWarnLookupProblem. split; [by apply list_elem_of_In|done]. }
  assert (Hquiet : EvWarnLookupProblem ∉ t -> cleanup_errs v = errs0).
  { intros Hnot. rewrite Hc. destruct (existsb is_problem t) eqn:Hb; [|done].
    destruct Hnot. by apply Hex. }
  split; [|split; [done|split; [done|]]].
  - intros Hin. split; [|by rewrite Hc, (proj2 Hex Hin)].
    clear -Hstop Hin. induction t as [|e t IH]; [by apply elem_of_nil in Hin|].
    destruct Hstop as [Hlast Hstop].
    apply elem_of_cons in Hin as [<-|Hin]; [by rewrite (Hlast eq_refl)|].
    destruct t as [|e' t']; [by apply elem_of_nil in Hin|]. by apply IH.
  - intros Hnone. apply Hquiet. intros Hin.
    destruct (Hcause Hin) as (t0 & a & l & -> & _).
    apply (Hnone a l). apply elem_of_app. right. by left.
Qed.

End Maps.

(** A distribution list of 1001 members, none of which is rewritten. *)
Definition big_list (addr : string) : lookup :=
  if String.eqb addr "list" then Found "m" (replicate 1000 "m"%string)
  else NotFound.

(** An address with two targets, the first of which the table rewrites
    in a cycle c -> e -> c. *)
Definition cyclic (addr : string) : lookup :=
  if String.eqb addr "a" then Found "c" ["d"%string]
  else if String.eqb addr "c" then Found "e" []
  else if String.eqb addr "e" then Found "c" []
  else if String.eqb addr "d" then Found "f" []
  else NotFound.

(** The 1000 lookups that slot 0 gets on the cycle. *)
Definition cycle_trace : list event :=
  EvLookup 0 "a" (Found "c" ["d"%string]) ::
  concat (replicate 499 [EvLookup 0 "c" (Found "e" []);
                         EvLookup 0 "e" (Found "c" [])]) ++
  [EvLookup 0 "c" (Found "e" [])].

Definition run_map1n (maps : string -> lookup) (addr : string) :=
  cleanup_map1n_internal maps (fun s => s) 2 addr 0.

(** C3 (as stated) fails twice.  One lookup that yields 1001 addresses
    makes the function return, with the size warning, a list of 1001
    entries.  And when the 1000 lookups of slot 0 are used up on the
    cycle, the function logs the nesting warning and goes on to rewrite
    slot 1 instead of returning the list as it was. *)
Lemma map1n_caps_exceeded :
  (run_map1n big_list "list" =
     Some ({| argv := replicate 1001 "m"%string; cleanup_errs := 0;
              expand_to_self := false |},
           [EvLookup 0 "list" (Found "m" (replicate 1000 "m"%string));
            EvLookup 0 "m" NotFound; EvWarnSize]) /\
   ~ (length (replicate 1001 "m"%string) <= 1000)%nat) /\
  (run_map1n cyclic "a" =
     Some ({| argv := ["e"%string; "f"%string]; cleanup_errs := 0;
              expand_to_self := false |},
           cycle_trace ++
           [EvWarnNesting 0; EvLookup 1 "d" (Found "f" []);
            EvLookup 1 "f" NotFound]) /\
   slot_lookups 0 cycle_trace = 1000%nat).
Proof.
  split; split.
  - vm_compute. reflexivity.
  - rewrite length_replicate. lia.
  - vm_compute. reflexivity.
  - vm_compute. reflexivity.
Qed.

Lemma cleanup_map1n_internal_caps_witness :
  exists v t,
    run_map1n cyclic "a" = Some (v, t) /\
    (forall a, (slot_lookups a t <= 1000)%nat) /\
    (length (argv v) <= 1000 + 1000 * 1)%nat /\
    stops_at is_size_warning t /\
    (EvWarnSize ∈ t -> (1000 < length (argv v))%nat) /\
    (forall a, EvWarnNesting a ∈ t -> slot_lookups a t = 1000%nat) /\
    stops_at (expands_to_self (fun s => s)) t /\
    argv v = current (fun s => s) ["a"%string] t /\
    looked_up cyclic (fun s => s) ["a"%string] t /\
    exists segs fin,
      t = concat segs ++ fin /\
      slot_by_slot (fun s => s) ["a"%string] 0 segs fin.
Proof.
  apply (cleanup_map1n_internal_caps cyclic (fun s => s) 2 1).
  intros lhs first rest. unfold cyclic.
  repeat (destruct (String.eqb lhs _)); intros Heq; inversion Heq; cbn; lia.
Defined.

End CleanupMap1n.

(** ** local/alias.c *)

Module Alias.

Definition NO : Z := 0.
Definition YES : Z := 1.

(** The message attributes and the delivery state that deliver_alias
    reads or updates; the state is passed by value, so updates are seen
    only by the calls made from here. *)
Record MSG_ATTR : Type := {
  exp_from : option string;
  exp_type : Z;
  recipient : string;
  delivered : string;
  sender : string;
  owner : option string
}.

Record LOCAL_STATE : Type := {
  level : Z;
  msg_attr : MSG_ATTR;
  request_flags : Z
}.

(** Delivery rights: the default rights, or those of a password-file
    entry (RESET_USER_ATTR and SET_USER_ATTR of local.h). *)
Inductive USER_ATTR : Type :=
| DefaultRights
| RightsOf (uid : Z).

Inductive event : Type :=
| EvLogState (level : Z)
| EvMsgInfo (table name : string)
| EvMsgWarn (what : string) (name : string)
| EvBounceAppend (attr : MSG_ATTR) (what : string) (name : string)
| EvDeferAppend (attr : MSG_ATTR) (what : string)
| EvSent (attr : MSG_ATTR) (alias_result : string)
| EvDictGet (table name : string)
| EvMapsFind (name : string)
| EvDeliverTokenString (state : LOCAL_STATE) (usr_attr : USER_ATTR)
                       (expansion : string).

(** The library and the configuration around deliver_alias.  A lookup
    answers with its result and the value it leaves in dict_errno.
    Every table of alias_maps is taken to be open: dict_handle() finds
    it and its owner can be read, so that the msg_panic() and
    msg_fatal() calls for a table that is missing are not reached, and
    [dict_get] and [dict_owner] answer for the table by its name. *)
Record world : Type := {
  msg_verbose : bool;
  alias_maps : list string;
  dict_get : string -> string -> option string * Z;
  dict_owner : string -> Z;
  mypwuid : Z -> option Z;
  maps_find : string -> option string * Z;
  canon_addr_internal : string -> string;
  deliver_token_string : LOCAL_STATE -> USER_ATTR -> string -> Z * Z;
  bounce_append : MSG_ATTR -> string -> Z;
  defer_append : MSG_ATTR -> string -> Z;
  sent : MSG_ATTR -> string -> Z;
  var_ownreq_special : bool;
  var_exp_own_alias : bool;
  EXPAND_TYPE_ALIAS : Z;
  DEL_REQ_FLAG_VERIFY : Z
}.

Definition set_level (l : Z) (s : LOCAL_STATE) : LOCAL_STATE :=
  {| level := l; msg_attr := msg_attr s; request_flags := request_flags s |}.

Definition set_attr (a : MSG_ATTR) (s : LOCAL_STATE) : LOCAL_STATE :=
  {| level := level s; msg_attr := a; request_flags := request_flags s |}.

Definition set_exp_from (name : string) (a : MSG_ATTR) : MSG_ATTR :=
  {| exp_from := Some name; exp_type := exp_type a; recipient := recipient a;
     delivered := delivered a; sender := sender a; owner := owner a |}.

Definition set_exp_type (t : Z) (a : MSG_ATTR) : MSG_ATTR :=
  {| exp_from := exp_from a; exp_type := t; recipient := recipient a;
     delivered := delivered a; sender := sender a; owner := owner a |}.

(** SET_OWNER_ATTR changes sender and owner, RESET_OWNER_ATTR clears the
    owner. *)
Definition set_owner (o : option string) (a : MSG_ATTR) : MSG_ATTR :=
  {| exp_from := exp_from a; exp_type := exp_type a; recipient := recipient a;
     delivered := delivered a;
     sender := match o with Some s => s | None => sender a end;
     owner := o |}.

Definition set_delivered (a : MSG_ATTR) : MSG_ATTR :=
  {| exp_from := exp_from a; exp_type := exp_type a; recipient := recipient a;
     delivered := recipient a; sender := sender a; owner := owner a |}.

Section DeliverAlias.

Variable w : world.

(** The body run for the table in which the alias was found. *)
Definition expand_alias (state : LOCAL_STATE) (usr_attr : USER_ATTR)
    (table name alias_result : string) (errno_get : Z)
    : Z * Z * list event :=
  let found := if msg_verbose w then [EvMsgInfo table name] else [] in
  if negb (Z.land (request_flags state) (DEL_REQ_FLAG_VERIFY w) =? 0) then
    (YES, sent w (msg_attr state) alias_result,
     found ++ [EvSent (msg_attr state) alias_result])
  else
    let state := set_attr (set_exp_type (EXPAND_TYPE_ALIAS w) (msg_attr state)) state in
    let alias_uid := dict_owner w table in
    let rights :=
      if alias_uid =? 0 then Some DefaultRights
      else match mypwuid w alias_uid with
           | None => None
           | Some pwd => Some (RightsOf pwd)
           end in
    match rights with
    | None =>
        (YES, defer_append w (msg_attr state) "cannot find alias database owner",
         found ++ [EvMsgWarn "cannot find alias database owner for" table;
                   EvDeferAppend (msg_attr state) "cannot find alias database owner"])
    | Some usr_attr =>
        let expansion := alias_result in
        let owner_name := if var_ownreq_special w
                          then Some ("owner-" ++ name)%string else None in
        let '(owner_rhs, dict_errno, t_owner) :=
          match owner_name with
          | Some o => (fst (maps_find w o), snd (maps_find w o), [EvMapsFind o])
          | None => (None, errno_get, [])
          end in
        let canon_owner :=
          match owner_name, owner_rhs with
          | Some o, Some rhs =>
              Some (canon_addr_internal w (if var_exp_own_alias w then rhs else o))
          | _, _ => None
          end in
        let state := set_attr (set_owner canon_owner (msg_attr state)) state in
        let state := set_attr (set_delivered (msg_attr state)) state in
        let '(status, alias_count, t_deliver) :=
          if negb (dict_errno =? 0) then
            (defer_append w (msg_attr state) "alias database unavailable", 0,
             [EvDeferAppend (msg_attr state) "alias database unavailable"])
          else
            (fst (deliver_token_string w state usr_attr expansion),
             snd (deliver_token_string w state usr_attr expansion),
             [EvDeliverTokenString state usr_attr expansion]) in
        if alias_count <? 1 then
          (YES, defer_append w (msg_attr state) "alias database unavailable",
           found ++ t_owner ++ t_deliver ++
           [EvMsgWarn "no recipient in alias lookup result for" name;
            EvDeferAppend (msg_attr state) "alias database unavailable"])
        else (YES, status, found ++ t_owner ++ t_deliver)
    end.

(** The [for (cpp = alias_maps->argv->argv; *cpp; cpp++)] loop. *)
Fixpoint search_tables (tables : list string) (state : LOCAL_STATE)
    (usr_attr : USER_ATTR) (name : string) (statusp : Z)
    : Z * Z * list event :=
  match tables with
  | [] => (NO, statusp, [])
  | table :: tables' =>
      match dict_get w table name with
      | (Some alias_result, errno_get) =>
          let '(r, s, t) :=
            expand_alias state usr_attr table name alias_result errno_get in
          (r, s, EvDictGet table name :: t)
      | (None, dict_errno) =>
          if negb (dict_errno =? 0) then
            (YES, defer_append w (msg_attr state) "alias database unavailable",
             [EvDictGet table name;
              EvDeferAppend (msg_attr state) "alias database unavailable"])
          else
            let '(r, s, t) := search_tables tables' state usr_attr name statusp in
            (r, s, EvDictGet table name ::
                   (if msg_verbose w then [EvMsgInfo table name] else []) ++ t)
      end
  end.

(** deliver_alias - expand alias file entry.  The result is the return
    value, the value of *statusp on return, and the trace. *)
Definition deliver_alias (state : LOCAL_STATE) (usr_attr : USER_ATTR)
    (name : string) (statusp : Z) : Z * Z * list event :=
  let state := set_level (level state + 1) state in
  let t_log := if msg_verbose w then [EvLogState (level state)] else [] in
  if match exp_from (msg_attr state) with
     | Some from => strcasecmp from name =? 0
     | None => false
     end
  then (NO, statusp, t_log)
  else if 100 <? level state then
    (YES,
     bounce_append w (msg_attr state) "possible alias database loop for",
     t_log ++ [EvMsgWarn "possible alias database loop for" name;
               EvBounceAppend (msg_attr state)
                 "possible alias database loop for" name])
  else
    let state := set_attr (set_exp_from name (msg_attr state)) state in
    let '(r, s, t) := search_tables (alias_maps w) state usr_attr name statusp in
    (r, s, t_log ++ t).

(** The run looked nothing up and delivered nothing. *)
Definition no_expansion (t : list event) : Prop :=
  Forall (fun e => match e with
                   | EvDictGet _ _ | EvMapsFind _
                   | EvDeliverTokenString _ _ _ | EvSent _ _ => False
                   | _ => True
                   end) t.

(** The name is the alias from which the current branch originated. *)
Definition from_self (state : LOCAL_STATE) (name : string) : Prop :=
  exists from, exp_from (msg_attr state) = Some from /\ strcasecmp from name = 0.

Lemma from_self_test state name :
  from_self (set_level (level state + 1) state) name <->
  match exp_from (msg_attr state) with
  | Some from => strcasecmp from name =? 0
  | None => false
  end = true.
Proof.
  unfold from_self. cbn. destruct (exp_from (msg_attr state)) as [from|].
  - rewrite Z.eqb_eq. split; [by intros (f & [= <-] & ?)|by exists from].
  - split; [by intros (f & ? & ?)|done].
Qed.


(** The table has no entry for the name, and said so without error. *)
Definition not_found (table name : string) : Prop :=
  dict_get w table name = (None, 0).

(** The run delivered nothing and reported nothing. *)
Definition no_delivery (t : list event) : Prop :=
  Forall (fun e => match e with
                   | EvSent _ _ | EvDeferAppend _ _ | EvBounceAppend _ _ _
                   | EvDeliverTokenString _ _ _ | EvMapsFind _ => False
                   | _ => True
                   end) t.

(** The tables that were consulted, in the order of the lookups. *)
Definition consulted (t : list event) : list string :=
  omap (fun e => match e with EvDictGet table _ => Some table | _ => None end) t.

(** The tables up to and including the first one that has an entry for
    the name or that fails. *)
Fixpoint up_to_answer (tables : list string) (name : string) : list string :=
  match tables with
  | [] => []
  | table :: tables' =>
      table :: match dict_get w table name with
               | (None, dict_errno) =>
                   if dict_errno =? 0 then up_to_answer tables' name else []
               | (Some _, _) => []
               end
  end.

Lemma expand_alias_yes state usr_attr table name alias_result errno_get :
  (expand_alias state usr_attr table name alias_result errno_get).1.1 = YES.
Proof.
  unfold expand_alias.
  destruct (negb (Z.land _ _ =? 0)); [done|].
  destruct (if dict_owner w table =? 0 then _ else _); [|done].
  destruct (var_ownreq_special w); cbv zeta beta iota;
    destruct (negb (_ =? 0)); cbv zeta beta iota;
    by destruct (_ <? 1).
Qed.

Lemma expand_alias_consulted state usr_attr table name alias_result errno_get :
  consulted (expand_alias state usr_attr table name alias_result errno_get).2 = [].
Proof.
  unfold expand_alias.
  destruct (negb (Z.land _ _ =? 0)); [by destruct (msg_verbose w)|].
  destruct (if dict_owner w table =? 0 then _ else _);
    [|by destruct (msg_verbose w)].
  destruct (var_ownreq_special w); cbv zeta beta iota;
    destruct (negb (_ =? 0)); cbv zeta beta iota;
    destruct (_ <? 1); by destruct (msg_verbose w).
Qed.

Lemma search_tables_declines tables state usr_attr name statusp :
  let '(r, s, t) := search_tables tables state usr_attr name statusp in
  (r = NO \/ r = YES) /\
  (r = NO <-> Forall (fun table => not_found table name) tables) /\
  (r = NO -> s = statusp /\ no_delivery t) /\
  consulted t = up_to_answer tables name.
Proof.
  induction tables as [|table tables IH]; cbn [search_tables up_to_answer].
  { repeat split; try done; by left. }
  pose proof (expand_alias_yes state usr_attr table name) as Hyes.
  pose proof (expand_alias_consulted state usr_attr table name) as Hnone.
  unfold not_found in *.
  destruct (dict_get w table name) as [[alias_result|] dict_errno] eqn:Hget.
  - specialize (Hyes alias_result dict_errno).
    specialize (Hnone alias_result dict_errno).
    destruct (expand_alias _ _ _ _ _ _) as [[r s] t]. cbn in Hyes, Hnone.
    subst r. split; [by right|]. split; [|split; [done|]].
    + split; [done|]. intros Hall. apply Forall_cons in Hall as [Hbad _].
      by rewrite Hget in Hbad.
    + cbn. by rewrite Hnone.
  - destruct (Z.eqb_spec dict_errno 0) as [->|Hne]; cbn [negb].
    + destruct (search_tables tables state usr_attr name statusp) as [[r s] t].
      destruct IH as (Hr & Hall & Hquiet & Hcons).
      split; [done|]. split; [|split].
      * rewrite Hall. split; [intros; by constructor|].
        intros H. by apply Forall_cons in H as [_ ?].
      * intros Hno. destruct (Hquiet Hno) as [-> Hq]. split; [done|].
        constructor; [done|]. apply Forall_app. split; [|done].
        destruct (msg_verbose w); by repeat constructor.
      * cbn. f_equal. unfold consulted in *. rewrite omap_app, Hcons.
        by destruct (msg_verbose w).
    + split; [by right|]. split; [|split; [done|done]].
      split; [done|]. intros Hall. apply Forall_cons in Hall as [Hbad _].
      rewrite Hget in Hbad. by injection Hbad.
Qed.

(** X10: with every alias table open, so that dict_handle() finds it,
    deliver_alias returns NO, which sends the caller on to delivery to
    a local user, exactly when the name is the alias from which the
    branch originated, or the nesting level is within the limit and
    every alias table answers, without error, that it has no entry for
    the name; the status is then left alone and nothing was delivered,
    deferred, bounced or expanded. *)
Theorem deliver_alias_declines state usr_attr name statusp :
  let '(r, s, t) := deliver_alias state usr_attr name statusp in
  (r = NO <->
   from_self state name \/
   (level state + 1 <= 100 /\
    Forall (fun table => not_found table name) (alias_maps w))) /\
  (r = NO -> s = statusp /\ no_delivery t).
Proof.
  pose proof (from_self_test state name) as Hself.
  assert (Hstate : from_self state name <->
                   from_self (set_level (level state + 1) state) name) by done.
  unfold deliver_alias. cbn [msg_attr set_level level].
  destruct (match exp_from (msg_attr state) with
            | Some from => strcasecmp from name =? 0
            | None => false
            end) eqn:Htest.
  { split.
    - split; [|done]. intros _. left. apply Hstate. by apply Hself.
    - intros _. split; [done|]. destruct (msg_verbose w); by repeat constructor. }
  assert (Hnot : ~ from_self state name).
  { intros H. apply Hstate, Hself in H. congruence. }
  destruct (Z.ltb_spec 100 (level state + 1)) as [Hdeep|Hok].
  { split; [|done]. split; [done|].
    intros [?|[? _]]; [done|lia]. }
  match goal with |- context [search_tables ?l ?st ?ua ?n ?sp] =>
    pose proof (search_tables_declines l st ua n sp) as Hsearch;
    destruct (search_tables l st ua n sp) as [[r s] t] end.
  destruct Hsearch as (Hr & Hall & Hquiet & _).
  split.
  - rewrite Hall. split; [by right|]. by intros [?|[_ ?]].
  - intros Hno. destruct (Hquiet Hno) as [-> Hq]. split; [done|].
    apply Forall_app. split; [|done].
    destruct (msg_verbose w); by repeat constructor.
Qed.


(** The request is a verify-only request. *)
Definition verify_only (state : LOCAL_STATE) : Prop :=
  Z.land (request_flags state) (DEL_REQ_FLAG_VERIFY w) <> 0.

(** The run expanded nothing: no alias value was delivered to and no
    owner- alias was looked up. *)
Definition not_expanded (t : list event) : Prop :=
  Forall (fun e => match e with
                   | EvDeliverTokenString _ _ _ | EvMapsFind _ => False
                   | _ => True
                   end) t.

Lemma not_expanded_found table name :
  not_expanded (if msg_verbose w then [EvMsgInfo table name] else []).
Proof. destruct (msg_verbose w); by repeat constructor. Qed.

Lemma search_tables_verify_only tables state usr_attr name statusp :
  verify_only state ->
  let '(r, s, t) := search_tables tables state usr_attr name statusp in
  not_expanded t /\
  forall table alias_result dict_errno,
    last (up_to_answer tables name) = Some table ->
    dict_get w table name = (Some alias_result, dict_errno) ->
    r = YES /\ s = sent w (msg_attr state) alias_result /\
    last t = Some (EvSent (msg_attr state) alias_result).
Proof.
  intros Hverify. unfold verify_only in Hverify.
  apply Z.eqb_neq in Hverify.
  induction tables as [|table tables IH]; cbn [search_tables up_to_answer].
  { split; [constructor|done]. }
  destruct (dict_get w table name) as [[alias_result|] dict_errno] eqn:Hget.
  - unfold expand_alias. rewrite Hverify. cbn [negb]. split.
    + constructor; [done|]. apply Forall_app. split; [apply not_expanded_found|].
      by repeat constructor.
    + intros table' res e [= <-]. rewrite Hget. intros [= <- _].
      split; [done|]. split; [done|]. by destruct (msg_verbose w).
  - destruct (Z.eqb_spec dict_errno 0) as [->|Hne]; cbn [negb].
    + destruct (search_tables tables state usr_attr name statusp) as [[r s] t].
      destruct IH as [Hquiet Hfound]. split.
      * constructor; [done|]. apply Forall_app. split; [apply not_expanded_found|done].
      * intros table' res e Hlast Hres.
        destruct (up_to_answer tables name) as [|t0 l0] eqn:Hup.
        { injection Hlast as <-. congruence. }
        destruct (Hfound table' res e) as (-> & -> & Ht); [done|done|].
        split; [done|]. split; [done|].
        rewrite app_comm_cons, last_app, Ht. done.
    + split; [by repeat constructor|].
      intros table' res e [= <-]. congruence.
Qed.

(** X12: a verify-only request is never expanded: whatever the tables
    hold, deliver_alias delivers to no alias value and looks up no
    owner- alias; and when the call reaches the tables and the last
    table consulted has an entry for the name, the result is YES, the
    status is that of sent() and the report of sent() ends the run. *)
Theorem deliver_alias_verify_only state usr_attr name statusp
    (Hverify : verify_only state) :
  let '(r, s, t) := deliver_alias state usr_attr name statusp in
  not_expanded t /\
  forall table alias_result dict_errno,
    ~ from_self state name -> level state + 1 <= 100 ->
    last (up_to_answer (alias_maps w) name) = Some table ->
    dict_get w table name = (Some alias_result, dict_errno) ->
    exists attr,
      r = YES /\ s = sent w attr alias_result /\
      last t = Some (EvSent attr alias_result) /\
      exp_from attr = Some name /\ recipient attr = recipient (msg_attr state).
Proof.
  pose proof (from_self_test state name) as Hself.
  unfold deliver_alias. cbn [msg_attr set_level level].
  destruct (match exp_from (msg_attr state) with
            | Some from => strcasecmp from name =? 0
            | None => false
            end) eqn:Htest.
  { split; [destruct (msg_verbose w); by repeat constructor|].
    intros table res e Hnot. destruct Hnot. by apply Hself. }
  destruct (Z.ltb_spec 100 (level state + 1)) as [Hdeep|Hok].
  { split; [|intros; lia]. apply Forall_app.
    split; [destruct (msg_verbose w)|]; by repeat constructor. }
  match goal with |- context [search_tables ?l ?st ?ua ?n ?sp] =>
    pose proof (search_tables_verify_only l st ua n sp Hverify) as Hsearch;
    destruct (search_tables l st ua n sp) as [[r s] t] end.
  destruct Hsearch as [Hquiet Hfound]. split.
  - apply Forall_app. split; [destruct (msg_verbose w); by repeat constructor|done].
  - intros table res e _ _ Hlast Hres.
    destruct (Hfound table res e Hlast Hres) as (-> & -> & Ht).
    eexists. split; [done|]. split; [done|]. split; [|done].
    by rewrite last_app, Ht.
Qed.

(** The alias value was handed on for delivery in this state and with
    these rights. *)
Definition expands_in (t : list event) (st : LOCAL_STATE) (rights : USER_ATTR)
    (expansion : string) : Prop :=
  EvDeliverTokenString st rights expansion ∈ t.

(** The rights of the owner of a table: the default rights when the
    table belongs to root. *)
Definition rights_of_owner (table : string) (rights : USER_ATTR) : Prop :=
  (dict_owner w table = 0 /\ rights = DefaultRights) \/
  (dict_owner w table <> 0 /\ exists pwd,
     mypwuid w (dict_owner w table) = Some pwd /\ rights = RightsOf pwd).

Lemma expand_alias_expands state usr_attr table name alias_result errno_get
    st rights expansion :
  expands_in (expand_alias state usr_attr table name alias_result errno_get).2
             st rights expansion ->
  expansion = alias_result /\ rights_of_owner table rights /\
  level st = level state /\ request_flags st = request_flags state /\
  exp_from (msg_attr st) = exp_from (msg_attr state) /\
  exp_type (msg_attr st) = EXPAND_TYPE_ALIAS w /\
  recipient (msg_attr st) = recipient (msg_attr state) /\
  delivered (msg_attr st) = recipient (msg_attr state) /\
  (var_ownreq_special w = false ->
   owner (msg_attr st) = None /\ sender (msg_attr st) = sender (msg_attr state)).
Proof.
  unfold expands_in, expand_alias, rights_of_owner.
  assert (Hfound : forall e, e ∈ (if msg_verbose w then [EvMsgInfo table name] else [])
                             -> e = EvMsgInfo table name).
  { intros e. destruct (msg_verbose w); [|by intros ?%elem_of_nil].
    by intros ?%list_elem_of_singleton. }
  destruct (negb (Z.land _ _ =? 0)).
  { cbn [snd]. rewrite elem_of_app, list_elem_of_singleton.
    intros [H%Hfound|H]; discriminate. }
  destruct (Z.eqb_spec (dict_owner w table) 0) as [Hroot|Huser];
    [|destruct (mypwuid w (dict_owner w table)) as [pwd|] eqn:Hpwd];
    try (cbn [snd]; rewrite elem_of_app, !elem_of_cons, elem_of_nil;
         intros [H%Hfound|[H|[H|[]]]]; discriminate);
    (destruct (var_ownreq_special w); cbv zeta beta iota;
     [destruct (maps_find w _) as [[rhs|] e]; cbn [fst snd]|];
     (destruct (negb (_ =? 0)); cbv zeta beta iota; cbn [fst snd];
      destruct (_ <? 1); cbn [snd];
      rewrite ?elem_of_app, ?elem_of_cons, ?elem_of_nil;
      intros H; repeat (destruct H as [H|H]; try apply Hfound in H; try done);
      try discriminate; injection H as ? ? ?; subst; cbn;
      (split; [done|]); (split; [eauto 6|]); by repeat split)).
Qed.

Lemma search_tables_expands tables state usr_attr name statusp st rights expansion :
  expands_in (search_tables tables state usr_attr name statusp).2
             st rights expansion ->
  (exists table dict_errno,
      table ∈ tables /\ dict_get w table name = (Some expansion, dict_errno) /\
      rights_of_owner table rights) /\
  level st = level state /\ request_flags st = request_flags state /\
  exp_from (msg_attr st) = exp_from (msg_attr state) /\
  exp_type (msg_attr st) = EXPAND_TYPE_ALIAS w /\
  recipient (msg_attr st) = recipient (msg_attr state) /\
  delivered (msg_attr st) = recipient (msg_attr state) /\
  (var_ownreq_special w = false ->
   owner (msg_attr st) = None /\ sender (msg_attr st) = sender (msg_attr state)).
Proof.
  unfold expands_in.
  induction tables as [|table tables IH]; cbn [search_tables].
  { by intros ?%elem_of_nil. }
  destruct (dict_get w table name) as [[alias_result|] dict_errno] eqn:Hget.
  - pose proof (expand_alias_expands state usr_attr table name alias_result
                  dict_errno st rights expansion) as Hexp.
    unfold expands_in in Hexp.
    destruct (expand_alias _ _ _ _ _ _) as [[r s] t]. cbn [snd] in *.
    intros [?|Hin]%elem_of_cons; [done|].
    destruct (Hexp Hin) as (-> & Hrights & Hrest).
    split; [|done]. exists table, dict_errno. split; [by left|done].
  - destruct (negb (dict_errno =? 0)).
    { cbn [snd]. rewrite !elem_of_cons, elem_of_nil. intros [?|[?|[]]]; done. }
    destruct (search_tables tables state usr_attr name statusp) as [[r s] t].
    cbn [snd] in *. rewrite elem_of_cons, elem_of_app.
    intros [?|[Hin|Hin]]; [done| |].
    { destruct (msg_verbose w); [|by apply elem_of_nil in Hin].
      by apply list_elem_of_singleton in Hin. }
    destruct (IH Hin) as [(tb & e & Htb & Hres & Hrights) Hrest].
    split; [|done]. exists tb, e. split; [by right|done].
Qed.

(** X13: whenever deliver_alias hands an alias value on for delivery,
    the value is the entry of one of the alias tables for the name; it
    is delivered with the rights of the owner of that table (the
    default rights for a table of root), never with the rights of the
    caller; the state handed on has the nesting level raised by one,
    the name as the alias the branch originates from, the alias
    expansion type, and the recipient as the delivered-to address; so a
    lookup of the same name further down that branch returns NO and
    the recipient goes to the local user.  Without the owner- alias
    feature the owner attribute is cleared and the sender kept. *)
Theorem deliver_alias_expansion_state state usr_attr name statusp
    st rights expansion
    (Hexp : expands_in (deliver_alias state usr_attr name statusp).2
                       st rights expansion) :
  (exists table dict_errno,
      table ∈ alias_maps w /\
      dict_get w table name = (Some expansion, dict_errno) /\
      rights_of_owner table rights) /\
  level st = level state + 1 /\
  request_flags st = request_flags state /\
  exp_from (msg_attr st) = Some name /\
  exp_type (msg_attr st) = EXPAND_TYPE_ALIAS w /\
  recipient (msg_attr st) = recipient (msg_attr state) /\
  delivered (msg_attr st) = recipient (msg_attr state) /\
  (var_ownreq_special w = false ->
   owner (msg_attr st) = None /\ sender (msg_attr st) = sender (msg_attr state)) /\
  (forall usr_attr' statusp',
      exists t, deliver_alias st usr_attr' name statusp' = (NO, statusp', t) /\
                no_expansion t).
Proof.
  assert (Hfound : forall e, e ∈ (if msg_verbose w then [EvLogState (level state + 1)] else [])
                             -> e = EvLogState (level state + 1)).
  { intros e. destruct (msg_verbose w); [|by intros ?%elem_of_nil].
    by intros ?%list_elem_of_singleton. }
  unfold expands_in, deliver_alias in Hexp. cbn [msg_attr set_level level] in Hexp.
  destruct (match exp_from (msg_attr state) with
            | Some from => strcasecmp from name =? 0
            | None => false
            end).
  { cbn [snd] in Hexp. by apply Hfound in Hexp. }
  destruct (100 <? level state + 1).
  { cbn [snd] in Hexp. rewrite elem_of_app, !elem_of_cons, elem_of_nil in Hexp.
    destruct Hexp as [H%Hfound|[H|[H|[]]]]; discriminate. }
  match type of Hexp with context [search_tables ?l ?st0 ?ua ?n ?sp] =>
    pose proof (search_tables_expands l st0 ua n sp st rights expansion) as Hsearch;
    destruct (search_tables l st0 ua n sp) as [[r s] t] end.
  cbn [snd] in *. apply elem_of_app in Hexp as [H%Hfound|Hin]; [discriminate|].
  destruct (Hsearch Hin) as (Htable & Hlevel & Hflags & Hfrom & Htype & Hrcpt & Hdel & Hown).
  cbn in Hlevel, Hflags, Hfrom, Hrcpt, Hdel, Hown.
  do 8 (split; [done|]).
  intros usr_attr' statusp'.
  assert (Hself : match exp_from (msg_attr st) with
                  | Some from => strcasecmp from name =? 0
                  | None => false
                  end = true).
  { rewrite Hfrom. by rewrite strcasecmp_refl. }
  unfold deliver_alias. cbn [msg_attr set_level level]. rewrite Hself.
  eexists. split; [reflexivity|].
  destruct (msg_verbose w); by repeat constructor.
Qed.

(** X14: the delivery rights that the caller passes to deliver_alias
    have no influence on what it does. *)
Theorem deliver_alias_ignores_caller_rights state name statusp rights1 rights2 :
  deliver_alias state rights1 name statusp =
  deliver_alias state rights2 name statusp.
Proof.
  unfold deliver_alias.
  assert (Hsearch : forall tables st,
    search_tables tables st rights1 name statusp =
    search_tables tables st rights2 name statusp).
  { intros tables st. induction tables as [|table tables IH]; cbn [search_tables]; [done|].
    rewrite IH. by destruct (dict_get w table name) as [[alias_result|] dict_errno]. }
  by rewrite Hsearch.
Qed.

End DeliverAlias.




(** A system with one alias table, owned by root, that maps
    "postmaster" to "root"; a top-level delivery, the same as a
    verify-only request, and the state in which the alias value is
    handed on. *)
Definition one_table : world :=
  {| msg_verbose := false; alias_maps := ["aliases"%string];
     dict_get := fun _ name =>
       if String.eqb name "postmaster" then (Some "root"%string, 0) else (None, 0);
     dict_owner := fun _ => 0;
     mypwuid := fun _ => None; maps_find := fun _ => (None, 0);
     canon_addr_internal := fun s => s;
     deliver_token_string := fun _ _ _ => (0, 1);
     bounce_append := fun _ _ => 0; defer_append := fun _ _ => 0;
     sent := fun _ _ => 0;
     var_ownreq_special := false; var_exp_own_alias := false;
     EXPAND_TYPE_ALIAS := 1; DEL_REQ_FLAG_VERIFY := 256 |}.

Definition top_attr : MSG_ATTR :=
  {| exp_from := None; exp_type := 0;
     recipient := "postmaster@example.com";
     delivered := "";
     sender := "someone@example.org"; owner := None |}.

Definition top_state : LOCAL_STATE :=
  {| level := 0; msg_attr := top_attr; request_flags := 0 |}.

Definition probe_state : LOCAL_STATE :=
  {| level := 0; msg_attr := top_attr; request_flags := 256 |}.

Definition expanding_state : LOCAL_STATE :=
  {| level := 1;
     msg_attr := {| exp_from := Some "postmaster"%string; exp_type := 1;
                    recipient := "postmaster@example.com";
                    delivered := "postmaster@example.com";
                    sender := "someone@example.org"; owner := None |};
     request_flags := 0 |}.


Lemma deliver_alias_verify_only_witness :
  let '(r, s, t) := deliver_alias one_table probe_state DefaultRights "postmaster" 0 in
  not_expanded t /\
  forall table alias_result dict_errno,
    ~ from_self probe_state "postmaster" -> level probe_state + 1 <= 100 ->
    last (up_to_answer one_table (alias_maps one_table) "postmaster") = Some table ->
    dict_get one_table table "postmaster" = (Some alias_result, dict_errno) ->
    exists attr,
      r = YES /\ s = sent one_table attr alias_result /\
      last t = Some (EvSent attr alias_result) /\
      exp_from attr = Some "postmaster"%string /\
      recipient attr = recipient (msg_attr probe_state).
Proof.
  apply (deliver_alias_verify_only one_table probe_state DefaultRights
           "postmaster" 0).
  unfold verify_only. cbn. discriminate.
Defined.

Lemma deliver_alias_expansion_state_witness :
  (exists table dict_errno,
      table ∈ alias_maps one_table /\
      dict_get one_table table "postmaster" = (Some "root"%string, dict_errno) /\
      rights_of_owner one_table table DefaultRights) /\
  level expanding_state = level top_state + 1 /\
  request_flags expanding_state = request_flags top_state /\
  exp_from (msg_attr expanding_state) = Some "postmaster"%string /\
  exp_type (msg_attr expanding_state) = EXPAND_TYPE_ALIAS one_table /\
  recipient (msg_attr expanding_state) = recipient (msg_attr top_state) /\
  delivered (msg_attr expanding_state) = recipient (msg_attr top_state) /\
  (var_ownreq_special one_table = false ->
   owner (msg_attr expanding_state) = None /\
   sender (msg_attr expanding_state) = sender (msg_attr top_state)) /\
  (forall usr_attr' statusp',
      exists t, deliver_alias one_table expanding_state usr_attr' "postmaster" statusp'
                  = (NO, statusp', t) /\
                no_expansion t).
Proof.
  apply (deliver_alias_expansion_state one_table top_state DefaultRights
           "postmaster" 0 expanding_state DefaultRights "root").
  unfold expands_in. apply list_elem_of_In. vm_compute. right. left. reflexivity.
Defined.

End Alias.

(** ** global/bounce_log.c *)

Module BounceLog.

Definition byte_eqb (a b : ascii) : bool := Ascii.eqb a b.

Definition NUL : ascii := "000"%char.
Definition NL : ascii := "010"%char.

(** A stream open for update on a logfile: the bytes of the file and the
    position of the next read or write. *)
Record VSTREAM : Type := {
  data : list ascii;
  pos : nat
}.

(** The handle; its line buffer is scratch space that no caller sees
    and is left out. *)
Record BOUNCE_LOG : Type := {
  fp : VSTREAM;
  recipient : list ascii;
  status : string;
  text : list ascii;
  offset : Z
}.

Definition vstream_ftell (s : VSTREAM) : Z := Z.of_nat (pos s).

(** vstream_fseek(fp, offset, SEEK_SET); fails on a negative offset. *)
Definition vstream_fseek (s : VSTREAM) (off : Z) : option VSTREAM :=
  if off <? 0 then None
  else Some {| data := data s; pos := Z.to_nat off |}.

(** A byte written at a position overwrites the byte there, or extends
    the file when the position is at or past its end. *)
Definition store_byte (p : nat) (c : ascii) (d : list ascii) : list ascii :=
  if (p <? length d)%nat then <[p := c]> d
  else d ++ replicate (p - length d) NUL ++ [c].

Definition VSTREAM_PUTC (c : ascii) (s : VSTREAM) : VSTREAM :=
  {| data := store_byte (pos s) c (data s); pos := S (pos s) |}.

(** The loop of vstring_get_nonl(): the bytes up to the next newline or
    the end of the file, how many bytes were consumed, and whether the
    newline was seen. *)
Fixpoint get_nonl (l : list ascii) : list ascii * nat * bool :=
  match l with
  | [] => ([], O, false)
  | c :: l' =>
      if byte_eqb c NL then ([], 1%nat, true)
      else let '(line, k, nl) := get_nonl l' in (c :: line, S k, nl)
  end.

(** The C string held in a buffer ends at its first null byte. *)
Fixpoint c_str (l : list ascii) : list ascii :=
  match l with
  | [] => []
  | c :: l' => if byte_eqb c NUL then [] else c :: c_str l'
  end.

(** printable(): every byte that is not a printable ASCII character is
    replaced. *)
Definition ISPRINT (c : ascii) : bool :=
  let n := nat_of_ascii c in (32 <=? n)%nat && (n <=? 126)%nat.

Definition printable (l : list ascii) (replacement : ascii) : list ascii :=
  map (fun c => if ISPRINT c then c else replacement) l.

Definition ISSPACE (c : ascii) : bool :=
  let n := nat_of_ascii c in (n =? 32)%nat || ((9 <=? n)%nat && (n <=? 13)%nat).

Fixpoint is_prefix (p l : list ascii) : bool :=
  match p, l with
  | [], _ => true
  | _ :: _, [] => false
  | a :: p', b :: l' => byte_eqb a b && is_prefix p' l'
  end.

(** strstr(): the bytes before the first occurrence of the pattern and
    the bytes from the occurrence on. *)
Fixpoint strstr (l pat : list ascii) : option (list ascii * list ascii) :=
  if is_prefix pat l then Some ([], l)
  else match l with
       | [] => None
       | c :: l' =>
           match strstr l' pat with
           | Some (before, found) => Some (c :: before, found)
           | None => None
           end
       end.

Fixpoint skip_space (l : list ascii) : list ascii :=
  match l with
  | c :: l' => if ISSPACE c then skip_space l' else l
  | [] => []
  end.

Inductive event : Type :=
| EvWarnMalformed (record : list ascii).

Section Log.

(** The mark of a deleted record, from bounce_log.h. *)
Variable BOUNCE_LOG_STAT_DELETED : ascii.

Definition first_is (c : ascii) (l : list ascii) : bool :=
  match l with
  | c' :: _ => byte_eqb c' c
  | [] => false
  end.

(** One pass through the loop body skips the record or returns it. *)
Inductive verdict : Type :=
| Skip (warnings : list event)
| Accept (recipient text : list ascii).

(** The loop condition: note the offset, read a line. *)
Definition next_line (bp : BOUNCE_LOG) : BOUNCE_LOG * list ascii * bool :=
  let off := vstream_ftell (fp bp) in
  let '(line, k, nl) := get_nonl (drop (pos (fp bp)) (data (fp bp))) in
  ({| fp := {| data := data (fp bp); pos := (pos (fp bp) + k)%nat |};
      recipient := recipient bp; status := status bp; text := text bp;
      offset := off |},
   line,
   negb nl && match line with [] => true | _ => false end).

(** The loop body, on the line just read. *)
Definition examine (line : list ascii) : verdict :=
  match c_str line with
  | [] => Skip []
  | _ :: _ =>
      let cp := printable (c_str line) "?"%char in
      if first_is BOUNCE_LOG_STAT_DELETED cp then Skip []
      else if negb (first_is "<"%char cp) then Skip [EvWarnMalformed cp]
      else
        let rcpt := tail cp in
        match strstr rcpt [">"; ":"; " "]%char with
        | None => Skip [EvWarnMalformed []]
        | Some (before, found) =>
            Accept (match before with
                    | [] => list_ascii_of_string "(MAILER-DAEMON)"
                    | _ :: _ => before
                    end)
                   (skip_space (drop 2 found))
        end
  end.

(** The loop of bounce_log_read, with [n] bounding the records that are
    left in the file. *)
Fixpoint read_loop (n : nat) (bp : BOUNCE_LOG)
    : option (option BOUNCE_LOG * BOUNCE_LOG * list event) :=
  let '(bp, line, eof) := next_line bp in
  if eof then Some (None, bp, [])
  else
    match examine line with
    | Accept rcpt txt =>
        let bp := {| fp := fp bp; recipient := rcpt; status := status bp;
                     text := txt; offset := offset bp |} in
        Some (Some bp, bp, [])
    | Skip t =>
        match n with
        | O => None
        | S n' =>
            match read_loop n' bp with
            | Some (r, bp', t') => Some (r, bp', t ++ t')
            | None => None
            end
        end
    end.

(** bounce_log_read - read one record from bounce log file.  The result
    is the returned handle (none at the end of the file), the handle as
    the call leaves it, and the warnings. *)
Definition bounce_log_read (bp : BOUNCE_LOG)
    : option (option BOUNCE_LOG * BOUNCE_LOG * list event) :=
  read_loop (length (data (fp bp)) - pos (fp bp)) bp.

(** bounce_log_delrcpt - mark recipient record as deleted; a failing
    seek is fatal. *)
Definition bounce_log_delrcpt (bp : BOUNCE_LOG) : option BOUNCE_LOG :=
  let current_offset := vstream_ftell (fp bp) in
  match vstream_fseek (fp bp) (offset bp) with
  | None => None
  | Some s =>
      let s := VSTREAM_PUTC BOUNCE_LOG_STAT_DELETED s in
      match vstream_fseek s current_offset with
      | None => None
      | Some s =>
          Some {| fp := s; recipient := recipient bp; status := status bp;
                  text := text bp; offset := offset bp |}
      end
  end.

(** The byte of the file at an offset. *)
Definition byte_at (bp : BOUNCE_LOG) (off : Z) : option ascii :=
  data (fp bp) !! Z.to_nat off.

Definition remaining (bp : BOUNCE_LOG) : nat :=
  length (data (fp bp)) - pos (fp bp).

Lemma byte_eqb_eq a b : byte_eqb a b = true <-> a = b.
Proof. apply Ascii.eqb_eq. Qed.

Lemma get_nonl_consumed l :
  let '(line, k, nl) := get_nonl l in
  (k <= length l)%nat /\
  (negb nl && match line with [] => true | _ => false end = false -> (1 <= k)%nat) /\
  (forall c line', line = c :: line' -> exists l', l = c :: l').
Proof.
  induction l as [|c l IH]; cbn; [repeat split; try done; lia|].
  destruct (byte_eqb c NL).
  - repeat split; try done; lia.
  - destruct (get_nonl l) as [[line k] nl]. destruct IH as (Hk & _ & _).
    repeat split; try lia. intros c' line' [= <- _]. by exists l.
Qed.

Lemma next_line_spec bp :
  let '(bp1, line, eof) := next_line bp in
  data (fp bp1) = data (fp bp) /\
  offset bp1 = vstream_ftell (fp bp) /\
  (eof = false -> (remaining bp1 < remaining bp)%nat) /\
  (forall c line', line = c :: line' -> data (fp bp) !! pos (fp bp) = Some c).
Proof.
  unfold next_line, remaining.
  pose proof (get_nonl_consumed (drop (pos (fp bp)) (data (fp bp)))) as H.
  destruct (get_nonl _) as [[line k] nl]. destruct H as (Hk & Hone & Hfirst).
  cbn. rewrite length_drop in Hk. repeat split.
  - intros Heof. specialize (Hone Heof). lia.
  - intros c line' Hline. destruct (Hfirst _ _ Hline) as [l' Hl'].
    apply (f_equal (fun l => l !! 0%nat)) in Hl'.
    rewrite lookup_drop, Nat.add_0_r in Hl'. done.
Qed.

Lemma read_loop_eq n bp :
  read_loop n bp =
  let '(bp, line, eof) := next_line bp in
  if eof then Some (None, bp, [])
  else
    match examine line with
    | Accept rcpt txt =>
        let bp := {| fp := fp bp; recipient := rcpt; status := status bp;
                     text := txt; offset := offset bp |} in
        Some (Some bp, bp, [])
    | Skip t =>
        match n with
        | O => None
        | S n' =>
            match read_loop n' bp with
            | Some (r, bp', t') => Some (r, bp', t ++ t')
            | None => None
            end
        end
    end.
Proof. by destruct n. Qed.

Lemma read_loop_total n bp :
  (remaining bp <= n)%nat -> is_Some (read_loop n bp).
Proof.
  revert bp. induction n as [|n IH]; intros bp Hn; rewrite read_loop_eq;
    pose proof (next_line_spec bp) as Hnext;
    destruct (next_line bp) as [[bp1 line] eof];
    destruct Hnext as (_ & _ & Hrem & _);
    (destruct eof; [done|]); specialize (Hrem eq_refl);
    (destruct (examine line); [|done]).
  - lia.
  - destruct (IH bp1 ltac:(lia)) as [[[r bp'] t'] ->]. done.
Qed.

Lemma read_loop_more_fuel n m bp r :
  read_loop n bp = Some r -> (n <= m)%nat -> read_loop m bp = Some r.
Proof.
  revert m bp r. induction n as [|n IH]; intros m bp r;
    rewrite (read_loop_eq _ bp), (read_loop_eq m bp);
    destruct (next_line bp) as [[bp1 line] eof];
    (destruct eof; [done|]); (destruct (examine line); [|done]); [done|].
  intros Hrun Hm. destruct m as [|m]; [lia|].
  destruct (read_loop n bp1) as [[[r0 bp'] t']|] eqn:Hn; [|done].
  by rewrite (IH m bp1 _ Hn ltac:(lia)).
Qed.

Lemma read_loop_enough n bp :
  (remaining bp <= n)%nat -> read_loop n bp = bounce_log_read bp.
Proof.
  intros Hn. unfold bounce_log_read. fold (remaining bp).
  destruct (read_loop_total (remaining bp) bp ltac:(lia)) as [r Hr].
  rewrite Hr. by apply (read_loop_more_fuel (remaining bp)).
Qed.

Lemma examine_accept line rcpt txt :
  examine line = Accept rcpt txt -> exists line', line = "<"%char :: line'.
Proof.
  unfold examine. destruct line as [|c line]; [done|]. cbn [c_str].
  destruct (byte_eqb c NUL); [done|]. cbn [printable map first_is].
  destruct (byte_eqb _ BOUNCE_LOG_STAT_DELETED); [done|].
  destruct (byte_eqb _ "<"%char) eqn:Hlt; [|done].
  intros _. exists line. f_equal.
  destruct (ISPRINT c); apply byte_eqb_eq in Hlt; [done|discriminate].
Qed.

Lemma examine_deleted line :
  ISPRINT BOUNCE_LOG_STAT_DELETED = true ->
  examine (BOUNCE_LOG_STAT_DELETED :: line) = Skip [].
Proof.
  intros Hprint. unfold examine. cbn [c_str].
  destruct (byte_eqb BOUNCE_LOG_STAT_DELETED NUL) eqn:Hnul; [done|].
  cbn [printable map first_is]. rewrite Hprint.
  by rewrite (proj2 (byte_eqb_eq _ _) eq_refl).
Qed.

Lemma next_line_first bp c :
  data (fp bp) !! pos (fp bp) = Some c -> c <> NL ->
  exists bp1 line', next_line bp = (bp1, c :: line', false).
Proof.
  intros Hc Hnl. unfold next_line.
  assert (Hdrop : exists rest, drop (pos (fp bp)) (data (fp bp)) = c :: rest).
  { exists (drop (S (pos (fp bp))) (data (fp bp))). by apply drop_S. }
  destruct Hdrop as [rest ->]. cbn [get_nonl].
  destruct (byte_eqb c NL) eqn:Heq; [by apply byte_eqb_eq in Heq|].
  destruct (get_nonl rest) as [[line k] nl]. rewrite andb_false_r. eauto.
Qed.

Lemma read_loop_accept n bp r bp' t :
  read_loop n bp = Some (Some r, bp', t) ->
  r = bp' /\ data (fp r) = data (fp bp) /\
  byte_at r (offset r) = Some "<"%char.
Proof.
  revert bp t. induction n as [|n IH]; intros bp t; rewrite read_loop_eq;
    pose proof (next_line_spec bp) as Hnext;
    destruct (next_line bp) as [[bp1 line] eof];
    destruct Hnext as (Hdata & Hoff & _ & Hfirst);
    (destruct eof; [done|]);
    (destruct (examine line) as [w|rcpt txt] eqn:Hex; [|
      destruct (examine_accept _ _ _ Hex) as [line' ->];
      intros [= <- <- _]; repeat split; [done|];
      unfold byte_at; cbn; rewrite Hdata, Hoff; unfold vstream_ftell;
      rewrite Nat2Z.id; by eapply Hfirst]).
  - done.
  - destruct (read_loop n bp1) as [[[r0 bp0] t0]|] eqn:Hrun; [|done].
    intros [= -> -> _]. destruct (IH _ _ Hrun) as (? & ? & ?).
    repeat split; [done|congruence|done].
Qed.

Lemma store_byte_lookup p c d : store_byte p c d !! p = Some c.
Proof.
  unfold store_byte. destruct (Nat.ltb_spec p (length d)) as [Hin|Hout].
  - by apply list_lookup_insert_eq.
  - rewrite lookup_app_r by lia.
    rewrite lookup_app_r by (rewrite length_replicate; lia).
    rewrite length_replicate.
    by replace (p - length d - (p - length d))%nat with 0%nat by lia.
Qed.

Lemma store_byte_twice p c d :
  store_byte p c (store_byte p c d) = store_byte p c d.
Proof.
  pose proof (store_byte_lookup p c d) as Hp.
  pose proof (lookup_lt_Some _ _ _ Hp) as Hlt.
  unfold store_byte at 1.
  destruct (Nat.ltb_spec p (length (store_byte p c d))) as [_|]; [|lia].
  by apply list_insert_id.
Qed.

Lemma delrcpt_run bp :
  bounce_log_delrcpt bp =
  if offset bp <? 0 then None
  else Some {| fp := {| data := store_byte (Z.to_nat (offset bp))
                                  BOUNCE_LOG_STAT_DELETED (data (fp bp));
                        pos := pos (fp bp) |};
               recipient := recipient bp; status := status bp;
               text := text bp; offset := offset bp |}.
Proof.
  unfold bounce_log_delrcpt, vstream_fseek, vstream_ftell, VSTREAM_PUTC.
  destruct (offset bp <? 0); [done|].
  destruct (Z.ltb_spec (Z.of_nat (pos (fp bp))) 0) as [|_]; [lia|].
  cbn [data pos]. by rewrite Nat2Z.id.
Qed.

Lemma delrcpt_twice bp bp1 :
  bounce_log_delrcpt bp = Some bp1 -> bounce_log_delrcpt bp1 = Some bp1.
Proof.
  rewrite !delrcpt_run. destruct (offset bp <? 0) eqn:Hoff; [done|].
  intros [= <-]. cbn [offset fp data pos recipient status text].
  by rewrite Hoff, store_byte_twice.
Qed.

Lemma delrcpt_marks bp bp1 :
  bounce_log_delrcpt bp = Some bp1 ->
  byte_at bp1 (offset bp) = Some BOUNCE_LOG_STAT_DELETED /\
  pos (fp bp1) = pos (fp bp) /\ offset bp1 = offset bp.
Proof.
  rewrite delrcpt_run. destruct (offset bp <? 0); [done|].
  intros [= <-]. unfold byte_at. cbn. by rewrite store_byte_lookup.
Qed.

Lemma read_deleted bp :
  ISPRINT BOUNCE_LOG_STAT_DELETED = true ->
  byte_at bp (vstream_ftell (fp bp)) = Some BOUNCE_LOG_STAT_DELETED ->
  bounce_log_read bp = bounce_log_read (next_line bp).1.1.
Proof.
  intros Hprint. unfold byte_at, vstream_ftell. rewrite Nat2Z.id. intros Hbyte.
  assert (Hnl : BOUNCE_LOG_STAT_DELETED <> NL) by (by intros Heq; rewrite Heq in Hprint).
  destruct (next_line_first bp _ Hbyte Hnl) as (bp1 & line' & Hnext).
  pose proof (next_line_spec bp) as Hspec. rewrite Hnext in Hspec.
  destruct Hspec as (_ & _ & Hrem & _). specialize (Hrem eq_refl).
  unfold bounce_log_read at 1. fold (remaining bp).
  rewrite read_loop_eq, Hnext, (examine_deleted _ Hprint). cbn [fst].
  destruct (remaining bp) as [|n] eqn:Hn; [lia|].
  rewrite (read_loop_enough n bp1) by lia.
  by destruct (bounce_log_read bp1) as [[[r bp'] t']|].
Qed.

(** C9: marking the last accessed record as deleted twice leaves the
    handle and the file as marking it once does, the byte at the saved
    offset then being the mark; bounce_log_read always returns, the
    record it returns starts with "<" in the file and so is never one
    whose first byte is the mark, and a read positioned at a record
    whose first byte is the mark gives what a read positioned after
    that record gives. *)
Theorem tombstone_idempotent_and_skipped
    (Hprint : ISPRINT BOUNCE_LOG_STAT_DELETED = true)
    (Hmark : BOUNCE_LOG_STAT_DELETED <> "<"%char) :
  (forall bp bp1,
      bounce_log_delrcpt bp = Some bp1 ->
      bounce_log_delrcpt bp1 = Some bp1 /\
      byte_at bp1 (offset bp) = Some BOUNCE_LOG_STAT_DELETED) /\
  (forall bp, 0 <= offset bp -> is_Some (bounce_log_delrcpt bp)) /\
  (forall bp, is_Some (bounce_log_read bp)) /\
  (forall bp r bp' t,
      bounce_log_read bp = Some (Some r, bp', t) ->
      byte_at bp (offset r) = Some "<"%char /\
      byte_at bp (offset r) <> Some BOUNCE_LOG_STAT_DELETED) /\
  (forall bp,
      byte_at bp (vstream_ftell (fp bp)) = Some BOUNCE_LOG_STAT_DELETED ->
      bounce_log_read bp = bounce_log_read (next_line bp).1.1).
Proof.
  split; [|split; [|split; [|split]]].
  - intros bp bp1 Hdel. split; [by apply (delrcpt_twice bp)|].
    by destruct (delrcpt_marks _ _ Hdel).
  - intros bp Hoff. rewrite delrcpt_run.
    destruct (Z.ltb_spec (offset bp) 0); [lia|done].
  - intros bp. apply read_loop_total. unfold remaining. lia.
  - intros bp r bp' t Hread.
    destruct (read_loop_accept _ _ _ _ _ Hread) as (_ & Hdata & Hlt).
    unfold byte_at in *. rewrite <- Hdata, Hlt. split; congruence.
  - intros bp. by apply read_deleted.
Qed.

(** Printable ASCII throughout. *)
Definition sanitized (l : list ascii) : Prop :=
  Forall (fun c => ISPRINT c = true) l.

(** The text does not begin with white space. *)
Definition no_leading_space (l : list ascii) : Prop :=
  match l with
  | c :: _ => ISSPACE c = false
  | [] => True
  end.

(** What follows a line in the file: the end of the file or a newline. *)
Definition line_end (after : list ascii) : Prop :=
  after = [] \/ exists rest, after = NL :: rest.

Lemma next_line_fields bp :
  exists line k nl,
    get_nonl (drop (pos (fp bp)) (data (fp bp))) = (line, k, nl) /\
    next_line bp =
      ({| fp := {| data := data (fp bp); pos := (pos (fp bp) + k)%nat |};
          recipient := recipient bp; status := status bp; text := text bp;
          offset := Z.of_nat (pos (fp bp)) |},
       line, negb nl && match line with [] => true | _ => false end).
Proof.
  unfold next_line, vstream_ftell.
  destruct (get_nonl _) as [[line k] nl]. by exists line, k, nl.
Qed.

(** The record that a read returns was accepted by the loop body on a
    line of the file that starts at the saved offset. *)
Lemma read_loop_record n bp r bp' t :
  read_loop n bp = Some (Some r, bp', t) ->
  exists p line k nl,
    get_nonl (drop p (data (fp bp))) = (line, k, nl) /\
    examine line = Accept (recipient r) (text r) /\
    r = {| fp := {| data := data (fp bp); pos := (p + k)%nat |};
           recipient := recipient r; status := status bp; text := text r;
           offset := Z.of_nat p |} /\
    bp' = r.
Proof.
  revert bp t. induction n as [|n IH]; intros bp t; rewrite read_loop_eq;
    destruct (next_line_fields bp) as (line & k & nl & Hget & ->);
    (destruct (negb nl && _); [done|]);
    destruct (examine line) as [w|rcpt txt] eqn:Hex.
  - done.
  - intros [= <- <- _]. by exists (pos (fp bp)), line, k, nl.
  - match goal with |- context [read_loop n ?b] =>
      destruct (read_loop n b) as [[[r0 bp0] t0]|] eqn:Hrun; [|done] end.
    intros [= -> -> _]. destruct (IH _ _ Hrun) as (p & line' & k' & nl' & H).
    by exists p, line', k', nl'.
  - intros [= <- <- _]. by exists (pos (fp bp)), line, k, nl.
Qed.

Lemma printable_sanitized l : sanitized (printable l "?"%char).
Proof.
  unfold sanitized, printable. apply Forall_forall. intros c Hc.
  apply list_elem_of_fmap in Hc as (c0 & -> & _).
  by destruct (ISPRINT c0) eqn:Hp.
Qed.

Lemma strstr_parts l pat before found :
  strstr l pat = Some (before, found) ->
  l = before ++ found /\ is_prefix pat found = true.
Proof.
  revert before found. induction l as [|c l IH]; intros before found; cbn [strstr].
  - destruct (is_prefix pat []) eqn:Hp; [|done]. by intros [= <- <-].
  - destruct (is_prefix pat (c :: l)) eqn:Hp; [by intros [= <- <-]|].
    destruct (strstr l pat) as [[b f]|]; [|done]. intros [= <- <-].
    destruct (IH b f eq_refl) as [-> Hf]. by split.
Qed.

Lemma skip_space_suffix l :
  (exists spaces, l = spaces ++ skip_space l) /\ no_leading_space (skip_space l).
Proof.
  induction l as [|c l [[spaces IH] Hhead]]; cbn [skip_space].
  - split; [by exists []|done].
  - destruct (ISSPACE c) eqn:Hc.
    + split; [|done]. exists (c :: spaces). cbn. by rewrite <- IH.
    + split; [by exists []|done].
Qed.

Lemma examine_sanitized line rcpt txt :
  examine line = Accept rcpt txt ->
  rcpt <> [] /\ sanitized rcpt /\ sanitized txt /\ no_leading_space txt.
Proof.
  unfold examine. destruct (c_str line) as [|c0 l0]; [done|].
  pose proof (printable_sanitized (c0 :: l0)) as Hsane.
  destruct (printable (c0 :: l0) "?"%char) as [|c cp]; [done|].
  destruct (first_is BOUNCE_LOG_STAT_DELETED (c :: cp)); [done|].
  destruct (negb (first_is "<"%char (c :: cp))); [done|]. cbn [tail].
  destruct (strstr cp [">"; ":"; " "]%char) as [[before found]|] eqn:Hstr; [|done].
  intros [= <- <-]. apply strstr_parts in Hstr as [-> _].
  apply Forall_cons in Hsane as [_ Hsane]. apply Forall_app in Hsane as [Hb Hf].
  destruct (skip_space_suffix (drop 2 found)) as [[spaces Hsp] Hhead].
  assert (Hdrop : sanitized (drop 2 found)).
  { unfold sanitized. rewrite <- (take_drop 2 found) in Hf.
    by apply Forall_app in Hf as [_ ?]. }
  unfold sanitized in Hdrop. rewrite Hsp in Hdrop.
  apply Forall_app in Hdrop as [_ Hskip].
  split; [|split; [|by split]].
  - destruct before; [by vm_compute|done].
  - destruct before; [|done]. unfold sanitized. by vm_compute; repeat constructor.
Qed.

(** X5: whatever the logfile holds, a record returned by
    bounce_log_read has a non-empty recipient, its recipient and its
    text consist of printable ASCII characters only, its text does not
    begin with white space, it carries the status of the handle, and
    the returned handle is the handle as the call leaves it. *)
Theorem bounce_log_read_sanitized bp r bp' t :
  bounce_log_read bp = Some (Some r, bp', t) ->
  recipient r <> [] /\ sanitized (recipient r) /\ sanitized (text r) /\
  no_leading_space (text r) /\ status r = status bp /\ bp' = r.
Proof.
  intros Hread. apply read_loop_record in Hread
    as (p & line & k & nl & _ & Hex & Hr & ->).
  destruct (examine_sanitized _ _ _ Hex) as (Hne & Hrcpt & Htxt & Hsp).
  repeat split; try done. by rewrite Hr.
Qed.

Lemma sanitized_not_NL c : ISPRINT c = true -> byte_eqb c NL = false.
Proof.
  intros Hc. destruct (byte_eqb c NL) eqn:Heq; [|done].
  apply byte_eqb_eq in Heq. by rewrite Heq in Hc.
Qed.

Lemma sanitized_not_NUL c : ISPRINT c = true -> byte_eqb c NUL = false.
Proof.
  intros Hc. destruct (byte_eqb c NUL) eqn:Heq; [|done].
  apply byte_eqb_eq in Heq. by rewrite Heq in Hc.
Qed.

Lemma get_nonl_line line after :
  sanitized line -> line_end after ->
  get_nonl (line ++ after) =
    (line, (length line + match after with [] => 0 | _ :: _ => 1 end)%nat,
     match after with [] => false | _ :: _ => true end).
Proof.
  intros Hline Hend. induction Hline as [|c line Hc _ IH]; cbn [app length].
  - destruct Hend as [->|[rest ->]]; [done|]. cbn [get_nonl].
    by rewrite (proj2 (byte_eqb_eq NL NL) eq_refl).
  - cbn [get_nonl]. by rewrite (sanitized_not_NL c Hc), IH.
Qed.

Lemma c_str_sanitized l : sanitized l -> c_str l = l.
Proof.
  induction 1 as [|c l Hc _ IH]; cbn [c_str]; [done|].
  by rewrite (sanitized_not_NUL c Hc), IH.
Qed.

Lemma printable_id l replacement : sanitized l -> printable l replacement = l.
Proof.
  unfold printable. induction 1 as [|c l Hc _ IH]; cbn [map]; [done|].
  by rewrite Hc, IH.
Qed.

Lemma strstr_first rcpt rest :
  ">"%char ∉ rcpt ->
  strstr (rcpt ++ [">"; ":"; " "]%char ++ rest) [">"; ":"; " "]%char =
    Some (rcpt, [">"; ":"; " "]%char ++ rest).
Proof.
  intros Hgt. induction rcpt as [|c rcpt IH].
  - cbn [app]. destruct rest; reflexivity.
  - apply not_elem_of_cons in Hgt as [Hc Hgt].
    cbn [app strstr is_prefix].
    destruct (byte_eqb ">"%char c) eqn:Heq.
    { apply byte_eqb_eq in Heq. by destruct Hc. }
    cbn [andb]. cbn [app] in IH. by rewrite (IH Hgt).
Qed.

Lemma skip_space_id l : no_leading_space l -> skip_space l = l.
Proof. destruct l as [|c l]; [done|]. cbn. by intros ->. Qed.

Lemma examine_record rcpt txt :
  BOUNCE_LOG_STAT_DELETED <> "<"%char ->
  sanitized rcpt -> ">"%char ∉ rcpt -> sanitized txt -> no_leading_space txt ->
  sanitized ("<"%char :: rcpt ++ [">"; ":"; " "]%char ++ txt) /\
  examine ("<"%char :: rcpt ++ [">"; ":"; " "]%char ++ txt) =
    Accept (match rcpt with
            | [] => list_ascii_of_string "(MAILER-DAEMON)"
            | _ :: _ => rcpt
            end) txt.
Proof.
  intros Hmark Hrcpt Hgt Htxt Hsp.
  assert (Hline : sanitized ("<"%char :: rcpt ++ [">"; ":"; " "]%char ++ txt)).
  { constructor; [done|]. apply Forall_app. split; [done|].
    apply Forall_app. split; [by repeat constructor|done]. }
  split; [done|].
  unfold examine. rewrite (c_str_sanitized _ Hline), (printable_id _ _ Hline).
  cbn [first_is tail].
  destruct (byte_eqb "<"%char BOUNCE_LOG_STAT_DELETED) eqn:Heq.
  { apply byte_eqb_eq in Heq. by destruct Hmark. }
  rewrite (proj2 (byte_eqb_eq "<"%char "<"%char) eq_refl). cbn [negb].
  rewrite (strstr_first rcpt txt Hgt). cbn [app drop skip_space].
  replace (ISSPACE " "%char) with true by reflexivity.
  by rewrite (skip_space_id txt Hsp).
Qed.

(** X6: a line of the form "<recipient>: text", in printable ASCII,
    with no ">" in the recipient and no white space at the start of the
    text, that ends at a newline or at the end of the file, is read
    back as that recipient and that text: bounce_log_read returns the
    handle with no warning, the recipient "(MAILER-DAEMON)" standing
    for an empty one, the saved offset that of the "<", the position
    after the line and its newline, and the file and the status as they
    were. *)
Theorem bounce_log_read_record bp rcpt txt after
    (Hmark : BOUNCE_LOG_STAT_DELETED <> "<"%char)
    (Hfile : drop (pos (fp bp)) (data (fp bp)) =
             ("<"%char :: rcpt ++ [">"; ":"; " "]%char ++ txt) ++ after)
    (Hend : line_end after)
    (Hrcpt : sanitized rcpt) (Hgt : ">"%char ∉ rcpt)
    (Htxt : sanitized txt) (Hsp : no_leading_space txt) :
  let r := {| fp := {| data := data (fp bp);
                       pos := (pos (fp bp) +
                               (length ("<"%char :: rcpt ++ [">"; ":"; " "]%char ++ txt) +
                                match after with [] => 0 | _ :: _ => 1 end))%nat |};
              recipient := match rcpt with
                           | [] => list_ascii_of_string "(MAILER-DAEMON)"
                           | _ :: _ => rcpt
                           end;
              status := status bp; text := txt;
              offset := Z.of_nat (pos (fp bp)) |} in
  bounce_log_read bp = Some (Some r, r, []).
Proof.
  destruct (examine_record rcpt txt Hmark Hrcpt Hgt Htxt Hsp) as [Hline Hex].
  remember ("<"%char :: rcpt ++ [">"; ":"; " "]%char ++ txt) as record eqn:Hrecord.
  assert (Hne : record <> []) by (by rewrite Hrecord).
  intros r. unfold bounce_log_read. rewrite read_loop_eq.
  destruct (next_line_fields bp) as (line & k & nl & Hget & ->).
  rewrite Hfile, (get_nonl_line _ _ Hline Hend) in Hget.
  injection Hget as <- <- <-. rewrite Hex.
  by destruct record, after.
Qed.

Lemma drop_store_byte p c d :
  (p < length d)%nat -> drop p (store_byte p c d) = c :: drop (S p) d.
Proof.
  intros Hp. unfold store_byte.
  destruct (Nat.ltb_spec p (length d)) as [_|]; [|lia].
  destruct (lookup_lt_is_Some_2 d p Hp) as [x Hx].
  rewrite drop_insert_ge by lia. rewrite Nat.sub_diag.
  by rewrite (drop_S d x p Hx).
Qed.

(** The record just read starts inside the file, at a "<". *)
Lemma read_record_offset bp r bp' t :
  bounce_log_read bp = Some (Some r, bp', t) ->
  exists p line k nl,
    offset r = Z.of_nat p /\ pos (fp r) = (p + k)%nat /\
    data (fp r) = data (fp bp) /\
    get_nonl (drop p (data (fp bp))) = ("<"%char :: line, k, nl) /\
    drop p (data (fp bp)) = "<"%char :: drop (S p) (data (fp bp)) /\
    (p < length (data (fp bp)))%nat.
Proof.
  intros Hread. apply read_loop_record in Hread
    as (p & line & k & nl & Hget & Hex & Hr & _).
  destruct (examine_accept _ _ _ Hex) as [line' ->].
  exists p, line', k, nl. rewrite Hr. cbn [offset fp pos data].
  do 4 (split; [done|]).
  pose proof (get_nonl_consumed (drop p (data (fp bp)))) as Hc.
  rewrite Hget in Hc. destruct Hc as (_ & _ & Hfirst).
  destruct (Hfirst _ _ eq_refl) as [l' Hl'].
  assert (Hp : (p < length (data (fp bp)))%nat).
  { apply (f_equal length) in Hl'. rewrite length_drop in Hl'. cbn in Hl'. lia. }
  split; [|done]. apply drop_S.
  apply (f_equal (fun l => l !! 0%nat)) in Hl'.
  by rewrite lookup_drop, Nat.add_0_r in Hl'.
Qed.

(** X7: marking the record that bounce_log_read just returned always
    succeeds; it overwrites the "<" at the start of that record with
    the mark and changes no other byte of the file, nor its length, nor
    the read position, nor the record held by the handle. *)
Theorem bounce_log_delrcpt_after_read bp r bp' t
    (Hread : bounce_log_read bp = Some (Some r, bp', t)) :
  exists marked,
    bounce_log_delrcpt r = Some marked /\
    byte_at r (offset r) = Some "<"%char /\
    byte_at marked (offset r) = Some BOUNCE_LOG_STAT_DELETED /\
    length (data (fp marked)) = length (data (fp r)) /\
    (forall i, i <> Z.to_nat (offset r) ->
               data (fp marked) !! i = data (fp r) !! i) /\
    pos (fp marked) = pos (fp r) /\
    recipient marked = recipient r /\ text marked = text r /\
    status marked = status r /\ offset marked = offset r.
Proof.
  destruct (read_record_offset _ _ _ _ Hread)
    as (p & line & k & nl & Hoff & Hpos & Hdata & _ & Hlt & Hp).
  rewrite delrcpt_run, Hoff.
  destruct (Z.ltb_spec (Z.of_nat p) 0) as [|_]; [lia|].
  eexists. split; [reflexivity|]. unfold byte_at. cbn [fp data pos recipient text status offset].
  rewrite Nat2Z.id, Hdata, store_byte_lookup. unfold store_byte.
  destruct (Nat.ltb_spec p (length (data (fp bp)))) as [_|]; [|lia].
  rewrite length_insert. repeat split; try done.
  - apply (f_equal (fun l => l !! 0%nat)) in Hlt.
    by rewrite lookup_drop, Nat.add_0_r in Hlt.
  - intros i Hi. by apply list_lookup_insert_ne.
Qed.

(** X8: after the record that bounce_log_read just returned has been
    marked as deleted, seeking back to the start of that record and
    reading again gives exactly what reading on from the current
    position gives: the marked record is passed over, without a
    warning. *)
Theorem bounce_log_reread_after_delrcpt bp r bp' t marked again
    (Hprint : ISPRINT BOUNCE_LOG_STAT_DELETED = true)
    (Hread : bounce_log_read bp = Some (Some r, bp', t))
    (Hdel : bounce_log_delrcpt r = Some marked)
    (Hseek : vstream_fseek (fp marked) (offset r) = Some again) :
  bounce_log_read {| fp := again; recipient := recipient marked;
                     status := status marked; text := text marked;
                     offset := offset marked |}
  = bounce_log_read marked.
Proof.
  destruct (read_record_offset _ _ _ _ Hread)
    as (p & line & k & nl & Hoff & Hpos & Hdata & Hget & Hlt & Hp).
  rewrite delrcpt_run, Hoff in Hdel.
  destruct (Z.ltb_spec (Z.of_nat p) 0) as [|_]; [lia|].
  injection Hdel as <-. cbn [fp data pos recipient text status offset] in *.
  rewrite Nat2Z.id, Hdata in *. unfold vstream_fseek in Hseek. rewrite Hoff in Hseek.
  destruct (Z.ltb_spec (Z.of_nat p) 0) as [|_]; [lia|].
  injection Hseek as <-. cbn [data]. rewrite Nat2Z.id.
  rewrite read_deleted; [|done|].
  - f_equal.
    destruct (next_line_fields
      {| fp := {| data := store_byte p BOUNCE_LOG_STAT_DELETED (data (fp bp)); pos := p |};
         recipient := recipient r; status := status r; text := text r;
         offset := Z.of_nat p |}) as (line' & k' & nl' & Hget' & ->).
    cbn [fp data pos recipient text status offset fst] in *.
    rewrite (drop_store_byte _ _ _ Hp) in Hget'. rewrite Hlt in Hget.
    cbn [get_nonl] in Hget, Hget'.
    rewrite (sanitized_not_NL _ Hprint) in Hget'.
    replace (byte_eqb "<"%char NL) with false in Hget by reflexivity.
    destruct (get_nonl (drop (S p) (data (fp bp)))) as [[l0 k0] nl0].
    injection Hget as _ <- _. injection Hget' as _ <- _. by rewrite Hpos.
  - unfold byte_at, vstream_ftell. cbn [fp data pos].
    by rewrite Nat2Z.id, store_byte_lookup.
Qed.

(** mail_queue_open(), which answers with a stream or a null pointer,
    and the name of the defer queue, from mail_queue.h. *)
Variable mail_queue_open : string -> string -> Z -> Z -> option VSTREAM.
Variable MAIL_QUEUE_DEFER : string.

(** bounce_log_open - open bounce read stream; the null recipient and
    text of a new handle are the empty strings here. *)
Definition bounce_log_open (queue_name queue_id : string) (flags mode : Z)
    : option BOUNCE_LOG :=
  match mail_queue_open queue_name queue_id flags mode with
  | None => None
  | Some stream =>
      Some {| fp := stream; recipient := [];
              status := if String.eqb queue_name MAIL_QUEUE_DEFER
                        then "4.0.0" else "5.0.0";
              text := []; offset := 0 |}
  end.

(** The handles that reads and deletions make of a handle. *)
Inductive follows (bp0 : BOUNCE_LOG) : BOUNCE_LOG -> Prop :=
| follows_refl : follows bp0 bp0
| follows_read bp r bp' t :
    follows bp0 bp -> bounce_log_read bp = Some (r, bp', t) -> follows bp0 bp'
| follows_delrcpt bp bp' :
    follows bp0 bp -> bounce_log_delrcpt bp = Some bp' -> follows bp0 bp'.

Lemma read_loop_status n bp r bp' t :
  read_loop n bp = Some (r, bp', t) ->
  status bp' = status bp /\ length (data (fp bp')) = length (data (fp bp)).
Proof.
  revert bp r bp' t. induction n as [|n IH]; intros bp r bp' t; rewrite read_loop_eq;
    destruct (next_line_fields bp) as (line & k & nl & Hget & ->);
    (destruct (negb nl && _); [by intros [= _ <- _]|]);
    (destruct (examine line) as [w|rcpt txt]; [|by intros [= _ <- _]]).
  - done.
  - match goal with |- context [read_loop n ?b] =>
      destruct (read_loop n b) as [[[r0 bp0] t0]|] eqn:Hrun; [|done] end.
    intros [= _ <- _]. by destruct (IH _ _ _ _ Hrun).
Qed.

(** X9: bounce_log_open gives no handle exactly when the queue file
    cannot be opened; the handle it gives carries the status "4.0.0"
    for the defer queue and "5.0.0" for any other queue, and every
    handle that reads and deletions make of it still carries that
    status. *)
Theorem bounce_log_open_status queue_name queue_id flags mode :
  (bounce_log_open queue_name queue_id flags mode = None <->
   mail_queue_open queue_name queue_id flags mode = None) /\
  (forall bp0 bp,
      bounce_log_open queue_name queue_id flags mode = Some bp0 ->
      follows bp0 bp ->
      status bp = if String.eqb queue_name MAIL_QUEUE_DEFER
                  then "4.0.0"%string else "5.0.0"%string).
Proof.
  unfold bounce_log_open. split.
  - by destruct (mail_queue_open queue_name queue_id flags mode).
  - intros bp0 bp Hopen Hfollows.
    assert (Hstatus : status bp = status bp0).
    { induction Hfollows as [|bp r bp' t _ IH Hread|bp bp' _ IH Hdel]; [done| |].
      - apply read_loop_status in Hread as [-> _]. done.
      - rewrite delrcpt_run in Hdel. destruct (offset bp <? 0); [done|].
        by injection Hdel as <-. }
    rewrite Hstatus. destruct (mail_queue_open _ _ _ _); [|done].
    by injection Hopen as <-.
Qed.

End Log.

(** A logfile with two records, opened at its start. *)
Definition two_records : BOUNCE_LOG :=
  {| fp := {| data := list_ascii_of_string
                        "<a@example.com>: user unknown
<b@example.com>: mailbox full
";
              pos := 0 |};
     recipient := []; status := "5.0.0"; text := []; offset := 0 |}.

Definition rewind (bp : BOUNCE_LOG) : BOUNCE_LOG :=
  {| fp := {| data := data (fp bp); pos := 0 |};
     recipient := recipient bp; status := status bp; text := text bp;
     offset := offset bp |}.

Definition read_recipient (mark : ascii) (bp : BOUNCE_LOG) : option string :=
  match bounce_log_read mark bp with
  | Some (Some r, _, _) => Some (string_of_list_ascii (recipient r))
  | _ => None
  end.

(** The first read returns the first record; after it is marked and the
    file is read again from the start, the second record comes first. *)
Example read_after_delrcpt :
  read_recipient "#" two_records = Some "a@example.com"%string /\
  (forall r bp' t marked,
      bounce_log_read "#" two_records = Some (Some r, bp', t) ->
      bounce_log_delrcpt "#" r = Some marked ->
      read_recipient "#" (rewind marked) = Some "b@example.com"%string).
Proof.
  split; [by vm_compute|].
  intros r bp' t marked Hread Hdel.
  vm_compute in Hread. injection Hread as <- _ _.
  vm_compute in Hdel. injection Hdel as <-. by vm_compute.
Qed.

Lemma tombstone_idempotent_and_skipped_witness :
  (forall bp bp1,
      bounce_log_delrcpt "#" bp = Some bp1 ->
      bounce_log_delrcpt "#" bp1 = Some bp1 /\
      byte_at bp1 (offset bp) = Some "#"%char) /\
  (forall bp, 0 <= offset bp -> is_Some (bounce_log_delrcpt "#" bp)) /\
  (forall bp, is_Some (bounce_log_read "#" bp)) /\
  (forall bp r bp' t,
      bounce_log_read "#" bp = Some (Some r, bp', t) ->
      byte_at bp (offset r) = Some "<"%char /\
      byte_at bp (offset r) <> Some "#"%char) /\
  (forall bp,
      byte_at bp (vstream_ftell (fp bp)) = Some "#"%char ->
      bounce_log_read "#" bp = bounce_log_read "#" (next_line bp).1.1).
Proof.
  apply (tombstone_idempotent_and_skipped "#"); [reflexivity|discriminate].
Defined.

(** The first record of the logfile as bounce_log_read returns it, and
    the handle after that record has been marked. *)
Definition first_record : BOUNCE_LOG :=
  {| fp := {| data := data (fp two_records); pos := 30 |};
     recipient := list_ascii_of_string "a@example.com";
     status := "5.0.0";
     text := list_ascii_of_string "user unknown";
     offset := 0 |}.

Definition first_marked : BOUNCE_LOG :=
  {| fp := {| data := store_byte 0 "#" (data (fp two_records)); pos := 30 |};
     recipient := recipient first_record; status := status first_record;
     text := text first_record; offset := 0 |}.

(** A queue directory in which every logfile is the one above. *)
Definition one_logfile (queue_name queue_id : string) (flags mode : Z)
    : option VSTREAM :=
  Some (fp two_records).

Lemma bounce_log_read_sanitized_witness :
  recipient first_record <> [] /\ sanitized (recipient first_record) /\
  sanitized (text first_record) /\ no_leading_space (text first_record) /\
  status first_record = status two_records /\ first_record = first_record.
Proof.
  apply (bounce_log_read_sanitized "#" two_records first_record first_record []).
  vm_compute. reflexivity.
Defined.

Lemma bounce_log_read_record_witness :
  bounce_log_read "#" two_records = Some (Some first_record, first_record, []).
Proof.
  apply (bounce_log_read_record "#" two_records
           (list_ascii_of_string "a@example.com")
           (list_ascii_of_string "user unknown")
           (NL :: list_ascii_of_string "<b@example.com>: mailbox full
")).
  - discriminate.
  - reflexivity.
  - right. by eexists.
  - unfold sanitized. by vm_compute; repeat constructor.
  - intros Hin. by repeat (apply elem_of_cons in Hin as [Hin|Hin]; [discriminate|]);
      apply elem_of_nil in Hin.
  - unfold sanitized. by vm_compute; repeat constructor.
  - reflexivity.
Defined.

Lemma bounce_log_delrcpt_after_read_witness :
  exists marked,
    bounce_log_delrcpt "#" first_record = Some marked /\
    byte_at first_record (offset first_record) = Some "<"%char /\
    byte_at marked (offset first_record) = Some "#"%char /\
    length (data (fp marked)) = length (data (fp first_record)) /\
    (forall i, i <> Z.to_nat (offset first_record) ->
               data (fp marked) !! i = data (fp first_record) !! i) /\
    pos (fp marked) = pos (fp first_record) /\
    recipient marked = recipient first_record /\
    text marked = text first_record /\
    status marked = status first_record /\
    offset marked = offset first_record.
Proof.
  apply (bounce_log_delrcpt_after_read "#" two_records first_record first_record []).
  vm_compute. reflexivity.
Defined.

Lemma bounce_log_reread_after_delrcpt_witness :
  bounce_log_read "#" (rewind first_marked) = bounce_log_read "#" first_marked.
Proof.
  apply (bounce_log_reread_after_delrcpt "#" two_records first_record first_record
           [] first_marked {| data := data (fp first_marked); pos := 0 |}).
  - reflexivity.
  - vm_compute. reflexivity.
  - vm_compute. reflexivity.
  - reflexivity.
Defined.

Lemma bounce_log_open_status_witness :
  (bounce_log_open one_logfile "defer" "defer" "4F2A1" 0 0 = None <->
   one_logfile "defer" "4F2A1" 0 0 = None) /\
  (forall bp0 bp,
      bounce_log_open one_logfile "defer" "defer" "4F2A1" 0 0 = Some bp0 ->
      follows "#" bp0 bp ->
      status bp = if String.eqb "defer" "defer"
                  then "4.0.0"%string else "5.0.0"%string).
Proof.
  apply (bounce_log_open_status "#" one_logfile "defer" "defer" "4F2A1" 0 0).
Defined.

End BounceLog.

(** ** sendmail/sendmail.c: the message content loop of enqueue *)

Module Sendmail.

Definition SM_FLAG_AEOF : Z := 1.

Definition CR : ascii := "013"%char.

Inductive strip_cr_t : Type := STRIP_CR_DUNNO | STRIP_CR_DO | STRIP_CR_DONT.

(** How the loop is left: at the end of the input or at the lone dot,
    or through msg_fatal_status() after a failed write. *)
Inductive outcome : Type := Done | Fatal.

(** [VSTRING_LEN(buf) > 0 && vstring_end(buf)[-1] == '\r'] *)
Definition ends_with_cr (buf : list ascii) : bool :=
  match last buf with
  | Some c => BounceLog.byte_eqb c CR
  | None => false
  end.

(** [start + strspn(start, ">")] *)
Fixpoint skip_gt (start : list ascii) : list ascii :=
  match start with
  | c :: rest => if BounceLog.byte_eqb c ">"%char then skip_gt rest else start
  | [] => []
  end.

(** [strncmp(start + strspn(start, ">"), "From ", 5) == 0] *)
Definition from_line (buf : list ascii) : bool :=
  BounceLog.is_prefix (list_ascii_of_string "From ") (skip_gt buf).

(** [VSTRING_LEN(buf) == 1 && *STR(buf) == '.'] *)
Definition lone_dot (buf : list ascii) : bool :=
  match buf with
  | [c] => BounceLog.byte_eqb c "."%char
  | _ => false
  end.

Section Enqueue.

(** Record types of rec_type.h, and whether the n-th REC_PUT_BUF() of
    the loop fails. *)
Variables REC_TYPE_NORM REC_TYPE_CONT : Z.
Variable rec_put_fails : nat -> bool.

Definition aeof (flags : Z) : bool := negb (Z.land flags SM_FLAG_AEOF =? 0).

(** The [for (prev_type = 0; (type = rec_streamlf_get(...)) !=
    REC_TYPE_EOF; prev_type = type)] loop over the records that
    rec_streamlf_get() yields; the result is the records written to the
    queue file. *)
Fixpoint copy_loop (flags : Z) (input : list (Z * list ascii))
    (skip_from_ : bool) (strip_cr : strip_cr_t) (prev_type : Z) (written : nat)
    : list (Z * list ascii) * outcome :=
  match input with
  | [] => ([], Done)
  | (type, buf) :: rest =>
      let strip_cr :=
        match strip_cr with
        | STRIP_CR_DUNNO =>
            if type =? REC_TYPE_NORM
            then (if ends_with_cr buf then STRIP_CR_DO else STRIP_CR_DONT)
            else STRIP_CR_DUNNO
        | STRIP_CR_DO | STRIP_CR_DONT => strip_cr
        end in
      if skip_from_ && (type =? REC_TYPE_NORM) && from_line buf then
        copy_loop flags rest true strip_cr type written
      else
        let buf :=
          match strip_cr with
          | STRIP_CR_DO =>
              if (type =? REC_TYPE_NORM) && ends_with_cr buf
              then removelast buf else buf
          | STRIP_CR_DUNNO | STRIP_CR_DONT => buf
          end in
        if aeof flags && negb (prev_type =? REC_TYPE_CONT) && lone_dot buf
        then ([], Done)
        else if rec_put_fails written then ([], Fatal)
        else
          let '(out, o) :=
            copy_loop flags rest false strip_cr type (S written) in
          ((type, buf) :: out, o)
  end.

Definition message_content (flags : Z) (input : list (Z * list ascii))
    : list (Z * list ascii) * outcome :=
  copy_loop flags input true STRIP_CR_DUNNO 0 0.

(** A line that starts with "From ", after any number of ">". *)
Definition from_record (r : Z * list ascii) : bool :=
  (r.1 =? REC_TYPE_NORM) && from_line r.2.

(** The record written for a record read: the same type, and the same
    data or the data without its last byte, a carriage return. *)
Definition written_for (out inp : Z * list ascii) : Prop :=
  out.1 = inp.1 /\ (out.2 = inp.2 \/ inp.2 = out.2 ++ [CR]).

Lemma ends_with_cr_split buf :
  ends_with_cr buf = true -> buf = removelast buf ++ [CR].
Proof.
  unfold ends_with_cr. destruct (last buf) as [c|] eqn:Hlast; [|done].
  intros Hc. apply BounceLog.byte_eqb_eq in Hc. subst c.
  apply last_Some in Hlast as [l' ->]. by rewrite removelast_last.
Qed.

Lemma copy_loop_keeps flags input strip_cr prev_type written :
  aeof flags = false -> (forall n, rec_put_fails n = false) ->
  exists out,
    copy_loop flags input false strip_cr prev_type written = (out, Done) /\
    Forall2 written_for out input /\
    (strip_cr = STRIP_CR_DONT -> out = input).
Proof.
  intros Haeof Hput. revert strip_cr prev_type written.
  induction input as [|[type buf] rest IH]; intros strip_cr prev_type written.
  { exists []. by repeat split. }
  cbn [copy_loop andb]. rewrite Haeof, Hput. cbn [andb].
  match goal with |- context [copy_loop flags rest false ?s ?p ?n] =>
    destruct (IH s p n) as (out & -> & Hall & Hsame) end.
  eexists. split; [reflexivity|]. split.
  - constructor; [|done]. split; [done|]. cbn [snd].
    destruct strip_cr; try (by left);
      destruct (type =? REC_TYPE_NORM); cbn [andb]; try (by left);
      destruct (ends_with_cr buf) eqn:Hcr; try (by left);
      right; by apply ends_with_cr_split.
  - intros ->. by rewrite Hsame.
Qed.

(** The input after the "From " lines that come before everything
    else. *)
Fixpoint skip_leading (input : list (Z * list ascii)) : list (Z * list ascii) :=
  match input with
  | r :: rest => if from_record r then skip_leading rest else input
  | [] => []
  end.

(** The type of the record read last, [prev_type] when none was. *)
Definition last_type (prev_type : Z) (input : list (Z * list ascii)) : Z :=
  default prev_type (last (map fst input)).

Lemma copy_loop_first_kept flags type buf rest strip_cr prev_type written :
  from_record (type, buf) = false ->
  copy_loop flags ((type, buf) :: rest) true strip_cr prev_type written =
  copy_loop flags ((type, buf) :: rest) false strip_cr prev_type written.
Proof.
  unfold from_record. cbn [fst snd copy_loop andb]. by intros ->.
Qed.

Lemma copy_loop_skips flags input strip_cr prev_type written :
  aeof flags = false -> (forall n, rec_put_fails n = false) ->
  exists out,
    copy_loop flags input true strip_cr prev_type written = (out, Done) /\
    Forall2 written_for out (skip_leading input).
Proof.
  intros Haeof Hput. revert strip_cr prev_type written.
  induction input as [|[type buf] rest IH]; intros strip_cr prev_type written.
  { exists []. by split. }
  cbn [skip_leading]. destruct (from_record (type, buf)) eqn:Hfrom.
  - cbn [copy_loop andb]. unfold from_record in Hfrom. cbn [fst snd] in Hfrom.
    rewrite Hfrom. apply IH.
  - rewrite (copy_loop_first_kept _ _ _ _ _ _ _ Hfrom).
    destruct (copy_loop_keeps flags ((type, buf) :: rest) strip_cr prev_type
                written Haeof Hput) as (out & Hrun & Hall & _).
    by exists out.
Qed.

Lemma is_prefix_app p l x :
  BounceLog.is_prefix p l = true -> BounceLog.is_prefix p (l ++ x) = true.
Proof.
  revert l. induction p as [|a p IH]; intros [|b l]; cbn; try done.
  intros [-> Hp]%andb_true_iff. by rewrite IH.
Qed.

Lemma from_line_app buf x : from_line buf = true -> from_line (buf ++ x) = true.
Proof.
  unfold from_line. induction buf as [|c buf IH]; [done|]. cbn [skip_gt app].
  destruct (BounceLog.byte_eqb c ">"%char); [done|].
  apply (is_prefix_app _ (c :: buf)).
Qed.

Lemma skip_leading_head input r rest :
  skip_leading input = r :: rest -> from_record r = false.
Proof.
  induction input as [|r0 input IH]; [done|]. cbn [skip_leading].
  destruct (from_record r0) eqn:Hfrom; [done|]. by intros [= <- _].
Qed.

(** X24: without the archaic end-of-input convention and with every
    write succeeding, the loop leaves out the "From " lines (after any
    number of ">") that come before everything else and nothing
    besides: the records it writes correspond one by one, in order, to
    the records after those lines, each with the type it was read with
    and with its data, or its data less a final carriage return; so
    the first record written is never such a "From " line. *)
Theorem message_content_drops_leading_from (flags : Z)
    (input : list (Z * list ascii))
    (Haeof : aeof flags = false)
    (Hput : forall n, rec_put_fails n = false) :
  exists out,
    message_content flags input = (out, Done) /\
    Forall2 written_for out (skip_leading input) /\
    match out with
    | r :: _ => from_record r = false
    | [] => True
    end.
Proof.
  destruct (copy_loop_skips flags input STRIP_CR_DUNNO 0 0 Haeof Hput)
    as (out & Hrun & Hall).
  exists out. split; [done|]. split; [done|].
  remember (skip_leading input) as kept eqn:H.
  destruct Hall as [|r i out rest [Htype Hdata] _]; [done|].
  symmetry in H. apply skip_leading_head in H.
  unfold from_record in *. rewrite Htype.
  destruct (i.1 =? REC_TYPE_NORM); [cbn [andb] in *|done].
  destruct Hdata as [->|Hcr]; [done|].
  destruct (from_line r.2) eqn:Hr; [|done].
  by rewrite Hcr, (from_line_app _ _ Hr) in H.
Qed.

Lemma copy_loop_transparent flags input prev_type written :
  aeof flags = false -> (forall n, rec_put_fails n = false) ->
  (forall r, List.find (fun r => r.1 =? REC_TYPE_NORM) input = Some r ->
             ends_with_cr r.2 = false) ->
  copy_loop flags input false STRIP_CR_DUNNO prev_type written = (input, Done).
Proof.
  intros Haeof Hput. revert prev_type written.
  induction input as [|[type buf] rest IH]; intros prev_type written Hfirst; [done|].
  cbn [copy_loop andb]. rewrite Haeof, Hput. cbn [andb].
  cbn [List.find fst] in Hfirst. destruct (type =? REC_TYPE_NORM).
  - pose proof (Hfirst _ eq_refl) as Hcr. cbn [snd] in Hcr. rewrite Hcr.
    destruct (copy_loop_keeps flags rest STRIP_CR_DONT type (S written) Haeof Hput)
      as (out & -> & _ & Hsame). by rewrite Hsame.
  - by rewrite IH.
Qed.

(** X25: the loop is transparent: without the archaic end-of-input
    convention and with every write succeeding, an input that does not
    begin with a "From " line and whose first complete line does not
    end in a carriage return is written record by record as it was
    read. *)
Theorem message_content_transparent (flags : Z) (input : list (Z * list ascii))
    (Haeof : aeof flags = false)
    (Hput : forall n, rec_put_fails n = false)
    (Hfrom : match input with r :: _ => from_record r = false | [] => True end)
    (Hcr : forall r, List.find (fun r => r.1 =? REC_TYPE_NORM) input = Some r ->
                     ends_with_cr r.2 = false) :
  message_content flags input = (input, Done).
Proof.
  unfold message_content. destruct input as [|[type buf] rest]; [done|].
  rewrite (copy_loop_first_kept _ _ _ _ _ _ _ Hfrom).
  by apply copy_loop_transparent.
Qed.

Lemma copy_loop_lone_dot flags pre type post skip_from_ strip_cr prev_type written :
  aeof flags = true ->
  last_type prev_type pre <> REC_TYPE_CONT ->
  copy_loop flags (pre ++ (type, ["."%char]) :: post) skip_from_ strip_cr
            prev_type written =
  copy_loop flags pre skip_from_ strip_cr prev_type written.
Proof.
  intros Haeof. revert skip_from_ strip_cr prev_type written.
  induction pre as [|[type0 buf0] pre IH];
    intros skip_from_ strip_cr prev_type written Hlast.
  - cbn [app copy_loop]. unfold last_type in Hlast. cbn in Hlast.
    replace (from_line ["."%char]) with false by reflexivity.
    replace (ends_with_cr ["."%char]) with false by reflexivity.
    rewrite !andb_false_r, Haeof.
    destruct (Z.eqb_spec prev_type REC_TYPE_CONT) as [|_]; [done|].
    cbn [andb negb].
    by destruct strip_cr, (type =? REC_TYPE_NORM).
  - assert (Hrest : last_type type0 pre <> REC_TYPE_CONT).
    { unfold last_type in *. cbn [map fst] in Hlast.
      destruct (map fst pre) as [|x l] eqn:Hmap; [done|].
      change (last (type0 :: x :: l)) with (last (x :: l)) in Hlast.
      destruct (last (x :: l)) as [y|] eqn:Hy; [done|].
      by apply last_None in Hy. }
    cbn [app copy_loop]. rewrite !(IH _ _ _ _ Hrest). done.
Qed.

(** X26: under the archaic end-of-input convention a record that is a
    lone "." ends the message when the record before it was not a
    partial line: what the loop writes and how it ends are what they
    are for the input before that record; neither the dot nor anything
    after it is written. *)
Theorem message_content_ends_at_dot (flags : Z)
    (pre post : list (Z * list ascii)) (type : Z)
    (Haeof : aeof flags = true)
    (Hlast : last_type 0 pre <> REC_TYPE_CONT) :
  message_content flags (pre ++ (type, ["."%char]) :: post) =
  message_content flags pre.
Proof. by apply copy_loop_lone_dot. Qed.

End Enqueue.

(** A message that starts with two "From " lines and whose lines end in
    carriage return and line feed; a message in plain form. *)
Definition line (text : string) : Z * list ascii := (78, list_ascii_of_string text).

Definition mbox_message : list (Z * list ascii) :=
  [(78, list_ascii_of_string "From alice Mon Jan  1" ++ [CR]);
   line ">From bob"; (78, list_ascii_of_string "Subject: hi" ++ [CR]);
   line "From here on, text"].

Definition plain_message : list (Z * list ascii) :=
  [line "Subject: hi"; line ""; line "From here on, text"].

Definition no_failure (n : nat) : bool := false.

Lemma message_content_drops_leading_from_witness :
  exists out,
    message_content 78 76 no_failure 0 mbox_message = (out, Done) /\
    Forall2 written_for out (skip_leading 78 mbox_message) /\
    match out with
    | r :: _ => from_record 78 r = false
    | [] => True
    end.
Proof.
  apply (message_content_drops_leading_from 78 76 no_failure 0 mbox_message).
  - reflexivity.
  - reflexivity.
Defined.

Lemma message_content_transparent_witness :
  message_content 78 76 no_failure 0 plain_message = (plain_message, Done).
Proof.
  apply (message_content_transparent 78 76 no_failure 0 plain_message).
  - reflexivity.
  - reflexivity.
  - reflexivity.
  - intros r [= <-]. reflexivity.
Defined.

Lemma message_content_ends_at_dot_witness :
  message_content 78 76 no_failure 1 (plain_message ++ (78, ["."%char]) :: mbox_message) =
  message_content 78 76 no_failure 1 plain_message.
Proof.
  apply (message_content_ends_at_dot 78 76 no_failure 1 plain_message mbox_message 78).
  - reflexivity.
  - vm_compute. discriminate.
Defined.

End Sendmail.

(** ** smtp/smtp_addr.c *)

Module SmtpAddr.

(** Resource record types of arpa/nameser.h. *)
Definition T_A : Z := 1.
Definition T_MX : Z := 15.

(** The data of a resource record: a host name in an MX record, an
    address (s_addr) in an A record. *)
Inductive rdata : Type :=
| HostName (host : string)
| InAddr (s_addr : Z).

(** DNS_RR; the list linkage is the Rocq list.  The preference is an
    unsigned short. *)
Record DNS_RR : Type := {
  name : string;
  type : Z;
  pref : Z;
  data : rdata
}.

Definition USHRT (z : Z) : Z := z mod 65536.
Definition UINT (z : Z) : Z := z mod 4294967296.

(** dns_rr_create *)
Definition dns_rr_create (name : string) (type : Z) (pref : Z) (data : rdata)
    : DNS_RR :=
  {| name := name; type := type; pref := USHRT pref; data := data |}.

Definition set_pref (p : Z) (rr : DNS_RR) : DNS_RR :=
  {| name := name rr; type := type rr; pref := USHRT p; data := data rr |}.

(** The answers of dns_lookup(); a failing lookup leaves its reason in
    the [why] buffer. *)
Inductive dns_status : Type :=
| DNS_OK (rr : list DNS_RR)
| DNS_NOTFOUND (why : string)
| DNS_RETRY (why : string)
| DNS_FAIL (why : string).

Record hostent : Type := {
  h_addrtype : Z;
  h_addr_list : list Z
}.

Definition AF_INET : Z := 2.

Inductive event : Type :=
| EvWarnNoValidA (name : string)
| EvWarnMailerLoop (name : string)
| EvWarnAddressFamily (family : Z) (host : string).

(** The resolver, the host and the configuration. *)
Record world : Type := {
  dns_lookup : string -> Z -> dns_status;
  inet_addr : string -> option Z;
  gethostbyname : string -> option hostent;
  own_inet_addr_list : list Z;
  var_disable_dns : bool;
  var_ign_mx_lookup_err : bool;
  var_bestmx_transp : string
}.

(** The variables that the lookups update: the global smtp_errno, the
    [why] buffer of the caller, and the warnings logged with msg_warn().
    The diagnostics that are printed only when msg_verbose is set
    (msg_info() lines and the listings of smtp_print_addr()) are not
    recorded. *)
Record vars : Type := {
  smtp_errno : Z;
  why : string;
  log : list event
}.

(** Computations that update [vars] and may end in msg_panic(). *)
Definition M (A : Type) : Type := vars -> option (A * vars).

Definition ret {A} (a : A) : M A := fun s => Some (a, s).
Definition bind {A B} (c : M A) (k : A -> M B) : M B :=
  fun s => match c s with
           | Some (a, s') => k a s'
           | None => None
           end.
Definition msg_panic {A} : M A := fun _ => None.
Definition set_errno (e : Z) : M unit :=
  fun s => Some (tt, {| smtp_errno := e; why := why s; log := log s |}).
Definition set_why (text : string) : M unit :=
  fun s => Some (tt, {| smtp_errno := smtp_errno s; why := text; log := log s |}).
Definition msg_warn (e : event) : M unit :=
  fun s => Some (tt, {| smtp_errno := smtp_errno s; why := why s;
                        log := log s ++ [e] |}).

#[local] Instance M_ret : MRet M := @ret.
#[local] Instance M_bind : MBind M := fun A B k c => bind c k.

Definition ISDIGIT (c : ascii) : bool :=
  let n := nat_of_ascii c in (48 <=? n)%nat && (n <=? 57)%nat.

Definition starts_with_digit (host : string) : bool :=
  match host with
  | String c _ => ISDIGIT c
  | EmptyString => false
  end.

Section Lookup.

Variable w : world.

(** Error codes of smtp.h. *)
Variables SMTP_OK SMTP_RETRY SMTP_FAIL : Z.

(** smtp_addr_one - address lookup for one host name *)
Definition smtp_addr_one (addr_list : list DNS_RR) (host : string) (pref : Z)
    : M (list DNS_RR) :=
  match (if starts_with_digit host then inet_addr w host else None) with
  | Some inaddr =>
      ret (addr_list ++ [dns_rr_create host 0 pref (InAddr inaddr)])
  | None =>
      if var_disable_dns w then
        match gethostbyname w host with
        | None =>
            set_why (host ++ ": host not found");;
            set_errno SMTP_FAIL;;
            ret addr_list
        | Some hp =>
            if negb (h_addrtype hp =? AF_INET) then
              set_why (host ++ ": host not found");;
              msg_warn (EvWarnAddressFamily (h_addrtype hp) host);;
              set_errno SMTP_FAIL;;
              ret addr_list
            else
              ret (addr_list ++
                   map (fun a => dns_rr_create host 0 pref (InAddr a))
                       (h_addr_list hp))
        end
      else
        match dns_lookup w host T_A with
        | DNS_OK addr => ret (addr_list ++ map (set_pref pref) addr)
        | DNS_RETRY reason =>
            set_why reason;; set_errno SMTP_RETRY;; ret addr_list
        | DNS_NOTFOUND reason | DNS_FAIL reason =>
            set_why reason;; set_errno SMTP_FAIL;; ret addr_list
        end
  end.

Definition host_of (rr : DNS_RR) : string :=
  match data rr with
  | HostName h => h
  | InAddr _ => EmptyString
  end.

(** smtp_addr_list - address lookup for a list of mail exchangers *)
Fixpoint smtp_addr_list_from (addr_list : list DNS_RR) (mx_names : list DNS_RR)
    : M (list DNS_RR) :=
  match mx_names with
  | [] => ret addr_list
  | rr :: rest =>
      if negb (type rr =? T_MX) then msg_panic
      else
        addr_list ← smtp_addr_one addr_list (host_of rr) (pref rr);
        smtp_addr_list_from addr_list rest
  end.

Definition smtp_addr_list (mx_names : list DNS_RR) : M (list DNS_RR) :=
  smtp_addr_list_from [] mx_names.

Definition is_self (addr : DNS_RR) : bool :=
  match data addr with
  | InAddr a => existsb (fun own => a =? own) (own_inet_addr_list w)
  | HostName _ => false
  end.

(** smtp_find_self - spot myself in a crowd of mail exchangers *)
Definition smtp_find_self (addr_list : list DNS_RR) : option DNS_RR :=
  List.find is_self addr_list.

(** smtp_truncate_self - truncate address list at self and equivalents *)
Fixpoint smtp_truncate_self (addr_list : list DNS_RR) (pref' : Z)
    : list DNS_RR :=
  match addr_list with
  | [] => []
  | addr :: rest =>
      if UINT pref' =? pref addr then []
      else addr :: smtp_truncate_self rest pref'
  end.

(** smtp_compare_mx - compare resource records by preference *)
Definition smtp_compare_mx (a b : DNS_RR) : Z := pref a - pref b.

(** smtp_host_addr - direct host lookup *)
Definition PREF0 : Z := 0.

Definition smtp_host_addr (host : string) : M (list DNS_RR) :=
  smtp_addr_one [] host PREF0.

(** Modelled from the spec: dns_rr_sort() belongs to the DNS library,
    which is not among the sources; the spec has the MX records sorted
    "by preference ascending", here by insertion with the comparison
    function of the caller. *)
Fixpoint dns_rr_insert (compar : DNS_RR -> DNS_RR -> Z) (rr : DNS_RR)
    (l : list DNS_RR) : list DNS_RR :=
  match l with
  | [] => [rr]
  | x :: l' =>
      if compar rr x <=? 0 then rr :: l else x :: dns_rr_insert compar rr l'
  end.

Definition dns_rr_sort (l : list DNS_RR) (compar : DNS_RR -> DNS_RR -> Z)
    : list DNS_RR :=
  foldr (dns_rr_insert compar) [] l.

(** ~0, as an unsigned. *)
Definition IMPOSSIBLE_PREFERENCE : Z := UINT (-1).

Definition best_of (l : list DNS_RR) : Z :=
  match l with
  | rr :: _ => pref rr
  | [] => IMPOSSIBLE_PREFERENCE
  end.

(** The branch taken when the local host was found and nothing is left
    of the list. *)
Definition loops_back (name : string) (best_pref best_found : Z) : M unit :=
  if negb (best_pref =? best_found) then
    set_why ("unable to find primary relay for " ++ name);;
    set_errno SMTP_RETRY
  else if negb (String.eqb (var_bestmx_transp w) "") then
    set_errno SMTP_OK
  else
    msg_warn (EvWarnMailerLoop name);;
    set_why ("mail for " ++ name ++ " loops back to myself");;
    set_errno SMTP_FAIL.

(** smtp_domain_addr - mail exchanger address lookup; the result is the
    address list and *found_myself. *)
Definition smtp_domain_addr (name : string) : M (list DNS_RR * bool) :=
  if var_disable_dns w then msg_panic
  else
    match dns_lookup w name T_MX with
    | DNS_RETRY reason =>
        set_why reason;;
        set_errno SMTP_RETRY;;
        addr_list ← (if var_ign_mx_lookup_err w then smtp_host_addr name
                     else ret []);
        ret (addr_list, false)
    | DNS_FAIL reason =>
        set_why reason;;
        set_errno SMTP_FAIL;;
        addr_list ← (if var_ign_mx_lookup_err w then smtp_host_addr name
                     else ret []);
        ret (addr_list, false)
    | DNS_OK mx_names =>
        let mx_names := dns_rr_sort mx_names smtp_compare_mx in
        let best_pref := best_of mx_names in
        addr_list ← smtp_addr_list mx_names;
        match addr_list with
        | [] =>
            set_errno SMTP_RETRY;;
            msg_warn (EvWarnNoValidA name);;
            ret ([], false)
        | _ :: _ =>
            let best_found := best_of addr_list in
            match smtp_find_self addr_list with
            | Some self =>
                let addr_list := smtp_truncate_self addr_list (pref self) in
                match addr_list with
                | [] =>
                    loops_back name best_pref best_found;;
                    ret ([], true)
                | _ :: _ => ret (addr_list, true)
                end
            | None => ret (addr_list, false)
            end
        end
    | DNS_NOTFOUND reason =>
        set_why reason;;
        addr_list ← smtp_host_addr name;
        ret (addr_list, false)
    end.

(** Ascending order of preference. *)
Definition by_pref (a b : DNS_RR) : Prop := pref a <= pref b.

Definition ushort_pref (rr : DNS_RR) : Prop := 0 <= pref rr < 65536.

Lemma dns_rr_insert_elem compar rr l x :
  x ∈ dns_rr_insert compar rr l <-> x = rr \/ x ∈ l.
Proof.
  induction l as [|y l IH]; cbn.
  - rewrite list_elem_of_singleton, elem_of_nil. tauto.
  - destruct (compar rr y <=? 0); rewrite !elem_of_cons; [tauto|].
    rewrite IH. tauto.
Qed.

Lemma dns_rr_sort_elem l x :
  x ∈ dns_rr_sort l smtp_compare_mx <-> x ∈ l.
Proof.
  induction l as [|y l IH]; cbn; [done|].
  rewrite dns_rr_insert_elem, elem_of_cons, IH. tauto.
Qed.

Lemma dns_rr_insert_sorted rr l :
  StronglySorted by_pref l ->
  StronglySorted by_pref (dns_rr_insert smtp_compare_mx rr l).
Proof.
  induction 1 as [|y l Hl IH Hy]; cbn; [by repeat constructor|].
  unfold smtp_compare_mx at 1.
  destruct (Z.leb_spec (pref rr - pref y) 0) as [Hle|Hgt].
  - constructor; [by constructor|]. constructor; [unfold by_pref; lia|].
    eapply Forall_impl; [exact Hy|]. unfold by_pref. intros; lia.
  - constructor; [done|]. apply Forall_forall. intros x Hx.
    apply dns_rr_insert_elem in Hx as [->|Hx]; [unfold by_pref; lia|].
    rewrite Forall_forall in Hy. by apply Hy.
Qed.

Lemma dns_rr_sort_sorted l :
  StronglySorted by_pref (dns_rr_sort l smtp_compare_mx).
Proof.
  induction l as [|rr l IH]; cbn; [constructor|by apply dns_rr_insert_sorted].
Qed.


Lemma USHRT_id z : 0 <= z < 65536 -> USHRT z = z.
Proof. intros. unfold USHRT. by apply Z.mod_small. Qed.

Lemma UINT_id z : 0 <= z < 65536 -> UINT z = z.
Proof. intros. unfold UINT. apply Z.mod_small. lia. Qed.

(** smtp_addr_one always returns, and only appends records that carry
    the preference it was given. *)
Lemma smtp_addr_one_spec addr_list host p s :
  exists new s',
    smtp_addr_one addr_list host p s = Some (addr_list ++ new, s') /\
    Forall (fun rr => pref rr = USHRT p) new.
Proof.
  unfold smtp_addr_one.
  destruct (if starts_with_digit host then inet_addr w host else None).
  { eexists _, _. split; [reflexivity|]. by repeat constructor. }
  destruct (var_disable_dns w).
  - destruct (gethostbyname w host) as [hp|].
    + destruct (negb (h_addrtype hp =? AF_INET)).
      * eexists [], _. rewrite app_nil_r. split; [reflexivity|done].
      * eexists _, _. split; [reflexivity|].
        apply Forall_forall. intros rr Hrr.
        apply list_elem_of_fmap in Hrr as (a & -> & _). done.
    + eexists [], _. rewrite app_nil_r. split; [reflexivity|done].
  - destruct (dns_lookup w host T_A) as [addr|reason|reason|reason].
    + eexists _, _. split; [reflexivity|].
      apply Forall_forall. intros rr Hrr.
      apply list_elem_of_fmap in Hrr as (a & -> & _). done.
    + eexists [], _. rewrite app_nil_r. split; [reflexivity|done].
    + eexists [], _. rewrite app_nil_r. split; [reflexivity|done].
    + eexists [], _. rewrite app_nil_r. split; [reflexivity|done].
Qed.

(** smtp_addr_list returns for MX records, in the order of the records,
    with each address carrying the preference of its record. *)
Lemma smtp_addr_list_from_spec mx acc s :
  Forall (fun rr => type rr = T_MX) mx ->
  Forall ushort_pref mx ->
  StronglySorted by_pref mx ->
  exists new s',
    smtp_addr_list_from acc mx s = Some (acc ++ new, s') /\
    Forall (fun rr => exists m, m ∈ mx /\ pref rr = pref m) new /\
    StronglySorted by_pref new.
Proof.
  revert acc s. induction mx as [|m mx IH]; intros acc s Htype Hrange Hsorted.
  - exists [], s. cbn. rewrite app_nil_r. repeat split; constructor.
  - apply Forall_cons in Htype as [Hm Htype].
    apply Forall_cons in Hrange as [Hmr Hrange].
    apply StronglySorted_cons in Hsorted as [Hle Hsorted].
    cbn [smtp_addr_list_from]. rewrite Hm, Z.eqb_refl. cbn [negb].
    destruct (smtp_addr_one_spec acc (host_of m) (pref m) s)
      as (new1 & s1 & Hone & Hpref1).
    destruct (IH (acc ++ new1) s1 Htype Hrange Hsorted)
      as (new2 & s2 & Hrest & Hpref2 & Hsorted2).
    exists (new1 ++ new2), s2. split; [|split].
    + unfold mbind, M_bind, bind. rewrite Hone, Hrest. by rewrite app_assoc.
    + apply Forall_app. split.
      * eapply Forall_impl; [exact Hpref1|]. intros rr Hrr. exists m.
        split; [by left|]. by rewrite Hrr, USHRT_id.
      * eapply Forall_impl; [exact Hpref2|]. intros rr (m' & Hin & Hrr).
        exists m'. split; [by right|done].
    + apply StronglySorted_app_2; [| |done].
      * intros x1 x2 Hx1 Hx2.
        rewrite Forall_forall in Hpref1, Hpref2, Hle.
        destruct (Hpref2 _ Hx2) as (m' & Hin & Hx2').
        unfold by_pref. rewrite (Hpref1 _ Hx1), USHRT_id, Hx2' by done.
        by apply Hle.
      * clear -Hpref1. induction Hpref1 as [|x l Hx Hl IHl]; constructor; [done|].
        eapply Forall_impl; [exact Hl|]. intros y Hy. unfold by_pref.
        rewrite Hx, Hy. lia.
Qed.

Lemma filter_none {A} (f : A -> bool) (l : list A) :
  Forall (fun x => f x = false) l -> List.filter f l = [].
Proof. induction 1 as [|x l Hx _ IH]; cbn; [done|]. by rewrite Hx. Qed.

(** On a list in ascending order that has an entry of preference [p],
    cutting at the first entry of preference [p] keeps exactly the
    entries of a smaller preference. *)
Lemma smtp_truncate_self_sorted l p :
  0 <= p < 65536 ->
  StronglySorted by_pref l ->
  (exists x, x ∈ l /\ pref x = p) ->
  smtp_truncate_self l p = List.filter (fun rr => pref rr <? p) l.
Proof.
  intros Hp. induction 1 as [|y l Hl IH Hy]; intros (x & Hx & Hpx); [done|].
  cbn [smtp_truncate_self List.filter]. rewrite (UINT_id p Hp).
  rewrite Forall_forall in Hy.
  destruct (Z.eqb_spec p (pref y)) as [Heq|Hne].
  - destruct (Z.ltb_spec (pref y) p) as [|_]; [lia|].
    symmetry. apply filter_none, Forall_forall. intros z Hz.
    apply Z.ltb_ge. rewrite Heq. by apply Hy.
  - apply elem_of_cons in Hx as [->|Hx]; [done|].
    pose proof (Hy _ Hx) as Hle. unfold by_pref in Hle.
    destruct (Z.ltb_spec (pref y) p) as [_|]; [|lia].
    f_equal. apply IH. by exists x.
Qed.

Lemma smtp_find_self_elem l self :
  smtp_find_self l = Some self -> self ∈ l /\ is_self self = true.
Proof.
  intros Hfind. apply List.find_some in Hfind as [Hin Hself].
  split; [by apply list_elem_of_In|done].
Qed.

Section Domain.

Variables (name : string) (mx : list DNS_RR).

Hypothesis dns_enabled : var_disable_dns w = false.
Hypothesis mx_found : dns_lookup w name T_MX = DNS_OK mx.
Hypothesis mx_type : Forall (fun rr => type rr = T_MX) mx.
Hypothesis mx_pref : Forall ushort_pref mx.

Lemma smtp_addr_list_sorted s :
  exists addr_list s1,
    smtp_addr_list (dns_rr_sort mx smtp_compare_mx) s = Some (addr_list, s1) /\
    StronglySorted by_pref addr_list /\
    Forall (fun rr => exists m, m ∈ mx /\ pref rr = pref m) addr_list.
Proof.
  unfold smtp_addr_list.
  destruct (smtp_addr_list_from_spec (dns_rr_sort mx smtp_compare_mx) [] s)
    as (new & s1 & Hrun & Hpref & Hsorted).
  - apply Forall_forall. intros rr Hrr. rewrite dns_rr_sort_elem in Hrr.
    pose proof (proj1 (Forall_forall _ _) mx_type) as Ht. by apply Ht.
  - apply Forall_forall. intros rr Hrr. rewrite dns_rr_sort_elem in Hrr.
    pose proof (proj1 (Forall_forall _ _) mx_pref) as Hp. by apply Hp.
  - apply dns_rr_sort_sorted.
  - exists new, s1. repeat split; [done|done|].
    eapply Forall_impl; [exact Hpref|]. intros rr (m & Hm & Heq).
    exists m. split; [by apply dns_rr_sort_elem|done].
Qed.

Lemma addr_pref_range addr_list x :
  Forall (fun rr => exists m, m ∈ mx /\ pref rr = pref m) addr_list ->
  x ∈ addr_list -> 0 <= pref x < 65536.
Proof.
  intros Hall Hx. rewrite Forall_forall in Hall.
  pose proof (proj1 (Forall_forall _ _) mx_pref) as Hp.
  destruct (Hall _ Hx) as (m & Hm & ->). by apply Hp.
Qed.

(** C1 (as the code has it): when the MX lookup for a domain succeeds,
    smtp_domain_addr returns; the candidate addresses are in ascending
    order of MX preference; when one of them is an address of the local
    host, found at preference P, the returned list is the candidate list
    cut at its first entry of preference P, which keeps exactly the
    entries of preference less than P and removes every entry of
    preference P or greater; otherwise the whole list is returned. *)
Theorem smtp_domain_addr_truncates (s : vars) :
  exists addr_list s1 result found s',
    smtp_addr_list (dns_rr_sort mx smtp_compare_mx) s = Some (addr_list, s1) /\
    smtp_domain_addr name s = Some ((result, found), s') /\
    StronglySorted by_pref addr_list /\
    match smtp_find_self addr_list with
    | Some self =>
        found = true /\
        result = smtp_truncate_self addr_list (pref self) /\
        result = List.filter (fun rr => pref rr <? pref self) addr_list
    | None => found = false /\ result = addr_list
    end.
Proof.
  destruct (smtp_addr_list_sorted s) as (addr_list & s1 & Hrun & Hsorted & Hpref).
  exists addr_list, s1.
  unfold smtp_domain_addr. rewrite dns_enabled, mx_found.
  unfold mbind, M_bind, bind at 1. rewrite Hrun.
  destruct addr_list as [|a l].
  { cbn. eexists _, _, _. by repeat split. }
  cbv beta iota. set (addr_list := a :: l) in *.
  destruct (smtp_find_self addr_list) as [self|] eqn:Hfind.
  - destruct (smtp_find_self_elem _ _ Hfind) as [Hin _].
    assert (Hcut : smtp_truncate_self addr_list (pref self) =
                   List.filter (fun rr => pref rr <? pref self) addr_list).
    { apply smtp_truncate_self_sorted; [by eapply addr_pref_range|done|].
      by exists self. }
    destruct (smtp_truncate_self addr_list (pref self)) as [|b l'] eqn:Hcut'.
    + assert (Hsome : exists s', loops_back name
                (best_of (dns_rr_sort mx smtp_compare_mx)) (best_of addr_list) s1
                = Some (tt, s')).
      { unfold loops_back. destruct (negb _); [by eexists|].
        destruct (negb _); by eexists. }
      destruct Hsome as [s' Hs'].
      exists [], true, s'. unfold mbind, M_bind, bind. rewrite Hs'.
      by repeat split.
    + exists (b :: l'), true, s1. by repeat split.
  - exists addr_list, false, s1. by repeat split.
Qed.

Lemma loops_back_run best_pref best_found s1 :
  exists s',
    loops_back name best_pref best_found s1 = Some (tt, s') /\
    if best_pref =? best_found then
      if String.eqb (var_bestmx_transp w) "" then
        smtp_errno s' = SMTP_FAIL /\
        why s' = ("mail for " ++ name ++ " loops back to myself")%string
      else smtp_errno s' = SMTP_OK /\ why s' = why s1
    else
      smtp_errno s' = SMTP_RETRY /\
      why s' = ("unable to find primary relay for " ++ name)%string.
Proof.
  unfold loops_back.
  destruct (best_pref =? best_found); cbn [negb];
    [destruct (String.eqb (var_bestmx_transp w) ""); cbn [negb]|];
    eexists; (split; [reflexivity|]); by cbn.
Qed.


(** The addresses that one host contributes while DNS is in use: the
    address that a numerical host name denotes, or else the A records
    of the host, each at the preference given. *)
Definition addresses_of (host : string) (p : Z) : list DNS_RR :=
  match (if starts_with_digit host then inet_addr w host else None) with
  | Some inaddr => [dns_rr_create host 0 p (InAddr inaddr)]
  | None =>
      match dns_lookup w host T_A with
      | DNS_OK addr => map (set_pref p) addr
      | DNS_NOTFOUND _ | DNS_RETRY _ | DNS_FAIL _ => []
      end
  end.

Definition mx_addresses (m : DNS_RR) : list DNS_RR :=
  addresses_of (host_of m) (pref m).

Lemma smtp_addr_one_dns acc host p s :
  var_disable_dns w = false ->
  exists s',
    smtp_addr_one acc host p s = Some (acc ++ addresses_of host p, s') /\
    log s' = log s.
Proof.
  intros Hdns. unfold smtp_addr_one, addresses_of. rewrite Hdns.
  destruct (if starts_with_digit host then inet_addr w host else None).
  { by eexists. }
  destruct (dns_lookup w host T_A); rewrite ?app_nil_r; by eexists.
Qed.

Lemma smtp_addr_list_from_dns acc l s :
  var_disable_dns w = false ->
  Forall (fun rr => type rr = T_MX) l ->
  exists s',
    smtp_addr_list_from acc l s = Some (acc ++ flat_map mx_addresses l, s') /\
    log s' = log s.
Proof.
  intros Hdns Hall. revert acc s.
  induction Hall as [|m l Hm _ IH]; intros acc s.
  { exists s. cbn. by rewrite app_nil_r. }
  cbn [smtp_addr_list_from flat_map]. rewrite Hm, Z.eqb_refl. cbn [negb].
  destruct (smtp_addr_one_dns acc (host_of m) (pref m) s Hdns) as (s1 & Hone & Hlog1).
  destruct (IH (acc ++ mx_addresses m) s1) as (s2 & Hrest & Hlog2).
  exists s2. unfold mbind, M_bind, bind. fold (mx_addresses m) in Hone.
  rewrite Hone, Hrest, app_assoc. split; [done|congruence].
Qed.

Lemma smtp_addr_list_from_panics acc l s :
  ~ Forall (fun rr => type rr = T_MX) l -> smtp_addr_list_from acc l s = None.
Proof.
  revert acc s. induction l as [|m l IH]; intros acc s Hbad.
  { by destruct Hbad. }
  cbn [smtp_addr_list_from].
  destruct (Z.eqb_spec (type m) T_MX) as [Hm|Hm]; [|done]. cbn [negb].
  destruct (smtp_addr_one_spec acc (host_of m) (pref m) s) as (new & s1 & Hone & _).
  unfold mbind, M_bind, bind. rewrite Hone. apply IH.
  intros Hl. apply Hbad. by constructor.
Qed.

Lemma flat_map_nil {A B} (f : A -> list B) (l : list A) :
  flat_map f l = [] <-> forall x, x ∈ l -> f x = [].
Proof.
  induction l as [|a l IH]; cbn.
  - split; [|done]. intros _ x Hx. by apply elem_of_nil in Hx.
  - split.
    + intros Hnil. apply app_eq_nil in Hnil as [Ha Hl]. intros x Hx.
      apply elem_of_cons in Hx as [->|Hx]; [done|]. by apply IH.
    + intros Hall. rewrite (Hall a) by (by left). cbn. apply IH.
      intros x Hx. apply Hall. by right.
Qed.

(** Cutting at the preference of the first local address leaves no
    local address. *)
Lemma smtp_truncate_self_no_self l self :
  smtp_find_self l = Some self ->
  UINT (pref self) = pref self ->
  Forall (fun rr => is_self rr = false) (smtp_truncate_self l (pref self)).
Proof.
  unfold smtp_find_self. intros Hfind Hp.
  induction l as [|a l IH]; [done|]. cbn [List.find smtp_truncate_self] in *.
  rewrite Hp. destruct (is_self a) eqn:Ha.
  - injection Hfind as ->. by rewrite Z.eqb_refl.
  - destruct (pref self =? pref a); [done|]. constructor; [done|by apply IH].
Qed.

(** X1: when the MX lookup for a domain succeeds, no address in the
    list that smtp_domain_addr returns is an address of the local host:
    either none of the candidates is local, or the list was cut before
    the first local one. *)
Theorem smtp_domain_addr_excludes_self (s : vars) result found s' :
  smtp_domain_addr name s = Some ((result, found), s') ->
  Forall (fun rr => is_self rr = false) result /\
  (found = false -> smtp_find_self result = None).
Proof.
  destruct (smtp_addr_list_sorted s) as (addr_list & s1 & Hrun & Hsorted & Hpref).
  unfold smtp_domain_addr. rewrite dns_enabled, mx_found.
  unfold mbind, M_bind, bind at 1. rewrite Hrun.
  destruct addr_list as [|a l].
  { cbn. intros [= <- <- _]. by split. }
  cbv beta iota. set (addr_list := a :: l) in *.
  destruct (smtp_find_self addr_list) as [self|] eqn:Hfind.
  - destruct (smtp_find_self_elem _ _ Hfind) as [Hin _].
    assert (Hcut : Forall (fun rr => is_self rr = false)
                     (smtp_truncate_self addr_list (pref self))).
    { apply smtp_truncate_self_no_self; [done|].
      apply UINT_id. by eapply addr_pref_range. }
    destruct (smtp_truncate_self addr_list (pref self)) as [|b l'].
    + unfold mbind, M_bind, bind.
      destruct (loops_back _ _ _ s1) as [[[] s2]|]; [|done].
      intros [= <- <- _]. by split.
    + intros [= <- <- _]. by split.
  - intros [= <- <- _]. split; [|done]. apply Forall_forall. intros x Hx.
    apply list_elem_of_In in Hx. by apply (List.find_none _ _ Hfind).
Qed.

(** X2: when the MX lookup for a domain succeeds, smtp_domain_addr
    ends with an empty list, found_myself clear, SMTP_RETRY and the
    "no MX host has a valid A record" warning when no listed exchanger
    contributes an address; and when some exchanger does contribute one,
    it returns addresses or reports that it found the local host. *)
Theorem smtp_domain_addr_no_valid_address (s : vars) :
  exists result found s',
    smtp_domain_addr name s = Some ((result, found), s') /\
    ((forall m, m ∈ mx -> mx_addresses m = []) ->
     result = [] /\ found = false /\ smtp_errno s' = SMTP_RETRY /\
     log s' = log s ++ [EvWarnNoValidA name]) /\
    ((exists m, m ∈ mx /\ mx_addresses m <> []) ->
     result <> [] \/ found = true).
Proof.
  assert (Htype : Forall (fun rr => type rr = T_MX) (dns_rr_sort mx smtp_compare_mx)).
  { apply Forall_forall. intros rr Hrr. rewrite dns_rr_sort_elem in Hrr.
    pose proof (proj1 (Forall_forall _ _) mx_type) as Ht. by apply Ht. }
  destruct (smtp_addr_list_from_dns [] _ s dns_enabled Htype) as (s1 & Hrun & Hlog).
  cbn [app] in Hrun.
  assert (Hsome : forall bp bf s1, exists s2, loops_back name bp bf s1 = Some (tt, s2)).
  { intros bp bf s0. destruct (loops_back_run bp bf s0) as (s2 & H2 & _). eauto. }
  set (addr_list := flat_map mx_addresses (dns_rr_sort mx smtp_compare_mx)) in *.
  assert (Hempty : addr_list = [] <-> forall m, m ∈ mx -> mx_addresses m = []).
  { subst addr_list. rewrite flat_map_nil. split; intros Hall m Hm; apply Hall.
    - by apply dns_rr_sort_elem.
    - by rewrite dns_rr_sort_elem in Hm. }
  unfold smtp_domain_addr. rewrite dns_enabled, mx_found.
  unfold mbind, M_bind, bind at 1. unfold smtp_addr_list. rewrite Hrun.
  destruct addr_list as [|a l] eqn:Hlist.
  { eexists _, _, _. split; [reflexivity|]. split.
    - intros _. cbn. by rewrite Hlog.
    - intros (m & Hm & Hne). destruct Hne. by apply Hempty. }
  cbv beta iota.
  assert (Hnot : ~ forall m, m ∈ mx -> mx_addresses m = []).
  { intros Hall. by apply Hempty in Hall. }
  destruct (smtp_find_self (a :: l)) as [self|].
  - destruct (smtp_truncate_self (a :: l) (pref self)) as [|b l'].
    + destruct (Hsome (best_of (dns_rr_sort mx smtp_compare_mx)) (best_of (a :: l)) s1)
        as [s2 Hs2].
      unfold mbind, M_bind, bind. rewrite Hs2.
      eexists _, _, _. split; [reflexivity|]. split; [done|]. by right.
    + eexists _, _, _. split; [reflexivity|]. split; [done|]. by left.
  - eexists _, _, _. split; [reflexivity|]. split; [done|]. by left.
Qed.

End Domain.

Lemma addresses_of_pref host p :
  Forall (fun rr => pref rr = USHRT p) (addresses_of host p).
Proof.
  unfold addresses_of.
  destruct (if starts_with_digit host then inet_addr w host else None).
  { by repeat constructor. }
  destruct (dns_lookup w host T_A) as [addr| | |]; try done.
  apply Forall_forall. intros rr Hrr.
  apply list_elem_of_fmap in Hrr as (a & -> & _). done.
Qed.

(** X3: while DNS is in use, smtp_addr_list returns exactly when every
    record it is given is an MX record, and otherwise panics; what it
    returns is the addresses of the exchangers in the order of the
    records, each exchanger contributing the address its numerical name
    denotes or else its A records at the preference of the MX record,
    and an exchanger whose lookup fails contributing nothing without
    stopping the loop; no warning is logged. *)
Theorem smtp_addr_list_collects (mx_names : list DNS_RR) (s : vars)
    (Hdns : var_disable_dns w = false) :
  (Forall (fun rr => type rr = T_MX) mx_names ->
   exists s',
     smtp_addr_list mx_names s = Some (flat_map mx_addresses mx_names, s') /\
     log s' = log s) /\
  (~ Forall (fun rr => type rr = T_MX) mx_names ->
   smtp_addr_list mx_names s = None).
Proof.
  split.
  - intros Hall. exact (smtp_addr_list_from_dns [] mx_names s Hdns Hall).
  - apply smtp_addr_list_from_panics.
Qed.

(** X4: when the MX lookup for a domain does not succeed,
    smtp_domain_addr returns with found_myself clear, neither it nor
    the lookup of the addresses logs a warning, and every address it
    returns has preference 0.  When no MX record
    exists the addresses are those of the domain name itself; when the
    lookup failed they are those addresses only if MX lookup errors are
    to be ignored, and otherwise the list is empty, smtp_errno is
    SMTP_RETRY or SMTP_FAIL as the lookup answered, and the reason is
    that of the lookup. *)
Theorem smtp_domain_addr_without_mx (domain : string) (s : vars)
    (Hdns : var_disable_dns w = false)
    (Hmx : forall mx, dns_lookup w domain T_MX <> DNS_OK mx) :
  exists addr_list s',
    smtp_domain_addr domain s = Some ((addr_list, false), s') /\
    Forall (fun rr => pref rr = PREF0) addr_list /\
    log s' = log s /\
    match dns_lookup w domain T_MX with
    | DNS_OK _ => False
    | DNS_NOTFOUND _ => addr_list = addresses_of domain PREF0
    | DNS_RETRY reason =>
        if var_ign_mx_lookup_err w then addr_list = addresses_of domain PREF0
        else addr_list = [] /\ smtp_errno s' = SMTP_RETRY /\ why s' = reason
    | DNS_FAIL reason =>
        if var_ign_mx_lookup_err w then addr_list = addresses_of domain PREF0
        else addr_list = [] /\ smtp_errno s' = SMTP_FAIL /\ why s' = reason
    end.
Proof.
  assert (Hhost : forall s0, exists s',
            smtp_host_addr domain s0 = Some (addresses_of domain PREF0, s') /\
            log s' = log s0).
  { intros s0. exact (smtp_addr_one_dns [] domain PREF0 s0 Hdns). }
  pose proof (addresses_of_pref domain PREF0) as Hpref.
  unfold smtp_domain_addr. rewrite Hdns.
  destruct (dns_lookup w domain T_MX) as [mx|reason|reason|reason] eqn:Hlookup.
  - by destruct (Hmx mx).
  - unfold mbind, M_bind, bind. cbn [set_why].
    destruct (Hhost {| smtp_errno := smtp_errno s; why := reason; log := log s |})
      as (s' & -> & Hlog).
    by eexists _, _.
  - unfold mbind, M_bind, bind. cbn [set_why set_errno smtp_errno why log].
    destruct (var_ign_mx_lookup_err w).
    + destruct (Hhost {| smtp_errno := SMTP_RETRY; why := reason; log := log s |})
        as (s' & -> & Hlog).
      by eexists _, _.
    + by eexists _, _.
  - unfold mbind, M_bind, bind. cbn [set_why set_errno smtp_errno why log].
    destruct (var_ign_mx_lookup_err w).
    + destruct (Hhost {| smtp_errno := SMTP_FAIL; why := reason; log := log s |})
        as (s' & -> & Hlog).
      by eexists _, _.
    + by eexists _, _.
Qed.

End Lookup.

(** A resolver that knows three mail exchangers for example.com, listed
    out of order; the second-best one is the local host.  A second
    domain has the local host as its only mail exchanger. *)
Definition mx_record (domain : string) (p : Z) (host : string) : DNS_RR :=
  {| name := domain; type := T_MX; pref := p; data := HostName host |}.

Definition a_record (host : string) (a : Z) : DNS_RR :=
  {| name := host; type := T_A; pref := 0; data := InAddr a |}.

Definition example_mx : list DNS_RR :=
  [mx_record "example.com" 30 "mx3.example.com";
   mx_record "example.com" 10 "mx1.example.com";
   mx_record "example.com" 20 "me.example.com"].

Definition loop_mx : list DNS_RR :=
  [mx_record "loop.example" 10 "me.example.com"].

Definition resolver (host : string) (type : Z) : dns_status :=
  if type =? T_MX then
    if String.eqb host "example.com" then DNS_OK example_mx
    else if String.eqb host "loop.example" then DNS_OK loop_mx
    else DNS_NOTFOUND "no MX"
  else
    if String.eqb host "mx1.example.com"
    then DNS_OK [a_record "mx1.example.com" 16843009]
    else if String.eqb host "me.example.com"
    then DNS_OK [a_record "me.example.com" 33686018]
    else if String.eqb host "mx3.example.com"
    then DNS_OK [a_record "mx3.example.com" 50529027]
    else DNS_NOTFOUND "no A".

Definition local_world : world :=
  {| dns_lookup := resolver;
     inet_addr := fun _ => None;
     gethostbyname := fun _ => None;
     own_inet_addr_list := [33686018];
     var_disable_dns := false;
     var_ign_mx_lookup_err := false;
     var_bestmx_transp := "" |}.

Definition fresh : vars := {| smtp_errno := 0; why := ""; log := [] |}.

Definition addr (host : string) (p a : Z) : DNS_RR :=
  {| name := host; type := T_A; pref := p; data := InAddr a |}.

(** C1 (as stated) fails: with the local host at preference 20, the
    entry of preference 30 is removed as well, although its preference
    is not 20; only the entry of preference 10 is returned. *)
Lemma smtp_domain_addr_drops_less_preferred :
  smtp_addr_list local_world (-1) (-2)
      (dns_rr_sort example_mx smtp_compare_mx) fresh =
    Some ([addr "mx1.example.com" 10 16843009;
           addr "me.example.com" 20 33686018;
           addr "mx3.example.com" 30 50529027], fresh) /\
  smtp_domain_addr local_world 0 (-1) (-2) "example.com" fresh =
    Some (([addr "mx1.example.com" 10 16843009], true), fresh) /\
  is_self local_world (addr "me.example.com" 20 33686018) = true /\
  pref (addr "mx3.example.com" 30 50529027) <> 20 /\
  addr "mx3.example.com" 30 50529027 ∉ [addr "mx1.example.com" 10 16843009].
Proof.
  repeat split; try (vm_compute; reflexivity); [discriminate|].
  intros Hin. apply list_elem_of_singleton in Hin. discriminate.
Qed.

Lemma smtp_domain_addr_truncates_witness :
  exists addr_list s1 result found s',
    smtp_addr_list local_world (-1) (-2)
      (dns_rr_sort example_mx smtp_compare_mx) fresh = Some (addr_list, s1) /\
    smtp_domain_addr local_world 0 (-1) (-2) "example.com" fresh
      = Some ((result, found), s') /\
    StronglySorted by_pref addr_list /\
    match smtp_find_self local_world addr_list with
    | Some self =>
        found = true /\
        result = smtp_truncate_self addr_list (pref self) /\
        result = List.filter (fun rr => pref rr <? pref self) addr_list
    | None => found = false /\ result = addr_list
    end.
Proof.
  apply (smtp_domain_addr_truncates local_world 0 (-1) (-2) "example.com" example_mx).
  - reflexivity.
  - reflexivity.
  - repeat constructor.
  - unfold ushort_pref. repeat constructor; cbn; lia.
Defined.


Lemma smtp_domain_addr_excludes_self_witness :
  Forall (fun rr => is_self local_world rr = false)
         [addr "mx1.example.com" 10 16843009] /\
  (true = false ->
   smtp_find_self local_world [addr "mx1.example.com" 10 16843009] = None).
Proof.
  apply (smtp_domain_addr_excludes_self local_world 0 (-1) (-2) "example.com"
           example_mx eq_refl eq_refl) with (s := fresh) (s' := fresh).
  - repeat constructor.
  - unfold ushort_pref. repeat constructor; cbn; lia.
  - vm_compute. reflexivity.
Defined.

Lemma smtp_domain_addr_no_valid_address_witness :
  exists result found s',
    smtp_domain_addr local_world 0 (-1) (-2) "example.com" fresh
      = Some ((result, found), s') /\
    ((forall m, m ∈ example_mx -> mx_addresses local_world m = []) ->
     result = [] /\ found = false /\ smtp_errno s' = -1 /\
     log s' = log fresh ++ [EvWarnNoValidA "example.com"]) /\
    ((exists m, m ∈ example_mx /\ mx_addresses local_world m <> []) ->
     result <> [] \/ found = true).
Proof.
  apply (smtp_domain_addr_no_valid_address local_world 0 (-1) (-2) "example.com"
           example_mx eq_refl eq_refl).
  repeat constructor.
Defined.

Lemma smtp_addr_list_collects_witness :
  (Forall (fun rr => type rr = T_MX) example_mx ->
   exists s',
     smtp_addr_list local_world (-1) (-2) example_mx fresh =
       Some (flat_map (mx_addresses local_world) example_mx, s') /\
     log s' = log fresh) /\
  (~ Forall (fun rr => type rr = T_MX) example_mx ->
   smtp_addr_list local_world (-1) (-2) example_mx fresh = None).
Proof.
  apply (smtp_addr_list_collects local_world (-1) (-2) example_mx fresh).
  reflexivity.
Defined.

Lemma smtp_domain_addr_without_mx_witness :
  exists addr_list s',
    smtp_domain_addr local_world 0 (-1) (-2) "nowhere.example" fresh
      = Some ((addr_list, false), s') /\
    Forall (fun rr => pref rr = PREF0) addr_list /\
    log s' = log fresh /\
    match dns_lookup local_world "nowhere.example" T_MX with
    | DNS_OK _ => False
    | DNS_NOTFOUND _ => addr_list = addresses_of local_world "nowhere.example" PREF0
    | DNS_RETRY reason =>
        if var_ign_mx_lookup_err local_world
        then addr_list = addresses_of local_world "nowhere.example" PREF0
        else addr_list = [] /\ smtp_errno s' = -1 /\ why s' = reason
    | DNS_FAIL reason =>
        if var_ign_mx_lookup_err local_world
        then addr_list = addresses_of local_world "nowhere.example" PREF0
        else addr_list = [] /\ smtp_errno s' = -2 /\ why s' = reason
    end.
Proof.
  apply (smtp_domain_addr_without_mx local_world 0 (-1) (-2) "nowhere.example" fresh).
  - reflexivity.
  - intros mx. vm_compute. discriminate.
Defined.

End SmtpAddr.

(** ** global/own_inet_addr.c *)

Module OwnInetAddr.

(** The configuration and the library: inet_addr_local() and
    inet_addr_host() append the addresses they find to the list and
    answer with their number, mystrtok() yields the tokens of the
    interfaces string one by one. *)
Record world : Type := {
  var_inet_interfaces : string;
  DEF_INET_INTERFACES : string;
  inet_addr_local : list Z;
  inet_addr_host : string -> list Z;
  mystrtok : string -> list string
}.

Section Own.

Variable w : world.

(** The [while ((host = mystrtok(&bufp, sep)) != 0)] loop; a host that
    is not found is fatal. *)
Fixpoint lookup_hosts (addr_list : list Z) (hosts : list string)
    : option (list Z) :=
  match hosts with
  | [] => Some addr_list
  | host :: hosts' =>
      match inet_addr_host w host with
      | [] => None
      | found => lookup_hosts (addr_list ++ found) hosts'
      end
  end.

(** own_inet_addr_init - initialize my own address list; the result is
    the list, or nothing after msg_fatal(). *)
Definition own_inet_addr_init : option (list Z) :=
  let addr_list := [] in
  if strcasecmp (var_inet_interfaces w) (DEF_INET_INTERFACES w) =? 0 then
    match inet_addr_local w with
    | [] => None
    | found => Some (addr_list ++ found)
    end
  else lookup_hosts addr_list (mystrtok w (var_inet_interfaces w)).

(** The test [addr_list.used == 0] on the static list, which both
    entry points make before anything else. *)
Definition initialized (addr_list : list Z) : option (list Z) :=
  if (length addr_list =? 0)%nat then own_inet_addr_init else Some addr_list.

(** own_inet_addr - is this my own internet address; the result is the
    return value and the static list as the call leaves it. *)
Definition own_inet_addr (s_addr : Z) (addr_list : list Z)
    : option (Z * list Z) :=
  addr_list ← initialized addr_list;
  Some (if existsb (fun own => s_addr =? own) addr_list then 1 else 0,
        addr_list).

(** own_inet_addr_list - return list of addresses; the list returned is
    the static list. *)
Definition own_inet_addr_list (addr_list : list Z) : option (list Z) :=
  initialized addr_list.

Lemma lookup_hosts_grows acc hosts l :
  lookup_hosts acc hosts = Some l ->
  exists more, l = acc ++ more /\ (hosts <> [] -> more <> []).
Proof.
  revert acc. induction hosts as [|host hosts IH]; intros acc; cbn [lookup_hosts].
  - intros [= <-]. exists []. by rewrite app_nil_r.
  - destruct (inet_addr_host w host) as [|a found] eqn:Hhost; [done|].
    intros (more & -> & _)%IH. exists ((a :: found) ++ more).
    by rewrite app_assoc.
Qed.

(** X27: own_inet_addr and own_inet_addr_list agree: one ends in the
    fatal error exactly when the other does, own_inet_addr answers 1
    exactly for the addresses on the list that own_inet_addr_list
    returns, and 0 otherwise, and both leave the same static list.  A
    list that was returned is returned again by every later call.
    With the default interfaces setting the list is that of the active
    interfaces and is not empty, and with named interfaces it is empty
    only when the setting names no host. *)
Theorem own_inet_addr_agrees (addr_list : list Z) :
  (forall s_addr,
      own_inet_addr s_addr addr_list = None <->
      own_inet_addr_list addr_list = None) /\
  (forall s_addr r addr_list',
      own_inet_addr s_addr addr_list = Some (r, addr_list') ->
      own_inet_addr_list addr_list = Some addr_list' /\
      (r = 1 <-> s_addr ∈ addr_list') /\ (r = 0 <-> s_addr ∉ addr_list')) /\
  (forall l, own_inet_addr_list addr_list = Some l ->
             own_inet_addr_list l = Some l) /\
  (forall l, own_inet_addr_list [] = Some l ->
             if strcasecmp (var_inet_interfaces w) (DEF_INET_INTERFACES w) =? 0
             then l = inet_addr_local w /\ l <> []
             else l = [] <-> mystrtok w (var_inet_interfaces w) = []).
Proof.
  unfold own_inet_addr, own_inet_addr_list.
  split; [|split; [|split]].
  - intros s_addr. by destruct (initialized addr_list).
  - intros s_addr r l. destruct (initialized addr_list) as [l0|]; [cbn|done].
    intros [= <- <-]. split; [done|].
    assert (Hin : existsb (fun own => s_addr =? own) l0 = true <-> s_addr ∈ l0).
    { rewrite existsb_exists. split.
      - intros (x & Hx & ->%Z.eqb_eq). by apply list_elem_of_In.
      - intros Hx. exists s_addr. split; [by apply list_elem_of_In|apply Z.eqb_refl]. }
    set (b := existsb (fun own => s_addr =? own) l0) in *.
    destruct b; (split; split); try done.
    + intros _. by apply Hin.
    + intros Hnot. destruct Hnot. by apply Hin.
    + intros Hl. by apply Hin in Hl.
    + intros _ Hl. by apply Hin in Hl.
  - intros l. unfold initialized at 1.
    destruct (Nat.eqb_spec (length addr_list) 0) as [Hnil|Hused].
    + intros Hinit. unfold initialized.
      destruct (Nat.eqb_spec (length l) 0) as [_|_]; done.
    + intros [= <-]. unfold initialized.
      by destruct (Nat.eqb_spec (length addr_list) 0).
  - intros l. unfold initialized. cbn [length Nat.eqb]. unfold own_inet_addr_init.
    destruct (strcasecmp _ _ =? 0).
    + destruct (inet_addr_local w) as [|a found]; [done|]. by intros [= <-].
    + intros Hhosts. destruct (lookup_hosts_grows _ _ _ Hhosts) as (more & -> & Hmore).
      cbn [app]. split.
      * intros ->. destruct (mystrtok w _); [done|]. by destruct Hmore.
      * intros Hnone. rewrite Hnone in Hhosts. by injection Hhosts as <-.
Qed.

End Own.

End OwnInetAddr.

(** ** nqmgr/qmgr_entry.c *)

Module Qmgr.

(** The in-core structures, held by handle; a pointer of the source is
    a handle here, and a list head is the list of the handles linked
    on it. *)
Record QMGR_ENTRY : Type := {
  e_stream : bool;
  e_message : nat;
  e_rcpt_len : Z;
  e_queue : nat;
  e_peer : nat
}.

Record QMGR_QUEUE : Type := {
  q_window : Z;
  q_todo_refcount : Z;
  q_busy_refcount : Z;
  q_todo : list nat;
  q_busy : list nat;
  q_blocker_tag : Z
}.

Record QMGR_PEER : Type := {
  p_job : nat;
  p_queue : nat;
  p_refcount : Z;
  p_entry_list : list nat
}.

Record QMGR_JOB : Type := {
  j_transport : nat;
  j_selected_entries : Z;
  j_rcpt_count : Z;
  j_rcpt_limit : Z;
  j_stack_level : Z
}.

Record QMGR_MESSAGE : Type := {
  m_refcount : Z;
  m_rcpt_count : Z;
  m_rcpt_offset : Z;
  m_job_list : list nat
}.

Record QMGR_TRANSPORT : Type := {
  t_blocker_tag : Z;
  t_job_list : list nat;
  t_job_current : option nat;
  t_candidate_cache_current : option nat
}.

Record state : Type := {
  entries : gmap nat QMGR_ENTRY;
  queues : gmap nat QMGR_QUEUE;
  peers : gmap nat QMGR_PEER;
  jobs : gmap nat QMGR_JOB;
  messages : gmap nat QMGR_MESSAGE;
  transports : gmap nat QMGR_TRANSPORT;
  qmgr_recipient_count : Z;
  qmgr_queue_count : Z;
  var_qmgr_rcpt_limit : Z;
  next_entry : nat
}.

Definition QMGR_QUEUE_TODO : Z := 1.
Definition QMGR_QUEUE_BUSY : Z := 2.

(** Modelled from the spec: the list macros of qmgr.h are not among the
    sources; the spec has an entry removed from a list and appended to
    a list. *)
Definition QMGR_LIST_UNLINK (head : list nat) (object : nat) : list nat :=
  filter (fun x => x <> object) head.

Definition QMGR_LIST_APPEND (head : list nat) (object : nat) : list nat :=
  head ++ [object].

Arguments QMGR_LIST_UNLINK : simpl never.
Arguments QMGR_LIST_APPEND : simpl never.

(** Assignments to the members of a structure reached by handle. *)
Definition with_entries (f : gmap nat QMGR_ENTRY -> gmap nat QMGR_ENTRY)
    (next : nat) (s : state) : state :=
  {| entries := f (entries s); queues := queues s; peers := peers s;
     jobs := jobs s; messages := messages s; transports := transports s;
     qmgr_recipient_count := qmgr_recipient_count s;
     qmgr_queue_count := qmgr_queue_count s;
     var_qmgr_rcpt_limit := var_qmgr_rcpt_limit s; next_entry := next |}.

Definition set_queue (q : nat) (Q : QMGR_QUEUE) (s : state) : state :=
  {| entries := entries s; queues := <[q := Q]> (queues s); peers := peers s;
     jobs := jobs s; messages := messages s; transports := transports s;
     qmgr_recipient_count := qmgr_recipient_count s;
     qmgr_queue_count := qmgr_queue_count s;
     var_qmgr_rcpt_limit := var_qmgr_rcpt_limit s; next_entry := next_entry s |}.

Definition set_peer (p : nat) (P : QMGR_PEER) (s : state) : state :=
  {| entries := entries s; queues := queues s; peers := <[p := P]> (peers s);
     jobs := jobs s; messages := messages s; transports := transports s;
     qmgr_recipient_count := qmgr_recipient_count s;
     qmgr_queue_count := qmgr_queue_count s;
     var_qmgr_rcpt_limit := var_qmgr_rcpt_limit s; next_entry := next_entry s |}.

Definition set_job (j : nat) (J : QMGR_JOB) (s : state) : state :=
  {| entries := entries s; queues := queues s; peers := peers s;
     jobs := <[j := J]> (jobs s); messages := messages s;
     transports := transports s;
     qmgr_recipient_count := qmgr_recipient_count s;
     qmgr_queue_count := qmgr_queue_count s;
     var_qmgr_rcpt_limit := var_qmgr_rcpt_limit s; next_entry := next_entry s |}.

Definition set_message (m : nat) (M : QMGR_MESSAGE) (s : state) : state :=
  {| entries := entries s; queues := queues s; peers := peers s;
     jobs := jobs s; messages := <[m := M]> (messages s);
     transports := transports s;
     qmgr_recipient_count := qmgr_recipient_count s;
     qmgr_queue_count := qmgr_queue_count s;
     var_qmgr_rcpt_limit := var_qmgr_rcpt_limit s; next_entry := next_entry s |}.

Definition set_transport (t : nat) (T : QMGR_TRANSPORT) (s : state) : state :=
  {| entries := entries s; queues := queues s; peers := peers s;
     jobs := jobs s; messages := messages s;
     transports := <[t := T]> (transports s);
     qmgr_recipient_count := qmgr_recipient_count s;
     qmgr_queue_count := qmgr_queue_count s;
     var_qmgr_rcpt_limit := var_qmgr_rcpt_limit s; next_entry := next_entry s |}.

Definition set_recipient_count (n : Z) (s : state) : state :=
  {| entries := entries s; queues := queues s; peers := peers s;
     jobs := jobs s; messages := messages s; transports := transports s;
     qmgr_recipient_count := n;
     qmgr_queue_count := qmgr_queue_count s;
     var_qmgr_rcpt_limit := var_qmgr_rcpt_limit s; next_entry := next_entry s |}.

Definition queue_lists (todo : list nat) (todo_refcount : Z) (busy : list nat)
    (busy_refcount : Z) (Q : QMGR_QUEUE) : QMGR_QUEUE :=
  {| q_window := q_window Q; q_todo_refcount := todo_refcount;
     q_busy_refcount := busy_refcount; q_todo := todo; q_busy := busy;
     q_blocker_tag := q_blocker_tag Q |}.

Definition queue_blocker_tag (tag : Z) (Q : QMGR_QUEUE) : QMGR_QUEUE :=
  {| q_window := q_window Q; q_todo_refcount := q_todo_refcount Q;
     q_busy_refcount := q_busy_refcount Q; q_todo := q_todo Q;
     q_busy := q_busy Q; q_blocker_tag := tag |}.

Definition peer_list (entry_list : list nat) (refcount : Z) (P : QMGR_PEER)
    : QMGR_PEER :=
  {| p_job := p_job P; p_queue := p_queue P; p_refcount := refcount;
     p_entry_list := entry_list |}.

Definition job_counts (selected rcpt_count : Z) (J : QMGR_JOB) : QMGR_JOB :=
  {| j_transport := j_transport J; j_selected_entries := selected;
     j_rcpt_count := rcpt_count; j_rcpt_limit := j_rcpt_limit J;
     j_stack_level := j_stack_level J |}.

Definition message_counts (refcount rcpt_count : Z) (M : QMGR_MESSAGE)
    : QMGR_MESSAGE :=
  {| m_refcount := refcount; m_rcpt_count := rcpt_count;
     m_rcpt_offset := m_rcpt_offset M; m_job_list := m_job_list M |}.

(** qmgr_entry_select - select queue entry for delivery.  A handle that
    is not in the store is a dangling pointer: no result. *)
Definition qmgr_entry_select (peer : nat) (s : state)
    : option (option nat * state) :=
  P ← peers s !! peer;
  match p_entry_list P with
  | [] => Some (None, s)
  | entry :: _ =>
      E ← entries s !! entry;
      let queue := e_queue E in
      Q ← queues s !! queue;
      let s := set_queue queue
                 (queue_lists (QMGR_LIST_UNLINK (q_todo Q) entry)
                              (q_todo_refcount Q - 1)
                              (QMGR_LIST_APPEND (q_busy Q) entry)
                              (q_busy_refcount Q + 1) Q) s in
      let s := set_peer peer
                 (peer_list (QMGR_LIST_UNLINK (p_entry_list P) entry)
                            (p_refcount P) P) s in
      J ← jobs s !! p_job P;
      Some (Some entry,
            set_job (p_job P)
              (job_counts (j_selected_entries J + 1) (j_rcpt_count J) J) s)
  end.

(** qmgr_entry_unselect - unselect queue entry for delivery *)
Definition qmgr_entry_unselect (entry : nat) (s : state) : option state :=
  E ← entries s !! entry;
  let peer := e_peer E in
  let queue := e_queue E in
  Q ← queues s !! queue;
  let s := set_queue queue
             (queue_lists (QMGR_LIST_APPEND (q_todo Q) entry)
                          (q_todo_refcount Q + 1)
                          (QMGR_LIST_UNLINK (q_busy Q) entry)
                          (q_busy_refcount Q - 1) Q) s in
  P ← peers s !! peer;
  let s := set_peer peer
             (peer_list (QMGR_LIST_APPEND (p_entry_list P) entry)
                        (p_refcount P) P) s in
  J ← jobs s !! p_job P;
  Some (set_job (p_job P)
          (job_counts (j_selected_entries J - 1) (j_rcpt_count J) J) s).

(** qmgr_entry_create - create queue todo entry; a dead queue is a
    panic. *)
Definition qmgr_entry_create (peer message : nat) (s : state)
    : option (nat * state) :=
  P ← peers s !! peer;
  let queue := p_queue P in
  Q ← queues s !! queue;
  if q_window Q =? 0 then None
  else
    let entry := next_entry s in
    M ← messages s !! message;
    let s := set_message message
               (message_counts (m_refcount M + 1) (m_rcpt_count M) M) s in
    let s := set_peer peer
               (peer_list (QMGR_LIST_APPEND (p_entry_list P) entry)
                          (p_refcount P + 1) P) s in
    let s := set_queue queue
               (queue_lists (QMGR_LIST_APPEND (q_todo Q) entry)
                            (q_todo_refcount Q + 1)
                            (q_busy Q) (q_busy_refcount Q) Q) s in
    let E := {| e_stream := false; e_message := message; e_rcpt_len := 0;
                e_queue := queue; e_peer := peer |} in
    Some (entry, with_entries (insert entry E) (S entry) s).

Section EntryDone.

(** The routines of the other modules of the queue manager that
    qmgr_entry_done calls. *)
Variable qmgr_job_move_limits : nat -> state -> state.
Variable qmgr_peer_free : nat -> state -> state.
Variable qmgr_queue_unthrottle : nat -> state -> state.
Variable qmgr_queue_done : nat -> state -> state.
Variable qmgr_active_done : nat -> state -> state.

(** The loop over the jobs of the message that gives recipient slots
    back to the sponsors. *)
Fixpoint sponsor_loop (message job : nat) (sponsors : list nat) (s : state)
    : option state :=
  match sponsors with
  | [] => Some s
  | sponsor :: rest =>
      S ← jobs s !! sponsor;
      M ← messages s !! message;
      if (j_rcpt_limit S <=? j_rcpt_count S) || (sponsor =? job)%nat then
        sponsor_loop message job rest s
      else if (j_stack_level S <? 0) || (m_rcpt_offset M =? 0) then
        sponsor_loop message job rest (qmgr_job_move_limits sponsor s)
      else sponsor_loop message job rest s
  end.

(** The update of the blocker tags of the queue and its transport. *)
Definition unblock (queue transport : nat) (s : state) : option state :=
  Q ← queues s !! queue;
  T ← transports s !! transport;
  if q_blocker_tag Q =? t_blocker_tag T then
    let s :=
      if (q_busy_refcount Q <? q_window Q) &&
         negb (match q_todo Q with [] => true | _ => false end)
      then set_transport transport
             {| t_blocker_tag := t_blocker_tag T + 2;
                t_job_list := t_job_list T;
                t_job_current := head (t_job_list T);
                t_candidate_cache_current := None |} s
      else s in
    if (q_busy_refcount Q <? q_window Q) || (q_window Q =? 0)
    then Some (set_queue queue (queue_blocker_tag 0 Q) s)
    else Some s
  else Some s.

(** The disposal of a queue that has no entries left. *)
Definition discard_queue (queue : nat) (s : state) : option state :=
  Q ← queues s !! queue;
  match q_todo Q, q_busy Q with
  | [], [] =>
      let s := if (q_window Q =? 0) &&
                  (2 * var_qmgr_rcpt_limit s <? qmgr_queue_count s)
               then qmgr_queue_unthrottle queue s else s in
      Q ← queues s !! queue;
      if 0 <? q_window Q then Some (qmgr_queue_done queue s) else Some s
  | _, _ => Some s
  end.

(** "Take this entry off the in-core queue." *)
Definition take_off_queue (entry : nat) (which : Z) (E : QMGR_ENTRY)
    (P : QMGR_PEER) (J : QMGR_JOB) (s : state) : option state :=
  let queue := e_queue E in
  let peer := e_peer E in
  let job := p_job P in
  if which =? QMGR_QUEUE_BUSY then
    Q ← queues s !! queue;
    Some (set_queue queue
            (queue_lists (q_todo Q) (q_todo_refcount Q)
                         (QMGR_LIST_UNLINK (q_busy Q) entry)
                         (q_busy_refcount Q - 1) Q) s)
  else if which =? QMGR_QUEUE_TODO then
    let s := set_peer peer
               (peer_list (QMGR_LIST_UNLINK (p_entry_list P) entry)
                          (p_refcount P) P) s in
    let s := set_job job
               (job_counts (j_selected_entries J + 1) (j_rcpt_count J) J) s in
    Q ← queues s !! queue;
    Some (set_queue queue
            (queue_lists (QMGR_LIST_UNLINK (q_todo Q) entry)
                         (q_todo_refcount Q - 1)
                         (q_busy Q) (q_busy_refcount Q) Q) s)
  else None.

(** "Decrease the in-core recipient counts and free the recipient list
    and the structure itself." *)
Definition free_entry (entry : nat) (E : QMGR_ENTRY) (job : nat) (s : state)
    : option state :=
  J ← jobs s !! job;
  let s := set_job job
             (job_counts (j_selected_entries J)
                         (j_rcpt_count J - e_rcpt_len E) J) s in
  M ← messages s !! e_message E;
  let s := set_message (e_message E)
             (message_counts (m_refcount M) (m_rcpt_count M - e_rcpt_len E) M)
             s in
  let s := set_recipient_count (qmgr_recipient_count s - e_rcpt_len E) s in
  Some (with_entries (delete entry) (next_entry s) s).

(** The return of recipient slots to the sponsors and to the next job. *)
Definition move_limits (message job : nat) (s : state) : option state :=
  M ← messages s !! message;
  s ← sponsor_loop message job (m_job_list M) s;
  M ← messages s !! message;
  Some (if m_rcpt_offset M =? 0 then qmgr_job_move_limits job s else s).

(** "When there are no more entries for this peer, discard the peer
    structure." *)
Definition release_peer (peer : nat) (s : state) : option state :=
  P ← peers s !! peer;
  let s := set_peer peer (peer_list (p_entry_list P) (p_refcount P - 1) P) s in
  Some (if p_refcount P - 1 =? 0 then qmgr_peer_free peer s else s).

(** "Update the in-core message reference count." *)
Definition release_message (message : nat) (s : state) : option state :=
  M ← messages s !! message;
  let s := set_message message
             (message_counts (m_refcount M - 1) (m_rcpt_count M) M) s in
  Some (if m_refcount M - 1 =? 0 then qmgr_active_done message s else s).

(** qmgr_entry_done - dispose of queue entry; an open file and a bad
    queue spec are panics. *)
Definition qmgr_entry_done (entry : nat) (which : Z) (s : state)
    : option state :=
  E ← entries s !! entry;
  let queue := e_queue E in
  let message := e_message E in
  let peer := e_peer E in
  P ← peers s !! peer;
  let job := p_job P in
  J ← jobs s !! job;
  let transport := j_transport J in
  if e_stream E then None
  else
    s ← take_off_queue entry which E P J s;
    s ← free_entry entry E job s;
    s ← move_limits message job s;
    s ← unblock queue transport s;
    s ← release_peer peer s;
    s ← discard_queue queue s;
    release_message message s.

End EntryDone.

(** Number of entries that point to a peer. *)
Definition refs (p : nat) (m : gmap nat QMGR_ENTRY) : nat :=
  size (filter (fun kv => e_peer kv.2 = p) m).

(** The invariant of the claim: every entry is on exactly one of the
    two lists of its queue, and on the list of its peer exactly when it
    is on the todo list. *)
Definition entry_invariant (s : state) : Prop :=
  forall e E, entries s !! e = Some E ->
    exists Q P,
      queues s !! e_queue E = Some Q /\ peers s !! e_peer E = Some P /\
      ((e ∈ q_todo Q /\ (e ∉ q_busy Q)) \/ ((e ∉ q_todo Q) /\ e ∈ q_busy Q)) /\
      (e ∈ p_entry_list P <-> e ∈ q_todo Q).

(** The lists link each entry at most once and only live entries that
    point back to the owner of the list, a peer counts the entries that
    point to it, and handles past next_entry are unused. *)
Record lists_wf (s : state) : Prop := {
  wf_queue_entries :
    forall q Q e, queues s !! q = Some Q -> e ∈ q_todo Q \/ e ∈ q_busy Q ->
      exists E, entries s !! e = Some E /\ e_queue E = q;
  wf_queue_nodup :
    forall q Q, queues s !! q = Some Q -> NoDup (q_todo Q) /\ NoDup (q_busy Q);
  wf_peer_entries :
    forall p P e, peers s !! p = Some P -> e ∈ p_entry_list P ->
      exists E, entries s !! e = Some E /\ e_peer E = p;
  wf_peer_nodup :
    forall p P, peers s !! p = Some P -> NoDup (p_entry_list P);
  wf_peer_refcount :
    forall p P, peers s !! p = Some P ->
      p_refcount P = Z.of_nat (refs p (entries s));
  wf_fresh :
    forall e, (next_entry s <= e)%nat -> entries s !! e = None
}.

Definition wf (s : state) : Prop := lists_wf s /\ entry_invariant s.

Lemma elem_of_unlink l e x :
  x ∈ QMGR_LIST_UNLINK l e <-> x <> e /\ x ∈ l.
Proof. unfold QMGR_LIST_UNLINK. by rewrite list_elem_of_filter. Qed.

Lemma elem_of_append l e x :
  x ∈ QMGR_LIST_APPEND l e <-> x ∈ l \/ x = e.
Proof.
  unfold QMGR_LIST_APPEND. by rewrite elem_of_app, list_elem_of_singleton.
Qed.

Lemma NoDup_unlink l e : NoDup l -> NoDup (QMGR_LIST_UNLINK l e).
Proof. apply NoDup_filter. Qed.

Lemma NoDup_append l e : NoDup l -> e ∉ l -> NoDup (QMGR_LIST_APPEND l e).
Proof.
  intros Hl He. apply NoDup_app. split; [done|]. split.
  - intros x Hx Hin. apply list_elem_of_singleton in Hin. by subst.
  - apply NoDup_singleton.
Qed.

Lemma unlink_absent l e : e ∉ l -> QMGR_LIST_UNLINK l e = l.
Proof.
  unfold QMGR_LIST_UNLINK. induction l as [|x l IH]; intros He; [done|].
  apply not_elem_of_cons in He as [Hne He].
  rewrite filter_cons_True by done. by rewrite IH.
Qed.

Lemma unlink_append l e :
  e ∉ l -> QMGR_LIST_UNLINK (QMGR_LIST_APPEND l e) e = l.
Proof.
  intros He. unfold QMGR_LIST_UNLINK, QMGR_LIST_APPEND.
  rewrite filter_app, filter_cons_False, filter_nil, app_nil_r by (by intros ?).
  by apply unlink_absent.
Qed.

(** A state that differs from a well-formed one in the lists of one
    queue and of one peer, by the position of one entry of theirs, is
    well-formed when that entry is placed as the invariant wants. *)
Lemma wf_relink s s' e E Q P todo' tr busy' br list' :
  wf s ->
  entries s !! e = Some E ->
  queues s !! e_queue E = Some Q ->
  peers s !! e_peer E = Some P ->
  entries s' = entries s ->
  next_entry s' = next_entry s ->
  queues s' = <[e_queue E := queue_lists todo' tr busy' br Q]> (queues s) ->
  peers s' = <[e_peer E := peer_list list' (p_refcount P) P]> (peers s) ->
  (forall x, x <> e -> (x ∈ todo' <-> x ∈ q_todo Q)) ->
  (forall x, x <> e -> (x ∈ busy' <-> x ∈ q_busy Q)) ->
  (forall x, x <> e -> (x ∈ list' <-> x ∈ p_entry_list P)) ->
  NoDup todo' -> NoDup busy' -> NoDup list' ->
  ((e ∈ todo' /\ (e ∉ busy')) \/ ((e ∉ todo') /\ e ∈ busy')) ->
  (e ∈ list' <-> e ∈ todo') ->
  wf s'.
Proof.
  intros [Hwf Hinv] HE HQ HP Hent Hnext Hqs Hps Htodo Hbusy Hlist
    Hnd1 Hnd2 Hnd3 Hone Hiff.
  destruct Hwf as [Hqe Hqn Hpe Hpn Hrc Hfr].
  split; [split|].
  - intros q Q0 x. rewrite Hqs, Hent, lookup_insert.
    case_decide as Hq; [subst q|by apply Hqe].
    intros [= <-]. cbn. destruct (decide (x = e)) as [->|Hx]; [by eauto|].
    rewrite (Htodo x Hx), (Hbusy x Hx). by apply Hqe.
  - intros q Q0. rewrite Hqs, lookup_insert.
    case_decide as Hq; [|by apply Hqn]. by intros [= <-].
  - intros p P0 x. rewrite Hps, Hent, lookup_insert.
    case_decide as Hp; [subst p|by apply Hpe].
    intros [= <-]. cbn. destruct (decide (x = e)) as [->|Hx]; [by eauto|].
    rewrite (Hlist x Hx). by apply Hpe.
  - intros p P0. rewrite Hps, lookup_insert.
    case_decide as Hp; [|by apply Hpn]. by intros [= <-].
  - intros p P0. rewrite Hps, Hent, lookup_insert.
    case_decide as Hp; [subst p|by apply Hrc].
    intros [= <-]. cbn. by apply Hrc.
  - intros x. rewrite Hnext, Hent. by apply Hfr.
  - intros x X. rewrite Hent. intros HX.
    destruct (Hinv x X HX) as (Q0 & P0 & HQ0 & HP0 & Hx1 & Hx2).
    rewrite Hqs, Hps, !lookup_insert.
    destruct (decide (x = e)) as [->|Hx].
    + assert (X = E) as -> by congruence.
      rewrite !decide_True by done. eexists _, _.
      split; [reflexivity|]. split; [reflexivity|]. cbn. by split.
    + exists (if decide (e_queue E = e_queue X)
              then queue_lists todo' tr busy' br Q else Q0),
             (if decide (e_peer E = e_peer X)
              then peer_list list' (p_refcount P) P else P0).
      split; [by destruct (decide (e_queue E = e_queue X))|].
      split; [by destruct (decide (e_peer E = e_peer X))|].
      assert (Hq : e_queue E = e_queue X -> Q0 = Q) by (intros Hq; congruence).
      assert (Hp : e_peer E = e_peer X -> P0 = P) by (intros Hp; congruence).
      destruct (decide (e_queue E = e_queue X)) as [Hq'|_],
        (decide (e_peer E = e_peer X)) as [Hp'|_]; cbn;
        rewrite ?(Hq Hq'), ?(Hp Hp') in *;
        rewrite ?(Htodo x Hx), ?(Hbusy x Hx), ?(Hlist x Hx); by split.
Qed.

(** What a well-formed state says about an entry that is on the list
    of a peer: it belongs to that peer and is on the todo list of its
    queue. *)
Lemma wf_on_peer_list s p P e :
  wf s -> peers s !! p = Some P -> e ∈ p_entry_list P ->
  exists E Q,
    entries s !! e = Some E /\ e_peer E = p /\
    queues s !! e_queue E = Some Q /\ e ∈ q_todo Q /\ (e ∉ q_busy Q).
Proof.
  intros [Hwf Hinv] HP He.
  destruct (wf_peer_entries _ Hwf _ _ _ HP He) as (E & HE & Hp).
  destruct (Hinv _ _ HE) as (Q & P0 & HQ & HP0 & Hone & Hiff).
  assert (P0 = P) as -> by congruence.
  exists E, Q. apply Hiff in He.
  destruct Hone as [[_ Hnb]|[Hnt _]]; [by repeat split|done].
Qed.

(** And about an entry that is on the busy list of its queue: it is on
    no other list. *)
Lemma wf_on_busy s e E Q :
  wf s -> entries s !! e = Some E -> queues s !! e_queue E = Some Q ->
  e ∈ q_busy Q ->
  exists P, peers s !! e_peer E = Some P /\ (e ∉ q_todo Q) /\
            (e ∉ p_entry_list P).
Proof.
  intros [Hwf Hinv] HE HQ He.
  destruct (Hinv _ _ HE) as (Q0 & P & HQ0 & HP & Hone & Hiff).
  assert (Q0 = Q) as -> by congruence.
  exists P. destruct Hone as [[_ Hnb]|[Hnt _]]; [done|].
  repeat split; [done|done|]. intros Hin. by apply Hiff in Hin.
Qed.

Lemma qmgr_entry_select_wf peer s r s' :
  wf s -> qmgr_entry_select peer s = Some (r, s') -> wf s'.
Proof.
  intros Hwf. unfold qmgr_entry_select.
  destruct (peers s !! peer) as [P|] eqn:HP; [cbn|done].
  destruct (p_entry_list P) as [|e rest] eqn:Hlist; [by intros [= _ <-]|].
  destruct (wf_on_peer_list s peer P e Hwf HP) as (E & Q & HE & Hp & HQ & Htodo & Hbusy);
    [rewrite Hlist; by left|].
  rewrite HE. cbn. rewrite HQ. cbn.
  destruct (jobs s !! p_job P) as [J|]; [cbn|done]. intros [= _ <-].
  destruct Hwf as [Hl Hinv]. pose proof (wf_queue_nodup _ Hl _ _ HQ) as [Hn1 Hn2].
  pose proof (wf_peer_nodup _ Hl _ _ HP) as Hn3.
  rewrite <- Hlist. subst peer.
  apply (wf_relink s _ e E Q P
           (QMGR_LIST_UNLINK (q_todo Q) e) (q_todo_refcount Q - 1)
           (QMGR_LIST_APPEND (q_busy Q) e) (q_busy_refcount Q + 1)
           (QMGR_LIST_UNLINK (p_entry_list P) e));
    try done; try reflexivity.
  - intros x Hx. rewrite elem_of_unlink. tauto.
  - intros x Hx. rewrite elem_of_append. tauto.
  - intros x Hx. rewrite elem_of_unlink. tauto.
  - by apply NoDup_unlink.
  - by apply NoDup_append.
  - by apply NoDup_unlink.
  - right. rewrite elem_of_unlink, elem_of_append. tauto.
  - rewrite !elem_of_unlink. tauto.
Qed.

Lemma qmgr_entry_unselect_wf entry s s' E Q :
  wf s ->
  entries s !! entry = Some E -> queues s !! e_queue E = Some Q ->
  entry ∈ q_busy Q ->
  qmgr_entry_unselect entry s = Some s' -> wf s'.
Proof.
  intros Hwf HE HQ Hbusy. unfold qmgr_entry_unselect.
  rewrite HE. cbn. rewrite HQ. cbn.
  destruct (wf_on_busy s entry E Q Hwf HE HQ Hbusy) as (P & HP & Htodo & Hlist).
  rewrite HP. cbn.
  destruct (jobs s !! p_job P) as [J|]; [cbn|done]. intros [= <-].
  destruct Hwf as [Hl Hinv]. pose proof (wf_queue_nodup _ Hl _ _ HQ) as [Hn1 Hn2].
  pose proof (wf_peer_nodup _ Hl _ _ HP) as Hn3.
  apply (wf_relink s _ entry E Q P
           (QMGR_LIST_APPEND (q_todo Q) entry) (q_todo_refcount Q + 1)
           (QMGR_LIST_UNLINK (q_busy Q) entry) (q_busy_refcount Q - 1)
           (QMGR_LIST_APPEND (p_entry_list P) entry));
    try done; try reflexivity.
  - intros x Hx. rewrite elem_of_append. tauto.
  - intros x Hx. rewrite elem_of_unlink. tauto.
  - intros x Hx. rewrite elem_of_append. tauto.
  - by apply NoDup_append.
  - by apply NoDup_unlink.
  - by apply NoDup_append.
  - left. rewrite elem_of_unlink, elem_of_append. tauto.
  - rewrite !elem_of_append. tauto.
Qed.

Lemma refs_insert p e E (m : gmap nat QMGR_ENTRY) :
  m !! e = None ->
  refs p (<[e := E]> m) =
    if decide (e_peer E = p) then S (refs p m) else refs p m.
Proof.
  intros Hnew. unfold refs. case_decide as Hp.
  - rewrite map_filter_insert_True by done.
    apply map_size_insert_None, map_lookup_filter_None_2. by left.
  - rewrite map_filter_insert_not'; [done|done|]. intros y Hy. congruence.
Qed.

Lemma refs_delete p e E (m : gmap nat QMGR_ENTRY) :
  m !! e = Some E ->
  refs p m =
    if decide (e_peer E = p) then S (refs p (delete e m))
    else refs p (delete e m).
Proof.
  intros Hold. rewrite <- (insert_delete_id m e E) at 1 by done.
  apply refs_insert, lookup_delete_eq.
Qed.

Lemma refs_none p e E (m : gmap nat QMGR_ENTRY) :
  refs p m = 0%nat -> m !! e = Some E -> e_peer E <> p.
Proof.
  unfold refs. intros Hzero HE Hp. apply map_size_empty_inv in Hzero.
  by apply (map_filter_empty_not_lookup _ _ e E) in Hzero.
Qed.

Lemma qmgr_entry_create_wf peer message s e s' :
  wf s -> qmgr_entry_create peer message s = Some (e, s') -> wf s'.
Proof.
  intros [Hwf Hinv]. unfold qmgr_entry_create.
  destruct (peers s !! peer) as [P|] eqn:HP; [cbn|done].
  destruct (queues s !! p_queue P) as [Q|] eqn:HQ; [cbn|done].
  destruct (q_window Q =? 0); [done|].
  destruct (messages s !! message) as [M|]; [cbn|done].
  intros [= <- <-].
  destruct Hwf as [Hqe Hqn Hpe Hpn Hrc Hfr].
  set (e := next_entry s).
  assert (Hnew : entries s !! e = None) by (by apply Hfr).
  assert (Hq_new : forall q Q0, queues s !! q = Some Q0 ->
                                (e ∉ q_todo Q0) /\ (e ∉ q_busy Q0)).
  { intros q Q0 HQ0. split; intros Hin;
      (destruct (Hqe q Q0 e HQ0) as (E0 & HE0 & _); [tauto|congruence]). }
  assert (Hp_new : forall p P0, peers s !! p = Some P0 -> e ∉ p_entry_list P0).
  { intros p P0 HP0 Hin. destruct (Hpe p P0 e HP0 Hin) as (E0 & HE0 & _).
    congruence. }
  assert (Hlive : forall x X, entries s !! x = Some X -> x <> e) by congruence.
  split; [split|]; cbn.
  - intros q Q0 x. rewrite lookup_insert. case_decide as Hq.
    + subst q. intros [= <-]. cbn. rewrite elem_of_append.
      destruct (decide (x = e)) as [->|Hx].
      * intros _. rewrite lookup_insert_eq. by eexists.
      * intros Hin. rewrite lookup_insert_ne by done.
        apply (Hqe _ Q); [done|tauto].
    + intros HQ0 Hin. destruct (Hqe _ _ _ HQ0 Hin) as (X & HX & HqX).
      exists X. by rewrite lookup_insert_ne by (by apply not_eq_sym, (Hlive x X)).
  - intros q Q0. rewrite lookup_insert. case_decide as Hq; [|by apply Hqn].
    intros [= <-]. cbn. destruct (Hqn _ _ HQ). destruct (Hq_new _ _ HQ).
    split; [by apply NoDup_append|done].
  - intros p P0 x. rewrite lookup_insert. case_decide as Hp.
    + subst p. intros [= <-]. cbn. rewrite elem_of_append.
      destruct (decide (x = e)) as [->|Hx].
      * intros _. rewrite lookup_insert_eq. by eexists.
      * intros Hin. rewrite lookup_insert_ne by done.
        apply (Hpe _ P); [done|tauto].
    + intros HP0 Hin. destruct (Hpe _ _ _ HP0 Hin) as (X & HX & HpX).
      exists X. by rewrite lookup_insert_ne by (by apply not_eq_sym, (Hlive x X)).
  - intros p P0. rewrite lookup_insert. case_decide as Hp; [|by apply Hpn].
    intros [= <-]. cbn. apply NoDup_append; [by apply (Hpn peer)|by apply (Hp_new peer)].
  - intros p P0. rewrite lookup_insert, (refs_insert p e) by done. cbn.
    case_decide as Hp.
    + subst p. intros [= <-]. cbn. rewrite (Hrc _ _ HP). lia.
    + intros HP0. by apply Hrc.
  - intros x Hx. cbn in *. rewrite lookup_insert_ne by lia. apply Hfr.
    unfold e in Hx. lia.
  - intros x X. cbn. rewrite lookup_insert. case_decide as Hx.
    + subst x. intros [= <-]. cbn. rewrite !lookup_insert_eq.
      eexists _, _. split; [done|]. split; [done|]. cbn.
      rewrite !elem_of_append. destruct (Hq_new _ _ HQ). split; [|tauto].
      left. split; [by right|done].
    + intros HX. destruct (Hinv x X HX) as (Q0 & P0 & HQ0 & HP0 & Hone & Hiff).
      rewrite !lookup_insert.
      exists (if decide (p_queue P = e_queue X)
              then queue_lists (QMGR_LIST_APPEND (q_todo Q) e)
                     (q_todo_refcount Q + 1) (q_busy Q) (q_busy_refcount Q) Q
              else Q0),
             (if decide (peer = e_peer X)
              then peer_list (QMGR_LIST_APPEND (p_entry_list P) e)
                     (p_refcount P + 1) P
              else P0).
      split; [by destruct (decide (p_queue P = e_queue X))|].
      split; [by destruct (decide (peer = e_peer X))|].
      assert (Hq : p_queue P = e_queue X -> Q0 = Q) by (intros Hq; congruence).
      assert (Hp : peer = e_peer X -> P0 = P) by (intros Hp; congruence).
      assert (Hxe : x <> e) by (by intros ->).
      destruct (decide (p_queue P = e_queue X)) as [Hq'|_],
        (decide (peer = e_peer X)) as [Hp'|_]; cbn;
        rewrite ?(Hq Hq'), ?(Hp Hp') in *; rewrite ?elem_of_append; tauto.
Qed.

(** The part of the state that the invariant speaks about. *)
Definition lists_of (Q : QMGR_QUEUE) : list nat * list nat :=
  (q_todo Q, q_busy Q).

Definition qcore (s : state) : gmap nat (list nat * list nat) :=
  lists_of <$> queues s.

Definition core (s : state) :=
  (entries s, peers s, next_entry s, qcore s).

Lemma qcore_lookup s q Q :
  queues s !! q = Some Q -> qcore s !! q = Some (q_todo Q, q_busy Q).
Proof. intros HQ. unfold qcore. by rewrite lookup_fmap, HQ. Qed.

Lemma qcore_lookup_inv s q t b :
  qcore s !! q = Some (t, b) ->
  exists Q, queues s !! q = Some Q /\ q_todo Q = t /\ q_busy Q = b.
Proof.
  unfold qcore. rewrite lookup_fmap. intros Hq.
  apply fmap_Some in Hq as (Q & HQ & [= -> ->]). by exists Q.
Qed.

Lemma qcore_set_queue s q Q :
  qcore (set_queue q Q s) = <[q := (q_todo Q, q_busy Q)]> (qcore s).
Proof. unfold qcore. cbn. by rewrite fmap_insert. Qed.

(** Well-formedness, read off the core. *)
Lemma wf_core s :
  wf s <->
  ((forall q t b e, qcore s !! q = Some (t, b) -> e ∈ t \/ e ∈ b ->
      exists E, entries s !! e = Some E /\ e_queue E = q) /\
   (forall q t b, qcore s !! q = Some (t, b) -> NoDup t /\ NoDup b) /\
   (forall p P e, peers s !! p = Some P -> e ∈ p_entry_list P ->
      exists E, entries s !! e = Some E /\ e_peer E = p) /\
   (forall p P, peers s !! p = Some P -> NoDup (p_entry_list P)) /\
   (forall p P, peers s !! p = Some P ->
      p_refcount P = Z.of_nat (refs p (entries s))) /\
   (forall e, (next_entry s <= e)%nat -> entries s !! e = None) /\
   (forall e E, entries s !! e = Some E ->
      exists t b P,
        qcore s !! e_queue E = Some (t, b) /\ peers s !! e_peer E = Some P /\
        ((e ∈ t /\ (e ∉ b)) \/ ((e ∉ t) /\ e ∈ b)) /\
        (e ∈ p_entry_list P <-> e ∈ t))).
Proof.
  split.
  - intros [[Hqe Hqn Hpe Hpn Hrc Hfr] Hinv]. repeat split; try done.
    + intros q t b e Hq. destruct (qcore_lookup_inv _ _ _ _ Hq) as (Q & HQ & <- & <-).
      by apply Hqe.
    + destruct (qcore_lookup_inv _ _ _ _ H) as (Q & HQ & <- & <-).
      by apply (Hqn q).
    + destruct (qcore_lookup_inv _ _ _ _ H) as (Q & HQ & <- & <-).
      by apply (Hqn q).
    + intros e E HE. destruct (Hinv e E HE) as (Q & P & HQ & HP & Hone & Hiff).
      exists (q_todo Q), (q_busy Q), P. split; [by apply qcore_lookup|done].
  - intros (Hqe & Hqn & Hpe & Hpn & Hrc & Hfr & Hinv). split; [split|]; try done.
    + intros q Q e HQ. by apply (Hqe q), qcore_lookup.
    + intros q Q HQ. by apply (Hqn q), qcore_lookup.
    + intros e E HE. destruct (Hinv e E HE) as (t & b & P & Hq & HP & Hone & Hiff).
      destruct (qcore_lookup_inv _ _ _ _ Hq) as (Q & HQ & <- & <-).
      by exists Q, P.
Qed.

Lemma wf_alike s s' : core s' = core s -> wf s -> wf s'.
Proof.
  unfold core. intros [= He Hp Hn Hq]. rewrite !wf_core.
  by rewrite He, Hp, Hn, Hq.
Qed.

(** Once an entry has been unlinked from the lists and freed, and its
    peer counts one entry less, the state is well-formed again. *)
Lemma wf_unlinked s s' e E Q P :
  wf s ->
  entries s !! e = Some E ->
  queues s !! e_queue E = Some Q ->
  peers s !! e_peer E = Some P ->
  entries s' = delete e (entries s) ->
  next_entry s' = next_entry s ->
  peers s' = <[e_peer E := peer_list (QMGR_LIST_UNLINK (p_entry_list P) e)
                             (p_refcount P - 1) P]> (peers s) ->
  qcore s' = <[e_queue E := (QMGR_LIST_UNLINK (q_todo Q) e,
                             QMGR_LIST_UNLINK (q_busy Q) e)]> (qcore s) ->
  wf s'.
Proof.
  intros Hwf HE HQ HP Hent Hnext Hps Hqs.
  pose proof (qcore_lookup _ _ _ HQ) as HQc.
  apply wf_core in Hwf as (Hqe & Hqn & Hpe & Hpn & Hrc & Hfr & Hinv).
  apply wf_core. rewrite Hent, Hnext, Hps, Hqs.
  assert (Hkeep : forall x X, entries s !! x = Some X -> x <> e ->
                              delete e (entries s) !! x = Some X).
  { intros x X HX Hx. by rewrite lookup_delete_ne. }
  split; [|split; [|split; [|split; [|split; [|split]]]]].
  - intros q t b x. rewrite lookup_insert. case_decide as Hq.
    + subst q. intros [= <- <-]. rewrite !elem_of_unlink. intros Hin.
      destruct (Hqe _ _ _ x HQc) as (X & HX & HqX); [tauto|].
      exists X. split; [apply Hkeep; [done|tauto]|done].
    + intros Hq0 Hin. destruct (Hqe _ _ _ x Hq0 Hin) as (X & HX & HqX).
      exists X. split; [|done]. apply Hkeep; [done|]. intros ->. congruence.
  - intros q t b. rewrite lookup_insert. case_decide as Hq; [|by apply Hqn].
    intros [= <- <-]. destruct (Hqn _ _ _ HQc). split; by apply NoDup_unlink.
  - intros p P0 x. rewrite lookup_insert. case_decide as Hp.
    + subst p. intros [= <-]. cbn. rewrite elem_of_unlink. intros [Hx Hin].
      destruct (Hpe _ _ x HP Hin) as (X & HX & HpX).
      exists X. split; [by apply Hkeep|done].
    + intros HP0 Hin. destruct (Hpe _ _ x HP0 Hin) as (X & HX & HpX).
      exists X. split; [|done]. apply Hkeep; [done|]. intros ->. congruence.
  - intros p P0. rewrite lookup_insert. case_decide as Hp; [|by apply Hpn].
    intros [= <-]. cbn. by apply NoDup_unlink, (Hpn (e_peer E)).
  - intros p P0. rewrite lookup_insert.
    pose proof (refs_delete p e E (entries s) HE) as Hrefs.
    case_decide as Hp.
    + subst p. intros [= <-]. cbn. rewrite (Hrc _ _ HP), Hrefs. lia.
    + intros HP0. rewrite <- Hrefs. by apply Hrc.
  - intros x Hx. destruct (decide (x = e)) as [->|Hne];
      [apply lookup_delete_eq|]. rewrite lookup_delete_ne by done. by apply Hfr.
  - intros x X HX. apply lookup_delete_Some in HX as [Hx HX].
    apply not_eq_sym in Hx.
    destruct (Hinv x X HX) as (t & b & P0 & Hq0 & HP0 & Hone & Hiff).
    rewrite !lookup_insert.
    exists (if decide (e_queue E = e_queue X)
            then QMGR_LIST_UNLINK (q_todo Q) e else t),
           (if decide (e_queue E = e_queue X)
            then QMGR_LIST_UNLINK (q_busy Q) e else b),
           (if decide (e_peer E = e_peer X)
            then peer_list (QMGR_LIST_UNLINK (p_entry_list P) e)
                   (p_refcount P - 1) P
            else P0).
    split; [by destruct (decide (e_queue E = e_queue X))|].
    split; [by destruct (decide (e_peer E = e_peer X))|].
    assert (Hq : e_queue E = e_queue X -> t = q_todo Q /\ b = q_busy Q)
      by (intros Hq; rewrite Hq in HQc; split; congruence).
    assert (Hp : e_peer E = e_peer X -> P0 = P) by (intros Hp; congruence).
    destruct (decide (e_queue E = e_queue X)) as [Hq'|_],
      (decide (e_peer E = e_peer X)) as [Hp'|_]; cbn;
      try (destruct (Hq Hq') as [-> ->]); rewrite ?(Hp Hp') in *;
      rewrite ?elem_of_unlink; tauto.
Qed.

Lemma wf_peer_freed s s' p P :
  wf s ->
  peers s !! p = Some P -> p_refcount P = 0 ->
  entries s' = entries s -> next_entry s' = next_entry s ->
  qcore s' = qcore s -> peers s' = delete p (peers s) ->
  wf s'.
Proof.
  intros Hwf HP Hzero Hent Hnext Hqs Hps.
  apply wf_core in Hwf as (Hqe & Hqn & Hpe & Hpn & Hrc & Hfr & Hinv).
  apply wf_core. rewrite Hent, Hnext, Hps, Hqs.
  assert (Hunused : forall x X, entries s !! x = Some X -> e_peer X <> p).
  { intros x X HX. apply (refs_none p x X (entries s)); [|done].
    pose proof (Hrc _ _ HP) as Hcount. lia. }
  split; [done|]. split; [done|].
  split; [|split; [|split; [|split; [done|]]]].
  - intros p0 P0 x HP0. apply lookup_delete_Some in HP0 as [_ HP0]. by apply Hpe.
  - intros p0 P0 HP0. apply lookup_delete_Some in HP0 as [_ HP0]. by apply (Hpn p0).
  - intros p0 P0 HP0. apply lookup_delete_Some in HP0 as [_ HP0]. by apply Hrc.
  - intros x X HX. destruct (Hinv x X HX) as (t & b & P0 & Hq0 & HP0 & Hrest).
    exists t, b, P0. split; [done|]. split; [|done].
    rewrite lookup_delete_ne; [done|]. apply not_eq_sym. by apply (Hunused x).
Qed.

Lemma wf_queue_done s s' q :
  wf s ->
  qcore s !! q = Some ([], []) ->
  entries s' = entries s -> next_entry s' = next_entry s ->
  peers s' = peers s -> qcore s' = delete q (qcore s) ->
  wf s'.
Proof.
  intros Hwf Hempty Hent Hnext Hps Hqs.
  apply wf_core in Hwf as (Hqe & Hqn & Hpe & Hpn & Hrc & Hfr & Hinv).
  apply wf_core. rewrite Hent, Hnext, Hps, Hqs.
  split; [|split; [|split; [done|split; [done|split; [done|split; [done|]]]]]].
  - intros q0 t b x Hq0. apply lookup_delete_Some in Hq0 as [_ Hq0]. by apply Hqe.
  - intros q0 t b Hq0. apply lookup_delete_Some in Hq0 as [_ Hq0].
    by apply (Hqn q0).
  - intros x X HX. destruct (Hinv x X HX) as (t & b & P0 & Hq0 & HP0 & Hone & Hiff).
    exists t, b, P0. split; [|done].
    rewrite lookup_delete_ne; [done|]. intros Hq. rewrite <- Hq in Hq0.
    assert (t = [] /\ b = []) as [-> ->] by (split; congruence).
    destruct Hone as [[Hin _]|[_ Hin]]; by apply elem_of_nil in Hin.
Qed.

Section EntryDoneInvariant.

Variable qmgr_job_move_limits : nat -> state -> state.
Variable qmgr_peer_free : nat -> state -> state.
Variable qmgr_queue_unthrottle : nat -> state -> state.
Variable qmgr_queue_done : nat -> state -> state.
Variable qmgr_active_done : nat -> state -> state.

(** What the routines called by qmgr_entry_done leave alone. *)
Hypothesis move_limits_core :
  forall j s, core (qmgr_job_move_limits j s) = core s.
Hypothesis queue_unthrottle_core :
  forall q s, core (qmgr_queue_unthrottle q s) = core s.
Hypothesis peer_free_core :
  forall p s,
    core (qmgr_peer_free p s) =
    (entries s, delete p (peers s), next_entry s, qcore s).
Hypothesis queue_done_core :
  forall q s,
    core (qmgr_queue_done q s) =
    (entries s, peers s, next_entry s, delete q (qcore s)).
Hypothesis active_done_wf :
  forall m s, wf s -> wf (qmgr_active_done m s).

Lemma sponsor_loop_core message job sponsors s s' :
  sponsor_loop qmgr_job_move_limits message job sponsors s = Some s' -> core s' = core s.
Proof.
  revert s. induction sponsors as [|sponsor rest IH]; intros s; cbn.
  - by intros [= <-].
  - destruct (jobs s !! sponsor) as [S|]; [cbn|done].
    destruct (messages s !! message) as [M|]; [cbn|done].
    destruct (_ || _); [by apply IH|].
    destruct (_ || _); [|by apply IH].
    intros Hrun. by rewrite (IH _ Hrun), move_limits_core.
Qed.

Lemma move_limits_stage message job s s' :
  move_limits qmgr_job_move_limits message job s = Some s' -> core s' = core s.
Proof.
  unfold move_limits.
  destruct (messages s !! message) as [M|]; [cbn|done].
  destruct (sponsor_loop qmgr_job_move_limits message job (m_job_list M) s) as [s1|] eqn:Hloop;
    [cbn|done].
  destruct (messages s1 !! message) as [M1|]; [cbn|done]. intros [= <-].
  apply sponsor_loop_core in Hloop.
  destruct (m_rcpt_offset M1 =? 0); [by rewrite move_limits_core|done].
Qed.

Lemma core_set_queue_same_lists s q Q Q' :
  queues s !! q = Some Q -> lists_of Q' = lists_of Q ->
  core (set_queue q Q' s) = core s.
Proof.
  intros HQ Hlists. unfold core. rewrite qcore_set_queue. cbn.
  f_equal. unfold lists_of in Hlists. rewrite Hlists.
  apply insert_id. by apply qcore_lookup.
Qed.

Lemma unblock_core queue transport s s' :
  unblock queue transport s = Some s' -> core s' = core s.
Proof.
  unfold unblock.
  destruct (queues s !! queue) as [Q|] eqn:HQ; [cbn|done].
  destruct (transports s !! transport) as [T|]; [cbn|done].
  destruct (q_blocker_tag Q =? t_blocker_tag T); [|by intros [= <-]].
  destruct (_ && _); destruct (_ || _); intros [= <-]; try done;
    by rewrite (core_set_queue_same_lists _ _ Q).
Qed.

Lemma peer_list_id P : peer_list (p_entry_list P) (p_refcount P) P = P.
Proof. by destruct P. Qed.

(** The entry is on the list that [which] names. *)
Definition on_list (entry : nat) (which : Z) (Q : QMGR_QUEUE) : Prop :=
  (which = QMGR_QUEUE_BUSY /\ entry ∈ q_busy Q) \/
  (which = QMGR_QUEUE_TODO /\ entry ∈ q_todo Q).

Lemma take_off_queue_core s s1 entry which E Q P J :
  wf s ->
  entries s !! entry = Some E ->
  queues s !! e_queue E = Some Q ->
  peers s !! e_peer E = Some P ->
  on_list entry which Q ->
  take_off_queue entry which E P J s = Some s1 ->
  entries s1 = entries s /\ next_entry s1 = next_entry s /\
  peers s1 = <[e_peer E := peer_list (QMGR_LIST_UNLINK (p_entry_list P) entry)
                             (p_refcount P) P]> (peers s) /\
  qcore s1 = <[e_queue E := (QMGR_LIST_UNLINK (q_todo Q) entry,
                             QMGR_LIST_UNLINK (q_busy Q) entry)]> (qcore s).
Proof.
  intros Hwf HE HQ HP Hon. unfold take_off_queue.
  destruct (proj2 Hwf _ _ HE) as (Q0 & P0 & HQ0 & HP0 & Hone & Hiff).
  assert (Q0 = Q) as -> by congruence. assert (P0 = P) as -> by congruence.
  destruct Hon as [[-> Hin]|[-> Hin]]; cbn [Z.eqb QMGR_QUEUE_BUSY QMGR_QUEUE_TODO
                                             Pos.eqb].
  - assert (Hnt : entry ∉ q_todo Q) by tauto.
    assert (Hnl : entry ∉ p_entry_list P) by tauto.
    rewrite HQ. cbn. intros [= <-]. rewrite qcore_set_queue. cbn.
    rewrite !(unlink_absent _ _ Hnt), (unlink_absent _ _ Hnl), peer_list_id.
    by rewrite insert_id.
  - assert (Hnb : entry ∉ q_busy Q) by tauto.
    cbn. rewrite HQ. cbn. intros [= <-]. rewrite qcore_set_queue. cbn.
    by rewrite (unlink_absent _ _ Hnb).
Qed.

Lemma free_entry_core entry E job s1 s2 :
  free_entry entry E job s1 = Some s2 ->
  entries s2 = delete entry (entries s1) /\ next_entry s2 = next_entry s1 /\
  peers s2 = peers s1 /\ qcore s2 = qcore s1.
Proof.
  unfold free_entry.
  destruct (jobs s1 !! job) as [J|]; [cbn|done].
  destruct (messages s1 !! e_message E) as [M|]; [cbn|done].
  by intros [= <-].
Qed.

Lemma discard_queue_wf queue s s' :
  wf s ->
  discard_queue qmgr_queue_unthrottle qmgr_queue_done queue s = Some s' ->
  wf s'.
Proof.
  intros Hwf. unfold discard_queue.
  destruct (queues s !! queue) as [Q|] eqn:HQ; [cbn|done].
  destruct (q_todo Q) as [|x t] eqn:Ht; [|by intros [= <-]].
  destruct (q_busy Q) as [|y b] eqn:Hb; [|by intros [= <-]].
  set (s1 := if _ && _ then qmgr_queue_unthrottle queue s else s).
  assert (Hcore : core s1 = core s)
    by (subst s1; destruct (_ && _); [apply queue_unthrottle_core|done]).
  destruct (queues s1 !! queue) as [Q1|]; [cbn|done].
  pose proof (wf_alike _ _ Hcore Hwf) as Hwf1.
  destruct (0 <? q_window Q1); intros [= <-]; [|done].
  pose proof (queue_done_core queue s1) as Hdone.
  unfold core in Hdone, Hcore. injection Hdone as He Hp Hn Hq.
  injection Hcore as _ _ _ Hq1.
  apply (wf_queue_done s1 _ queue); try done.
  rewrite Hq1. apply qcore_lookup in HQ. by rewrite Ht, Hb in HQ.
Qed.

Lemma release_message_wf message s s' :
  wf s -> release_message qmgr_active_done message s = Some s' -> wf s'.
Proof.
  intros Hwf. unfold release_message.
  destruct (messages s !! message) as [M|]; [cbn|done]. intros [= <-].
  destruct (_ =? 0); [apply active_done_wf|]; by apply (wf_alike s).
Qed.

Lemma qmgr_entry_done_wf entry which s s' E Q :
  wf s ->
  entries s !! entry = Some E ->
  queues s !! e_queue E = Some Q ->
  on_list entry which Q ->
  qmgr_entry_done qmgr_job_move_limits qmgr_peer_free qmgr_queue_unthrottle
    qmgr_queue_done qmgr_active_done entry which s = Some s' ->
  wf s'.
Proof.
  intros Hwf HE HQ Hon. unfold qmgr_entry_done. rewrite HE. cbn.
  destruct (proj2 Hwf _ _ HE) as (Q0 & P & _ & HP & _).
  rewrite HP. cbn.
  destruct (jobs s !! p_job P) as [J|]; [cbn|done].
  destruct (e_stream E); [done|].
  destruct (take_off_queue entry which E P J s) as [s1|] eqn:H1; [cbn|done].
  destruct (free_entry entry E (p_job P) s1) as [s2|] eqn:H2; [cbn|done].
  destruct (move_limits qmgr_job_move_limits (e_message E) (p_job P) s2) as [s3|] eqn:H3; [cbn|done].
  destruct (unblock (e_queue E) (j_transport J) s3) as [s4|] eqn:H4; [cbn|done].
  destruct (release_peer qmgr_peer_free (e_peer E) s4) as [s5|] eqn:H5; [cbn|done].
  destruct (discard_queue qmgr_queue_unthrottle qmgr_queue_done (e_queue E) s5)
    as [s6|] eqn:H6; [cbn|done].
  intros H7.
  apply (release_message_wf (e_message E) s6); [|done].
  apply (discard_queue_wf (e_queue E) s5); [|done].
  destruct (take_off_queue_core _ _ _ _ _ _ _ _ Hwf HE HQ HP Hon H1)
    as (He1 & Hn1 & Hp1 & Hq1).
  destruct (free_entry_core _ _ _ _ _ H2) as (He2 & Hn2 & Hp2 & Hq2).
  apply move_limits_stage in H3. apply unblock_core in H4.
  assert (Hcore4 : core s4 = core s2) by congruence.
  unfold core in Hcore4. injection Hcore4 as He4 Hp4 Hn4 Hq4.
  unfold release_peer in H5.
  rewrite Hp4, Hp2, Hp1, lookup_insert_eq in H5. cbn in H5.
  set (s4' := set_peer _ _ s4) in H5.
  assert (Hwf4 : wf s4').
  { apply (wf_unlinked s s4' entry E Q P); try done; subst s4'; cbn.
    - congruence.
    - congruence.
    - by rewrite Hp4, Hp2, Hp1, insert_insert_eq.
    - change (qcore s4 = <[e_queue E := (QMGR_LIST_UNLINK (q_todo Q) entry,
               QMGR_LIST_UNLINK (q_busy Q) entry)]> (qcore s)). congruence. }
  destruct (Z.eqb_spec (p_refcount P - 1) 0) as [Hzero|_];
    injection H5 as <-; [|done].
  pose proof (peer_free_core (e_peer E) s4') as Hfree.
  unfold core in Hfree. injection Hfree as He5 Hp5 Hn5 Hq5.
  eapply (wf_peer_freed s4' _ (e_peer E)); try done.
  - subst s4'. cbn. apply lookup_insert_eq.
  - done.
Qed.

(** C6: on a state in which the lists are well-formed and every entry
    is on exactly one of the two lists of its queue, and on the list of
    its peer exactly when it is on the todo list, the same holds after
    qmgr_entry_create, after qmgr_entry_select, after
    qmgr_entry_unselect of an entry of the busy list, and after
    qmgr_entry_done of an entry of the list that its second argument
    names (busy or todo), for the entries that remain. *)
Theorem qmgr_entry_operations_preserve_invariant (s : state)
    (Hlists : lists_wf s) (Hinv : entry_invariant s) :
  (forall peer message e s',
      qmgr_entry_create peer message s = Some (e, s') ->
      lists_wf s' /\ entry_invariant s') /\
  (forall peer r s',
      qmgr_entry_select peer s = Some (r, s') ->
      lists_wf s' /\ entry_invariant s') /\
  (forall entry E Q s',
      entries s !! entry = Some E -> queues s !! e_queue E = Some Q ->
      entry ∈ q_busy Q ->
      qmgr_entry_unselect entry s = Some s' ->
      lists_wf s' /\ entry_invariant s') /\
  (forall entry which E Q s',
      entries s !! entry = Some E -> queues s !! e_queue E = Some Q ->
      on_list entry which Q ->
      qmgr_entry_done qmgr_job_move_limits qmgr_peer_free
        qmgr_queue_unthrottle qmgr_queue_done qmgr_active_done
        entry which s = Some s' ->
      lists_wf s' /\ entry_invariant s').
Proof.
  assert (Hwf : wf s) by (by split).
  split; [|split; [|split]].
  - intros peer message e s'. by apply qmgr_entry_create_wf.
  - intros peer r s'. by apply qmgr_entry_select_wf.
  - intros entry E Q s'. by apply qmgr_entry_unselect_wf.
  - intros entry which E Q s'. by apply qmgr_entry_done_wf.
Qed.

End EntryDoneInvariant.

(** The state with one entry moved to the tail of the todo list of its
    queue and of the list of its peer. *)
Definition requeued (e : nat) (E : QMGR_ENTRY) (Q : QMGR_QUEUE) (P : QMGR_PEER)
    (s : state) : state :=
  set_peer (e_peer E)
    (peer_list (QMGR_LIST_APPEND (QMGR_LIST_UNLINK (p_entry_list P) e) e)
               (p_refcount P) P)
    (set_queue (e_queue E)
       (queue_lists (QMGR_LIST_APPEND (QMGR_LIST_UNLINK (q_todo Q) e) e)
                    (q_todo_refcount Q) (q_busy Q) (q_busy_refcount Q) Q)
       s).

Lemma job_counts_restore J :
  job_counts (j_selected_entries J + 1 - 1) (j_rcpt_count J)
    (job_counts (j_selected_entries J + 1) (j_rcpt_count J) J) = J.
Proof. destruct J. unfold job_counts. cbn. f_equal. lia. Qed.

Lemma queue_lists_id Q :
  queue_lists (q_todo Q) (q_todo_refcount Q) (q_busy Q) (q_busy_refcount Q) Q = Q.
Proof. by destruct Q. Qed.

Lemma relink_last l e :
  e ∉ l -> QMGR_LIST_APPEND (QMGR_LIST_UNLINK (l ++ [e]) e) e = l ++ [e].
Proof.
  intros He. unfold QMGR_LIST_APPEND. f_equal. by apply unlink_append.
Qed.

Lemma relink_only e : QMGR_LIST_APPEND (QMGR_LIST_UNLINK [e] e) e = [e].
Proof. apply (relink_last [] e), not_elem_of_nil. Qed.

(** C7 (as the code has it): qmgr_entry_select takes the first entry
    of the list of the peer off the todo list of its queue and off the
    list of the peer, appends it to the busy list, decrements
    todo_refcount and increments busy_refcount and the selected_entries
    of the job; qmgr_entry_unselect right after it succeeds and gives
    back the state before the select, counters and busy list included,
    except that the entry now is the last one on the todo list and on
    the list of the peer; the state is the same as before when the
    entry was the last one on the todo list and the only one of its
    peer. *)
Theorem qmgr_entry_select_unselect (s : state)
    (Hlists : lists_wf s) (Hinv : entry_invariant s)
    (peer e : nat) (s' : state)
    (Hselect : qmgr_entry_select peer s = Some (Some e, s')) :
  exists E Q P J,
    entries s !! e = Some E /\ e_peer E = peer /\
    queues s !! e_queue E = Some Q /\ peers s !! peer = Some P /\
    jobs s !! p_job P = Some J /\
    head (p_entry_list P) = Some e /\
    s' = set_job (p_job P)
           (job_counts (j_selected_entries J + 1) (j_rcpt_count J) J)
           (set_peer peer
              (peer_list (QMGR_LIST_UNLINK (p_entry_list P) e) (p_refcount P) P)
              (set_queue (e_queue E)
                 (queue_lists (QMGR_LIST_UNLINK (q_todo Q) e)
                              (q_todo_refcount Q - 1)
                              (QMGR_LIST_APPEND (q_busy Q) e)
                              (q_busy_refcount Q + 1) Q)
                 s)) /\
    qmgr_entry_unselect e s' = Some (requeued e E Q P s) /\
    (forall t, q_todo Q = t ++ [e] -> p_entry_list P = [e] ->
               requeued e E Q P s = s).
Proof.
  assert (Hwf : wf s) by (by split).
  revert Hselect. unfold qmgr_entry_select.
  destruct (peers s !! peer) as [P|] eqn:HP; [cbn|done].
  destruct (p_entry_list P) as [|e0 rest] eqn:Hlist; [by intros [= ]|].
  destruct (wf_on_peer_list s peer P e0 Hwf HP)
    as (E & Q & HE & Hp & HQ & Htodo & Hbusy); [rewrite Hlist; by left|].
  rewrite HE. cbn. rewrite HQ. cbn.
  destruct (jobs s !! p_job P) as [J|] eqn:HJ; [cbn|done].
  intros [= <- <-]. rewrite <- Hlist.
  exists E, Q, P, J. repeat split; try done; [by rewrite Hlist|..].
  - unfold qmgr_entry_unselect. cbn. rewrite HE. cbn.
    rewrite lookup_insert_eq. cbn. rewrite Hp, lookup_insert_eq. cbn.
    rewrite lookup_insert_eq. cbn. f_equal.
    unfold requeued, set_job, set_peer, set_queue. cbn. rewrite Hp.
    rewrite !insert_insert_eq, job_counts_restore, (insert_id (jobs s)) by done.
    rewrite (unlink_append _ _ Hbusy).
    unfold queue_lists, peer_list. cbn. do 4 f_equal; lia.
  - intros t Ht Hone. unfold requeued, set_peer, set_queue. cbn.
    assert (Het : e0 ∉ t).
    { destruct (wf_queue_nodup _ Hlists _ _ HQ) as [Hnd _].
      rewrite Ht in Hnd. apply NoDup_app in Hnd as (_ & Hnd & _).
      intros Hin. apply (Hnd _ Hin). by left. }
    rewrite Ht, Hone, (relink_last t e0 Het), relink_only, <- Ht, <- Hone.
    rewrite queue_lists_id, peer_list_id, Hp, !insert_id by done.
    by destruct s.
Qed.

(** The reference counts of a queue are the lengths of its lists. *)
Definition counts_ok (s : state) : Prop :=
  forall q Q, queues s !! q = Some Q ->
    q_todo_refcount Q = Z.of_nat (length (q_todo Q)) /\
    q_busy_refcount Q = Z.of_nat (length (q_busy Q)).

Lemma length_unlink l e :
  NoDup l -> e ∈ l -> length l = S (length (QMGR_LIST_UNLINK l e)).
Proof.
  unfold QMGR_LIST_UNLINK. induction 1 as [|x l Hx Hl IH]; intros He.
  { by apply elem_of_nil in He. }
  apply elem_of_cons in He as [->|He].
  - rewrite filter_cons_False by (by intros ?).
    fold (QMGR_LIST_UNLINK l x). by rewrite (unlink_absent l x Hx).
  - rewrite filter_cons_True by (by intros ->). cbn. by rewrite <- IH.
Qed.

Lemma length_append l e : length (QMGR_LIST_APPEND l e) = S (length l).
Proof. unfold QMGR_LIST_APPEND. rewrite length_app. cbn. lia. Qed.

Lemma counts_same s s' : queues s' = queues s -> counts_ok s -> counts_ok s'.
Proof. unfold counts_ok. by intros ->. Qed.

Lemma counts_set_queue s q Q' :
  counts_ok s ->
  q_todo_refcount Q' = Z.of_nat (length (q_todo Q')) ->
  q_busy_refcount Q' = Z.of_nat (length (q_busy Q')) ->
  counts_ok (set_queue q Q' s).
Proof.
  intros Hs Ht Hb q0 Q0. cbn. rewrite lookup_insert. case_decide.
  - by intros [= <-].
  - apply Hs.
Qed.

Lemma qmgr_entry_create_counts peer message s e s' :
  counts_ok s -> qmgr_entry_create peer message s = Some (e, s') -> counts_ok s'.
Proof.
  intros Hs. unfold qmgr_entry_create.
  destruct (peers s !! peer) as [P|]; [cbn|done].
  destruct (queues s !! p_queue P) as [Q|] eqn:HQ; [cbn|done].
  destruct (q_window Q =? 0); [done|].
  destruct (messages s !! message) as [M|]; [cbn|done].
  intros [= _ <-]. destruct (Hs _ _ HQ) as [Ht Hb].
  eapply counts_same; [|apply (counts_set_queue s (p_queue P)); [done| |]];
    [reflexivity| |]; cbn; [|done].
  rewrite length_append. lia.
Qed.

Lemma qmgr_entry_select_counts peer s r s' :
  wf s -> counts_ok s -> qmgr_entry_select peer s = Some (r, s') -> counts_ok s'.
Proof.
  intros Hwf Hs. unfold qmgr_entry_select.
  destruct (peers s !! peer) as [P|] eqn:HP; [cbn|done].
  destruct (p_entry_list P) as [|e rest] eqn:Hlist; [by intros [= _ <-]|].
  destruct (wf_on_peer_list s peer P e Hwf HP)
    as (E & Q & HE & Hp & HQ & Htodo & Hbusy); [rewrite Hlist; by left|].
  rewrite HE. cbn. rewrite HQ. cbn.
  destruct (jobs s !! p_job P) as [J|]; [cbn|done]. intros [= _ <-].
  destruct (Hs _ _ HQ) as [Ht Hb].
  destruct (wf_queue_nodup _ (proj1 Hwf) _ _ HQ) as [Hnd _].
  eapply counts_same; [|apply (counts_set_queue s (e_queue E)); [done| |]];
    [reflexivity| |]; cbn.
  - rewrite Ht, (length_unlink _ e Hnd Htodo). lia.
  - rewrite length_append. lia.
Qed.

Lemma qmgr_entry_unselect_counts entry s s' E Q :
  wf s -> counts_ok s ->
  entries s !! entry = Some E -> queues s !! e_queue E = Some Q ->
  entry ∈ q_busy Q ->
  qmgr_entry_unselect entry s = Some s' -> counts_ok s'.
Proof.
  intros Hwf Hs HE HQ Hbusy. unfold qmgr_entry_unselect.
  rewrite HE. cbn. rewrite HQ. cbn.
  destruct (peers s !! e_peer E) as [P|]; [cbn|done].
  destruct (jobs s !! p_job P) as [J|]; [cbn|done]. intros [= <-].
  destruct (Hs _ _ HQ) as [Ht Hb].
  destruct (wf_queue_nodup _ (proj1 Hwf) _ _ HQ) as [_ Hnd].
  eapply counts_same; [|apply (counts_set_queue s (e_queue E)); [done| |]];
    [reflexivity| |]; cbn.
  - rewrite length_append. lia.
  - rewrite Hb, (length_unlink _ entry Hnd Hbusy). lia.
Qed.

Lemma unblock_counts queue transport s s' :
  counts_ok s -> unblock queue transport s = Some s' -> counts_ok s'.
Proof.
  intros Hs. unfold unblock.
  destruct (queues s !! queue) as [Q|] eqn:HQ; [cbn|done].
  destruct (transports s !! transport) as [T|]; [cbn|done].
  destruct (Hs _ _ HQ) as [Ht Hb].
  destruct (q_blocker_tag Q =? t_blocker_tag T); [|by intros [= <-]].
  destruct (_ && _); destruct (_ || _); intros [= <-]; try done;
    try (by apply (counts_same s));
    (eapply counts_same; [|by apply (counts_set_queue s queue (queue_blocker_tag 0 Q))]);
    reflexivity.
Qed.

Section EntryDoneCounts.

Variable qmgr_job_move_limits : nat -> state -> state.
Variable qmgr_peer_free : nat -> state -> state.
Variable qmgr_queue_unthrottle : nat -> state -> state.
Variable qmgr_queue_done : nat -> state -> state.
Variable qmgr_active_done : nat -> state -> state.

(** The routines called by qmgr_entry_done keep the counts in step. *)
Hypothesis move_limits_counts :
  forall j s, counts_ok s -> counts_ok (qmgr_job_move_limits j s).
Hypothesis peer_free_counts :
  forall p s, counts_ok s -> counts_ok (qmgr_peer_free p s).
Hypothesis queue_unthrottle_counts :
  forall q s, counts_ok s -> counts_ok (qmgr_queue_unthrottle q s).
Hypothesis queue_done_counts :
  forall q s, counts_ok s -> counts_ok (qmgr_queue_done q s).
Hypothesis active_done_counts :
  forall m s, counts_ok s -> counts_ok (qmgr_active_done m s).

Lemma take_off_queue_counts s s1 entry which E Q P J :
  wf s -> counts_ok s ->
  queues s !! e_queue E = Some Q ->
  on_list entry which Q ->
  take_off_queue entry which E P J s = Some s1 -> counts_ok s1.
Proof.
  intros Hwf Hs HQ Hon. unfold take_off_queue.
  destruct (Hs _ _ HQ) as [Ht Hb].
  destruct (wf_queue_nodup _ (proj1 Hwf) _ _ HQ) as [Hnt Hnb].
  destruct Hon as [[-> Hin]|[-> Hin]];
    cbn [Z.eqb QMGR_QUEUE_BUSY QMGR_QUEUE_TODO Pos.eqb]; cbn; rewrite HQ; cbn;
    intros [= <-];
    (eapply counts_same; [|apply (counts_set_queue s (e_queue E)); [done| |]];
     [reflexivity| |]); cbn; try done.
  - rewrite Hb, (length_unlink _ entry Hnb Hin). lia.
  - rewrite Ht, (length_unlink _ entry Hnt Hin). lia.
Qed.

Lemma free_entry_counts entry E job s1 s2 :
  counts_ok s1 -> free_entry entry E job s1 = Some s2 -> counts_ok s2.
Proof.
  intros Hs. unfold free_entry.
  destruct (jobs s1 !! job) as [J|]; [cbn|done].
  destruct (messages s1 !! e_message E) as [M|]; [cbn|done].
  intros [= <-]. by apply (counts_same s1).
Qed.

Lemma sponsor_loop_counts message job sponsors s s' :
  counts_ok s ->
  sponsor_loop qmgr_job_move_limits message job sponsors s = Some s' ->
  counts_ok s'.
Proof.
  revert s. induction sponsors as [|sponsor rest IH]; intros s Hs; cbn.
  - by intros [= <-].
  - destruct (jobs s !! sponsor) as [S|]; [cbn|done].
    destruct (messages s !! message) as [M|]; [cbn|done].
    destruct (_ || _); [by apply IH|].
    destruct (_ || _); [|by apply IH].
    apply IH. by apply move_limits_counts.
Qed.

Lemma move_limits_stage_counts message job s s' :
  counts_ok s ->
  move_limits qmgr_job_move_limits message job s = Some s' -> counts_ok s'.
Proof.
  intros Hs. unfold move_limits.
  destruct (messages s !! message) as [M|]; [cbn|done].
  destruct (sponsor_loop qmgr_job_move_limits message job (m_job_list M) s)
    as [s1|] eqn:Hloop; [cbn|done].
  destruct (messages s1 !! message) as [M1|]; [cbn|done]. intros [= <-].
  apply sponsor_loop_counts in Hloop; [|done].
  destruct (m_rcpt_offset M1 =? 0); [by apply move_limits_counts|done].
Qed.

Lemma release_peer_counts peer s s' :
  counts_ok s -> release_peer qmgr_peer_free peer s = Some s' -> counts_ok s'.
Proof.
  intros Hs. unfold release_peer.
  destruct (peers s !! peer) as [P|]; [cbn|done]. intros [= <-].
  destruct (_ =? 0); [apply peer_free_counts|]; by apply (counts_same s).
Qed.

Lemma discard_queue_counts queue s s' :
  counts_ok s ->
  discard_queue qmgr_queue_unthrottle qmgr_queue_done queue s = Some s' ->
  counts_ok s'.
Proof.
  intros Hs. unfold discard_queue.
  destruct (queues s !! queue) as [Q|]; [cbn|done].
  destruct (q_todo Q); [|by intros [= <-]].
  destruct (q_busy Q); [|by intros [= <-]].
  set (s1 := if _ && _ then qmgr_queue_unthrottle queue s else s).
  assert (Hs1 : counts_ok s1)
    by (subst s1; destruct (_ && _); [by apply queue_unthrottle_counts|done]).
  destruct (queues s1 !! queue) as [Q1|]; [cbn|done].
  destruct (0 <? q_window Q1); intros [= <-]; [by apply queue_done_counts|done].
Qed.

Lemma release_message_counts message s s' :
  counts_ok s -> release_message qmgr_active_done message s = Some s' ->
  counts_ok s'.
Proof.
  intros Hs. unfold release_message.
  destruct (messages s !! message) as [M|]; [cbn|done]. intros [= <-].
  destruct (_ =? 0); [apply active_done_counts|]; by apply (counts_same s).
Qed.

(** X15: on a well-formed state in which todo_refcount and
    busy_refcount of every queue equal the lengths of its todo and busy
    lists, they still do after qmgr_entry_create, after
    qmgr_entry_select, after qmgr_entry_unselect of an entry of the busy
    list, and after qmgr_entry_done of an entry of the list that its
    second argument names, provided the routines that qmgr_entry_done
    calls keep them so. *)
Theorem qmgr_entry_counts_preserved (s : state)
    (Hlists : lists_wf s) (Hinv : entry_invariant s) (Hcounts : counts_ok s) :
  (forall peer message e s',
      qmgr_entry_create peer message s = Some (e, s') -> counts_ok s') /\
  (forall peer r s',
      qmgr_entry_select peer s = Some (r, s') -> counts_ok s') /\
  (forall entry E Q s',
      entries s !! entry = Some E -> queues s !! e_queue E = Some Q ->
      entry ∈ q_busy Q ->
      qmgr_entry_unselect entry s = Some s' -> counts_ok s') /\
  (forall entry which E Q s',
      entries s !! entry = Some E -> queues s !! e_queue E = Some Q ->
      on_list entry which Q ->
      qmgr_entry_done qmgr_job_move_limits qmgr_peer_free
        qmgr_queue_unthrottle qmgr_queue_done qmgr_active_done
        entry which s = Some s' ->
      counts_ok s').
Proof.
  assert (Hwf : wf s) by (by split).
  split; [|split; [|split]].
  - intros peer message e s'. by apply qmgr_entry_create_counts.
  - intros peer r s'. by apply qmgr_entry_select_counts.
  - intros entry E Q s'. by apply qmgr_entry_unselect_counts.
  - intros entry which E Q s' HE HQ Hon. unfold qmgr_entry_done. rewrite HE. cbn.
    destruct (peers s !! e_peer E) as [P|]; [cbn|done].
    destruct (jobs s !! p_job P) as [J|]; [cbn|done].
    destruct (e_stream E); [done|].
    destruct (take_off_queue entry which E P J s) as [s1|] eqn:H1; [cbn|done].
    destruct (free_entry entry E (p_job P) s1) as [s2|] eqn:H2; [cbn|done].
    destruct (move_limits qmgr_job_move_limits (e_message E) (p_job P) s2)
      as [s3|] eqn:H3; [cbn|done].
    destruct (unblock (e_queue E) (j_transport J) s3) as [s4|] eqn:H4; [cbn|done].
    destruct (release_peer qmgr_peer_free (e_peer E) s4) as [s5|] eqn:H5; [cbn|done].
    destruct (discard_queue qmgr_queue_unthrottle qmgr_queue_done (e_queue E) s5)
      as [s6|] eqn:H6; [cbn|done].
    intros H7.
    apply (release_message_counts (e_message E) s6); [|done].
    apply (discard_queue_counts (e_queue E) s5); [|done].
    apply (release_peer_counts (e_peer E) s4); [|done].
    apply (unblock_counts (e_queue E) (j_transport J) s3); [|done].
    apply (move_limits_stage_counts (e_message E) (p_job P) s2); [|done].
    apply (free_entry_counts entry E (p_job P) s1); [|done].
    by apply (take_off_queue_counts s s1 entry which E Q P J).
Qed.

End EntryDoneCounts.

(** X16: entries are served in the order of their creation.  On a
    well-formed state qmgr_entry_create returns a handle that was not in
    use, leaves the entries that exist as they are and links the new
    entry behind those waiting for the peer; a qmgr_entry_select for
    that peer right after it returns the entry that has waited longest,
    and the new entry only when none was waiting. *)
Theorem qmgr_entry_create_then_select (s : state)
    (Hlists : lists_wf s) (Hinv : entry_invariant s)
    (peer message e : nat) (s1 : state) (P : QMGR_PEER)
    (Hpeer : peers s !! peer = Some P)
    (Hjob : is_Some (jobs s !! p_job P))
    (Hcreate : qmgr_entry_create peer message s = Some (e, s1)) :
  entries s !! e = None /\
  (forall x, x <> e -> entries s1 !! x = entries s !! x) /\
  entries s1 !! e = Some {| e_stream := false; e_message := message;
                            e_rcpt_len := 0; e_queue := p_queue P;
                            e_peer := peer |} /\
  p_entry_list <$> peers s1 !! peer = Some (p_entry_list P ++ [e]) /\
  exists s2,
    qmgr_entry_select peer s1 =
      Some (Some (default e (head (p_entry_list P))), s2).
Proof.
  assert (Hwf : wf s) by (by split).
  pose proof (qmgr_entry_create_wf _ _ _ _ _ Hwf Hcreate) as Hwf1.
  revert Hcreate. unfold qmgr_entry_create. rewrite Hpeer. cbn.
  destruct (queues s !! p_queue P) as [Q|] eqn:HQ; [cbn|done].
  destruct (q_window Q =? 0); [done|].
  destruct (messages s !! message) as [M|]; [cbn|done].
  intros [= <- <-].
  assert (Hnew : entries s !! next_entry s = None) by (by apply (wf_fresh _ Hlists)).
  split; [done|]. split; [|split; [|split]].
  - intros x Hx. cbn. by rewrite lookup_insert_ne.
  - cbn. by rewrite lookup_insert_eq.
  - cbn. by rewrite lookup_insert_eq.
  - destruct Hjob as [J HJ].
    match goal with |- context [qmgr_entry_select peer ?st] => set (s1 := st) in * end.
    assert (HP1 : peers s1 !! peer =
                  Some (peer_list (QMGR_LIST_APPEND (p_entry_list P) (next_entry s))
                                  (p_refcount P + 1) P))
      by (subst s1; cbn; by rewrite lookup_insert_eq).
    unfold qmgr_entry_select. rewrite HP1. cbn.
    unfold QMGR_LIST_APPEND at 1.
    assert (Hhead : exists rest,
              p_entry_list P ++ [next_entry s] =
              default (next_entry s) (head (p_entry_list P)) :: rest).
    { destruct (p_entry_list P) as [|x l]; cbn; eauto. }
    destruct Hhead as [rest Hhead]. rewrite Hhead.
    destruct (wf_on_peer_list s1 peer _ (default (next_entry s) (head (p_entry_list P)))
                Hwf1 HP1) as (E1 & Q1 & HE1 & _ & HQ1 & _).
    { cbn. unfold QMGR_LIST_APPEND. rewrite Hhead. by left. }
    subst s1. cbn in HE1, HQ1. rewrite HE1. cbn. rewrite HQ1. cbn.
    rewrite HJ. cbn. by eexists.
Qed.

(** A queue manager with one transport, one message, one job, one queue
    and one peer, and simple stand-ins for the routines that
    qmgr_entry_done calls. *)
Definition no_move (j : nat) (s : state) : state := s.

Definition free_peer (p : nat) (s : state) : state :=
  {| entries := entries s; queues := queues s; peers := delete p (peers s);
     jobs := jobs s; messages := messages s; transports := transports s;
     qmgr_recipient_count := qmgr_recipient_count s;
     qmgr_queue_count := qmgr_queue_count s;
     var_qmgr_rcpt_limit := var_qmgr_rcpt_limit s; next_entry := next_entry s |}.

Definition free_queue (q : nat) (s : state) : state :=
  {| entries := entries s; queues := delete q (queues s); peers := peers s;
     jobs := jobs s; messages := messages s; transports := transports s;
     qmgr_recipient_count := qmgr_recipient_count s;
     qmgr_queue_count := qmgr_queue_count s - 1;
     var_qmgr_rcpt_limit := var_qmgr_rcpt_limit s; next_entry := next_entry s |}.

Definition free_message (m : nat) (s : state) : state :=
  {| entries := entries s; queues := queues s; peers := peers s;
     jobs := jobs s; messages := delete m (messages s);
     transports := transports s;
     qmgr_recipient_count := qmgr_recipient_count s;
     qmgr_queue_count := qmgr_queue_count s;
     var_qmgr_rcpt_limit := var_qmgr_rcpt_limit s; next_entry := next_entry s |}.

Definition the_entry : QMGR_ENTRY :=
  {| e_stream := false; e_message := 0; e_rcpt_len := 0; e_queue := 0;
     e_peer := 0 |}.

Definition idle : state :=
  {| entries := ∅;
     queues := {[ 0%nat := {| q_window := 5; q_todo_refcount := 0;
                              q_busy_refcount := 0; q_todo := []; q_busy := [];
                              q_blocker_tag := 0 |} ]};
     peers := {[ 0%nat := {| p_job := 0; p_queue := 0; p_refcount := 0;
                             p_entry_list := [] |} ]};
     jobs := {[ 0%nat := {| j_transport := 0; j_selected_entries := 0;
                            j_rcpt_count := 0; j_rcpt_limit := 10;
                            j_stack_level := 0 |} ]};
     messages := {[ 0%nat := {| m_refcount := 0; m_rcpt_count := 0;
                                m_rcpt_offset := 0; m_job_list := [0%nat] |} ]};
     transports := {[ 0%nat := {| t_blocker_tag := 1; t_job_list := [0%nat];
                                  t_job_current := None;
                                  t_candidate_cache_current := None |} ]};
     qmgr_recipient_count := 0; qmgr_queue_count := 1;
     var_qmgr_rcpt_limit := 1000; next_entry := 1 |}.

(** The same with two entries waiting on the todo list. *)
Definition two_waiting : state :=
  {| entries := {[ 1%nat := the_entry; 2%nat := the_entry ]};
     queues := {[ 0%nat := {| q_window := 5; q_todo_refcount := 2;
                              q_busy_refcount := 0; q_todo := [1; 2]%nat;
                              q_busy := []; q_blocker_tag := 0 |} ]};
     peers := {[ 0%nat := {| p_job := 0; p_queue := 0; p_refcount := 2;
                             p_entry_list := [1; 2]%nat |} ]};
     jobs := jobs idle;
     messages := {[ 0%nat := {| m_refcount := 2; m_rcpt_count := 0;
                                m_rcpt_offset := 0; m_job_list := [0%nat] |} ]};
     transports := transports idle;
     qmgr_recipient_count := 0; qmgr_queue_count := 1;
     var_qmgr_rcpt_limit := 1000; next_entry := 3 |}.

Lemma idle_wf : wf idle.
Proof.
  split; [split|]; cbn.
  - intros q Q e HQ. apply lookup_singleton_Some in HQ as [_ <-]. cbn.
    intros [Hin|Hin]; by apply elem_of_nil in Hin.
  - intros q Q HQ. apply lookup_singleton_Some in HQ as [_ <-]. cbn.
    split; constructor.
  - intros p P e HP. apply lookup_singleton_Some in HP as [_ <-]. cbn.
    intros Hin. by apply elem_of_nil in Hin.
  - intros p P HP. apply lookup_singleton_Some in HP as [_ <-]. constructor.
  - intros p P HP. apply lookup_singleton_Some in HP as [_ <-]. cbn.
    unfold refs. by rewrite map_filter_empty, map_size_empty.
  - intros e _. apply lookup_empty.
  - intros e E HE. cbn in HE. by rewrite lookup_empty in HE.
Qed.

Lemma two_waiting_created :
  exists s1, qmgr_entry_create 0 0 idle = Some (1%nat, s1) /\
             qmgr_entry_create 0 0 s1 = Some (2%nat, two_waiting).
Proof. eexists. split; vm_compute; reflexivity. Qed.

Lemma two_waiting_wf : wf two_waiting.
Proof.
  destruct two_waiting_created as (s1 & H1 & H2).
  eapply qmgr_entry_create_wf; [|exact H2].
  eapply qmgr_entry_create_wf; [|exact H1]. exact idle_wf.
Qed.

(** The todo list of queue 0 and the list of peer 0. *)
Definition todo_of (s : state) : option (list nat) := q_todo <$> queues s !! 0%nat.
Definition peer_list_of (s : state) : option (list nat) :=
  p_entry_list <$> peers s !! 0%nat.

(** C7 (as stated) fails: with two entries waiting for the peer, select
    followed by unselect leaves the selected entry behind the other one
    on the todo list and on the list of the peer, so the state is not
    the one before the select. *)
Lemma select_unselect_reorders :
  exists s' s'',
    qmgr_entry_select 0 two_waiting = Some (Some 1%nat, s') /\
    qmgr_entry_unselect 1 s' = Some s'' /\
    todo_of two_waiting = Some [1; 2]%nat /\ todo_of s'' = Some [2; 1]%nat /\
    peer_list_of two_waiting = Some [1; 2]%nat /\
    peer_list_of s'' = Some [2; 1]%nat /\
    s'' <> two_waiting.
Proof.
  eexists _, _. split; [vm_compute; reflexivity|].
  split; [vm_compute; reflexivity|].
  repeat split; try (vm_compute; reflexivity).
  intros Heq. apply (f_equal todo_of) in Heq. vm_compute in Heq. discriminate.
Qed.

(** The operations run on this state: the first entry is selected and
    then done with. *)
Example select_then_done :
  exists s' s'',
    qmgr_entry_select 0 two_waiting = Some (Some 1%nat, s') /\
    qmgr_entry_done no_move free_peer no_move free_queue free_message
      1 QMGR_QUEUE_BUSY s' = Some s'' /\
    todo_of s'' = Some [2]%nat /\ entries s'' !! 1%nat = None.
Proof.
  eexists _, _. split; [vm_compute; reflexivity|].
  split; [vm_compute; reflexivity|]. split; vm_compute; reflexivity.
Qed.

Lemma qmgr_entry_operations_preserve_invariant_witness :
  (forall peer message e s',
      qmgr_entry_create peer message two_waiting = Some (e, s') ->
      lists_wf s' /\ entry_invariant s') /\
  (forall peer r s',
      qmgr_entry_select peer two_waiting = Some (r, s') ->
      lists_wf s' /\ entry_invariant s') /\
  (forall entry E Q s',
      entries two_waiting !! entry = Some E ->
      queues two_waiting !! e_queue E = Some Q ->
      entry ∈ q_busy Q ->
      qmgr_entry_unselect entry two_waiting = Some s' ->
      lists_wf s' /\ entry_invariant s') /\
  (forall entry which E Q s',
      entries two_waiting !! entry = Some E ->
      queues two_waiting !! e_queue E = Some Q ->
      on_list entry which Q ->
      qmgr_entry_done no_move free_peer no_move free_queue free_message
        entry which two_waiting = Some s' ->
      lists_wf s' /\ entry_invariant s').
Proof.
  apply (qmgr_entry_operations_preserve_invariant
           no_move free_peer no_move free_queue free_message).
  - reflexivity.
  - reflexivity.
  - reflexivity.
  - intros q s. unfold core, free_queue, qcore. cbn. by rewrite fmap_delete.
  - intros m s Hwf. by apply (wf_alike s).
  - apply two_waiting_wf.
  - apply two_waiting_wf.
Defined.

Lemma qmgr_entry_select_unselect_witness :
  exists E Q P J,
    entries two_waiting !! 1%nat = Some E /\ e_peer E = 0%nat /\
    queues two_waiting !! e_queue E = Some Q /\
    peers two_waiting !! 0%nat = Some P /\
    jobs two_waiting !! p_job P = Some J /\
    head (p_entry_list P) = Some 1%nat /\
    (set_job 0
       {| j_transport := 0; j_selected_entries := 1; j_rcpt_count := 0;
          j_rcpt_limit := 10; j_stack_level := 0 |}
       (set_peer 0
          {| p_job := 0; p_queue := 0; p_refcount := 2;
             p_entry_list := [2%nat] |}
          (set_queue 0
             {| q_window := 5; q_todo_refcount := 1; q_busy_refcount := 1;
                q_todo := [2%nat]; q_busy := [1%nat]; q_blocker_tag := 0 |}
             two_waiting))) =
      set_job (p_job P)
        (job_counts (j_selected_entries J + 1) (j_rcpt_count J) J)
        (set_peer 0
           (peer_list (QMGR_LIST_UNLINK (p_entry_list P) 1) (p_refcount P) P)
           (set_queue (e_queue E)
              (queue_lists (QMGR_LIST_UNLINK (q_todo Q) 1)
                           (q_todo_refcount Q - 1)
                           (QMGR_LIST_APPEND (q_busy Q) 1)
                           (q_busy_refcount Q + 1) Q)
              two_waiting)) /\
    qmgr_entry_unselect 1
      (set_job 0
         {| j_transport := 0; j_selected_entries := 1; j_rcpt_count := 0;
            j_rcpt_limit := 10; j_stack_level := 0 |}
         (set_peer 0
            {| p_job := 0; p_queue := 0; p_refcount := 2;
               p_entry_list := [2%nat] |}
            (set_queue 0
               {| q_window := 5; q_todo_refcount := 1; q_busy_refcount := 1;
                  q_todo := [2%nat]; q_busy := [1%nat]; q_blocker_tag := 0 |}
               two_waiting)))
      = Some (requeued 1 E Q P two_waiting) /\
    (forall t, q_todo Q = t ++ [1%nat] -> p_entry_list P = [1%nat] ->
               requeued 1 E Q P two_waiting = two_waiting).
Proof.
  apply (qmgr_entry_select_unselect two_waiting).
  - apply two_waiting_wf.
  - apply two_waiting_wf.
  - vm_compute. reflexivity.
Defined.

(** The state between the two: one entry waiting. *)
Definition one_peer : QMGR_PEER :=
  {| p_job := 0; p_queue := 0; p_refcount := 1; p_entry_list := [1%nat] |}.

Definition one_waiting : state :=
  {| entries := {[ 1%nat := the_entry ]};
     queues := {[ 0%nat := {| q_window := 5; q_todo_refcount := 1;
                              q_busy_refcount := 0; q_todo := [1%nat];
                              q_busy := []; q_blocker_tag := 0 |} ]};
     peers := {[ 0%nat := one_peer ]};
     jobs := jobs idle;
     messages := {[ 0%nat := {| m_refcount := 1; m_rcpt_count := 0;
                                m_rcpt_offset := 0; m_job_list := [0%nat] |} ]};
     transports := transports idle;
     qmgr_recipient_count := 0; qmgr_queue_count := 1;
     var_qmgr_rcpt_limit := 1000; next_entry := 2 |}.

Lemma one_waiting_wf : wf one_waiting.
Proof.
  apply (qmgr_entry_create_wf 0 0 idle 1); [exact idle_wf|].
  vm_compute. reflexivity.
Qed.

Lemma two_waiting_counts : counts_ok two_waiting.
Proof.
  intros q Q HQ. cbn in HQ. by apply lookup_singleton_Some in HQ as [_ <-].
Qed.

Lemma qmgr_entry_counts_preserved_witness :
  (forall peer message e s',
      qmgr_entry_create peer message two_waiting = Some (e, s') -> counts_ok s') /\
  (forall peer r s',
      qmgr_entry_select peer two_waiting = Some (r, s') -> counts_ok s') /\
  (forall entry E Q s',
      entries two_waiting !! entry = Some E ->
      queues two_waiting !! e_queue E = Some Q ->
      entry ∈ q_busy Q ->
      qmgr_entry_unselect entry two_waiting = Some s' -> counts_ok s') /\
  (forall entry which E Q s',
      entries two_waiting !! entry = Some E ->
      queues two_waiting !! e_queue E = Some Q ->
      on_list entry which Q ->
      qmgr_entry_done no_move free_peer no_move free_queue free_message
        entry which two_waiting = Some s' ->
      counts_ok s').
Proof.
  apply (qmgr_entry_counts_preserved
           no_move free_peer no_move free_queue free_message).
  - by intros j s.
  - by intros p s.
  - by intros q s.
  - intros q s Hs q0 Q0. cbn. intros [_ HQ0]%lookup_delete_Some.
    by apply (Hs q0).
  - by intros m s.
  - apply two_waiting_wf.
  - apply two_waiting_wf.
  - apply two_waiting_counts.
Defined.

Lemma qmgr_entry_create_then_select_witness :
  entries one_waiting !! 2%nat = None /\
  (forall x, x <> 2%nat -> entries two_waiting !! x = entries one_waiting !! x) /\
  entries two_waiting !! 2%nat =
    Some {| e_stream := false; e_message := 0; e_rcpt_len := 0;
            e_queue := 0; e_peer := 0 |} /\
  p_entry_list <$> peers two_waiting !! 0%nat = Some ([1%nat] ++ [2%nat]) /\
  exists s2, qmgr_entry_select 0 two_waiting = Some (Some 1%nat, s2).
Proof.
  apply (qmgr_entry_create_then_select one_waiting
           (proj1 one_waiting_wf) (proj2 one_waiting_wf) 0 0 2 two_waiting one_peer).
  - reflexivity.
  - by eexists.
  - vm_compute. reflexivity.
Defined.

End Qmgr.
